(** * substance/mini: the tree builder [createNodeTree] and the walker [walk]

    A shallow embedding of the builder that maps the parser's tree to the
    node model (the JavaScript listed in [README.md]: [createNodeTree],
    [createFromAST], [Token], [exprSequence], [argSequence],
    [_getStartStop]) and of the stack walker of [src/walk.js].

    The builder mutates one [state] object and may throw; it is embedded in
    a state-and-exception monad [M].  The walker is a [while] loop over an
    explicit stack; it is embedded with a step budget. *)

From Stdlib Require Import List String Ascii ZArith Arith Lia Bool.
From Stdlib Require Import Sorted Permutation.
Import ListNotations.
Open Scope string_scope.
Open Scope list_scope.

Set Implicit Arguments.
Set Warnings "-register-all".

(** ** JavaScript values read by the builder *)

(** The offsets carried by a symbol are ordinary JavaScript values: the
    [Token] constructor checks them with [isNumber], [_getStartStop] copies
    them unchecked.  [VNaN] is what [undefined + 1] evaluates to. *)
Inductive JSVal : Type :=
| VUndefined
| VNum (z : Z)
| VNaN
| VStr (s : string).

(** [isString] and [isNumber] of the substance utility library
    ([typeof v === 'string'], [typeof v === 'number']). *)
Definition isString (v : JSVal) : bool :=
  match v with VStr _ => true | _ => false end.

Definition isNumber (v : JSVal) : bool :=
  match v with VNum _ | VNaN => true | _ => false end.

(** [v + 1] *)
Definition js_plus1 (v : JSVal) : JSVal :=
  match v with
  | VNum z => VNum (z + 1)
  | VUndefined | VNaN => VNaN
  | VStr s => VStr (s ++ "1")
  end.

(** [a <= b] on JavaScript values that are numbers; any comparison with
    [NaN] or [undefined] is false. *)
Definition js_le (a b : JSVal) : bool :=
  match a, b with
  | VNum x, VNum y => (x <=? y)%Z
  | _, _ => false
  end.

(** ** Exceptions and the builder monad *)

Inductive Error : Type :=
| TypeError (what : string)        (* property access on undefined *)
| IllegalArgument (param : string).
  (* [new Error('Illegal argument: <param> must be a string')] for [type],
     [... must be a number] for [start] and [stop] *)

Inductive Result (A : Type) : Type :=
| Ok (a : A)
| Throw (e : Error).
Arguments Throw {A} e.

(** *** Symbols, tokens *)

(** A terminal symbol of the parser (an ANTLR token). *)
Record Symbol : Type := mkSymbol {
  sym_start : JSVal;
  sym_stop : JSVal;
  sym_text : string
}.

(** The object handed to [new Token(type, symbol)]: a parser symbol, or the
    literal [{start, stop}] of the [var] case, which has no [text]. *)
Record SymbolObj : Type := mkSymbolObj {
  so_start : JSVal;
  so_stop : JSVal;
  so_text : option string
}.

Definition of_symbol (s : Symbol) : SymbolObj :=
  mkSymbolObj (sym_start s) (sym_stop s) (Some (sym_text s)).

(** An instance of [class Token]. *)
Record TokenT : Type := mkToken {
  tok_type : string;
  tok_start : JSVal;
  tok_end : JSVal;
  tok_text : option string
}.

(** [new Token(type, symbol)].  An absent [symbol] makes [symbol.start]
    throw a [TypeError]. *)
Definition Token (type : JSVal) (symbol : option SymbolObj) : Result TokenT :=
  match symbol with
  | None => Throw (TypeError "symbol.start")
  | Some symbol =>
    let start := so_start symbol in
    let stop := so_stop symbol in
    match type with
    | VStr ty =>
      if negb (isNumber start) then
        Throw (IllegalArgument "start")
      else if negb (isNumber stop) then
        Throw (IllegalArgument "stop")
      else Ok (mkToken ty start (js_plus1 stop) (so_text symbol))
    | _ => Throw (IllegalArgument "type")
    end
  end.

(** ** The node model *)

(** [Number(text)], kept symbolic: nothing proved here depends on the floating
    point value. *)
Inductive NumberValue : Type := Number (text : string).

(** The payload of [ast.exception] (a recognition exception object of the
    parser), and the message stored in an [ErrorNode]: that payload, or a
    string literal of the builder. *)
Inductive Exception : Type := mkException (description : string).

Inductive Message : Type :=
| MsgException (e : Exception)
| MsgString (s : string).

(** One constructor per class the builder imports from [./Nodes]; every
    constructor takes [id, start, end] first, as the JavaScript classes do.

    Modelled from the spec: [./Nodes] is not among the sources.  The field
    names are those the walker reads ([expr], [args], [vals],
    [entries[i].val], [left], [right]); [FunctionCall] stores an absent
    [args] or [namedArgs] as the empty sequence (the spec's data model makes
    both ordered sequences); [CellRef] and [RangeRef] are the two kinds of
    the spec's node table that the builder does not import. *)
Inductive Node : Type :=
| DefinitionNode (id : nat) (start end_ : JSVal) (name : string) (expr : Node)
| NumberNode (id : nat) (start end_ : JSVal) (value : NumberValue)
| StringNode (id : nat) (start end_ : JSVal) (value : string)
| ArrayNode (id : nat) (start end_ : JSVal) (vals : list Node)
| ObjectNode (id : nat) (start end_ : JSVal) (entries : list (string * Node))
| BooleanNode (id : nat) (start end_ : JSVal) (value : bool)
| Var (id : nat) (start end_ : JSVal) (name : string)
| FunctionCall (id : nat) (start end_ : JSVal) (name : string)
    (args : list Node) (namedArgs : list Node)
| NamedArgument (id : nat) (start end_ : JSVal) (name : string) (value : Node)
| PipeOp (id : nat) (start end_ : JSVal) (left right : Node)
| ErrorNode (id : nat) (start end_ : JSVal) (message : Message)
| EmptyArgument (id : nat) (start end_ : JSVal)
| CellRef (id : nat) (start end_ : JSVal) (row col : nat)
| RangeRef (id : nat) (start end_ : JSVal) (startRow startCol endRow endCol : nat).

Definition node_id (n : Node) : nat :=
  match n with
  | DefinitionNode i _ _ _ _ | NumberNode i _ _ _ | StringNode i _ _ _
  | ArrayNode i _ _ _ | ObjectNode i _ _ _ | BooleanNode i _ _ _
  | Var i _ _ _ | FunctionCall i _ _ _ _ _ | NamedArgument i _ _ _ _
  | PipeOp i _ _ _ _ | ErrorNode i _ _ _ | EmptyArgument i _ _
  | CellRef i _ _ _ _ | RangeRef i _ _ _ _ _ _ => i
  end.

(** Modelled from the spec: the [type] tag of each node class ([./Nodes] is
    not among the sources).  The tags [number], [var], [string], [array],
    [object], [definition], [call], [cell] and [range] are the ones
    [test/parse.test.js] reads back; the walker has no case for the others,
    whatever their spelling. *)
Definition node_type (n : Node) : string :=
  match n with
  | DefinitionNode _ _ _ _ _ => "definition"
  | NumberNode _ _ _ _ => "number"
  | StringNode _ _ _ _ => "string"
  | ArrayNode _ _ _ _ => "array"
  | ObjectNode _ _ _ _ => "object"
  | BooleanNode _ _ _ _ => "boolean"
  | Var _ _ _ _ => "var"
  | FunctionCall _ _ _ _ _ _ => "call"
  | NamedArgument _ _ _ _ _ => "named-argument"
  | PipeOp _ _ _ _ _ => "pipe"
  | ErrorNode _ _ _ _ => "error"
  | EmptyArgument _ _ _ => "empty-argument"
  | CellRef _ _ _ _ _ => "cell"
  | RangeRef _ _ _ _ _ _ _ => "range"
  end.

(** ** The parser's tree *)

(** A node of the tree handed to [createNodeTree]: an ANTLR rule context or
    terminal node, with the properties the builder reads.  Properties a
    JavaScript object may lack are options.  [children] is the array
    [ast.children]; a node that has no such array (a terminal, a context
    that was given no child) is a node whose [children] are empty.  An arm
    that needs an element of the array ends in a [TypeError] on both; the
    builder tells the two apart only where it measures or indexes the
    array without needing an element ([ast.children.length] of a number
    node, [ctx.children[1]] of an array context), see [arrays_given]. *)
Inductive CST : Type := mkCST {
  cst_type : option string;              (* [ast.type] *)
  getText : string;                      (* [ast.getText()] *)
  toString : string;                     (* [ast.toString()] *)
  cst_start : option Symbol;             (* [ast.start] *)
  cst_stop : option Symbol;              (* [ast.stop] *)
  symbol : option Symbol;                (* [ast.symbol] *)
  exception : option Exception;          (* [ast.exception] *)
  children : list CST;                   (* [ast.children] *)
  name : option Symbol;                  (* [ast.name] *)
  args : option CST;                     (* [ast.args] *)
  namedArgs : option CST;                (* [ast.namedArgs] *)
  keys : option (list (option Symbol));  (* [ctx.keys] *)
  vals : option (list (option CST));     (* [ctx.vals] *)
  items : option (list CST)              (* [seq.items] *)
}.

(** [_getStartStop(n)] for a node that exists. *)
Definition _getStartStop (n : CST) : JSVal * JSVal :=
  match cst_start n with
  | Some start =>
    match cst_stop n with
    | Some stop => (sym_start start, js_plus1 (sym_stop stop))
    | None => (sym_start start, js_plus1 (sym_stop start))
    end
  | None =>
    match symbol n with
    | Some sy => (sym_start sy, js_plus1 (sym_stop sy))
    | None => (VUndefined, VUndefined)
    end
  end.

(** ** The build state *)

Record State : Type := mkState {
  nodeId : nat;
  nodes : list Node;
  inputs : list Node;
  tokens : list TokenT
}.

Definition M (A : Type) : Type := State -> Result (A * State).

Definition ret {A} (a : A) : M A := fun st => Ok (a, st).

Definition bind {A B} (m : M A) (k : A -> M B) : M B :=
  fun st =>
    match m st with
    | Ok (a, st') => k a st'
    | Throw e => Throw e
    end.

Definition throw {A} (e : Error) : M A := fun _ => Throw e.

Notation "x <- m ;; k" := (bind m (fun x => k))
  (at level 61, m at next level, right associativity).
Notation "m ;;; k" := (bind m (fun _ => k))
  (at level 61, right associativity).

(** [state.nodeId++] *)
Definition next_id : M nat :=
  fun st => Ok (nodeId st,
                mkState (S (nodeId st)) (nodes st) (inputs st) (tokens st)).

(** [state.nodes.push(node)] *)
Definition push_node (n : Node) : M unit :=
  fun st => Ok (tt, mkState (nodeId st) (nodes st ++ [n]) (inputs st) (tokens st)).

(** [state.inputs.push(node)] *)
Definition push_input (n : Node) : M unit :=
  fun st => Ok (tt, mkState (nodeId st) (nodes st) (inputs st ++ [n]) (tokens st)).

(** [state.tokens.push(new Token(type, symbol))]: the constructor runs
    first and may throw. *)
Definition push_token (type : string) (symbol : option SymbolObj) : M unit :=
  fun st =>
    match Token (VStr type) symbol with
    | Ok t => Ok (tt, mkState (nodeId st) (nodes st) (inputs st) (tokens st ++ [t]))
    | Throw e => Throw e
    end.

(** Reading a property of a value that may be [undefined]. *)
Definition defined {A} (what : string) (o : option A) : M A :=
  match o with
  | Some a => ret a
  | None => throw (TypeError what)
  end.

(** ** [createFromAST] *)

(** The arms of [switch (ast.type)], one constructor per group of [case]
    labels that share a body. *)
Inductive Case : Type :=
| CEvaluation | CDefinition | CSimple | CSelectId | CSelectExpr
| CUnary (name : string) | CBinary (name : string) | CPipe
| CNumber | CBoolean | CString | CArray | CObject | CVar | CGroup
| C_Call | CCall | CNamedArgument | CDefault.

Definition unary_operators : list string := ["not"; "positive"; "negative"].

Definition binary_operators : list string :=
  ["pow"; "multiply"; "divide"; "remainder"; "add"; "subtract"; "less";
   "less_or_equal"; "greater"; "greater_or_equal"; "equal"; "not_equal";
   "and"; "or"].

Definition mem (s : string) (l : list string) : bool := existsb (String.eqb s) l.

Definition case_of (type : option string) : Case :=
  match type with
  | None => CDefault
  | Some t =>
    if t =? "evaluation" then CEvaluation
    else if t =? "definition" then CDefinition
    else if t =? "simple" then CSimple
    else if t =? "select_id" then CSelectId
    else if t =? "select_expr" then CSelectExpr
    else if mem t unary_operators then CUnary t
    else if mem t binary_operators then CBinary t
    else if t =? "pipe" then CPipe
    else if mem t ["int"; "float"; "number"] then CNumber
    else if t =? "boolean" then CBoolean
    else if t =? "string" then CString
    else if t =? "array" then CArray
    else if t =? "object" then CObject
    else if t =? "var" then CVar
    else if t =? "group" then CGroup
    else if t =? "_call" then C_Call
    else if t =? "call" then CCall
    else if t =? "named-argument" then CNamedArgument
    else CDefault
  end.

(** [text.slice(1, -1)] *)
Definition slice_1_m1 (text : string) : string :=
  substring 1 (String.length text - 2) text.

(** [items.map(c => createFromAST(state, c))], given for each item [c] the
    computation [createFromAST(state, c)]; [if (!items) return []]. *)
Fixpoint sequence (calls : list (M Node)) : M (list Node) :=
  match calls with
  | [] => ret []
  | c :: rest => n <- c ;; ns <- sequence rest ;; ret (n :: ns)
  end.

Definition exprSequence (items : option (list (M Node))) : M (list Node) :=
  match items with
  | None => ret []
  | Some calls => sequence calls
  end.

(** The local variable [last] of [argSequence]: [undefined] before the
    loop, then [false] after a comma and the node itself after an
    argument. *)
Inductive Last : Type := LUndefined | LFalse | LNode (n : CST).

Definition not_last (last : Last) : bool :=
  match last with LNode _ => false | _ => true end.

Definition emptyArgument (n : CST) : M Node :=
  let '(start, end_) := _getStartStop n in
  id <- next_id ;; ret (EmptyArgument id start end_).

(** The [for] loop of [argSequence] over [args.children], from the element
    [args[i]] on; [createFromAST] is the builder for one element. *)
Fixpoint argLoop (createFromAST : CST -> M Node) (args : list CST)
    (last : Last) (result : list Node) : M (list Node * Last) :=
  match args with
  | [] => ret (result, last)
  | n :: rest =>
    if getText n =? "," then
      if not_last last then
        e <- emptyArgument n ;;
        argLoop createFromAST rest LFalse (result ++ [e])
      else argLoop createFromAST rest LFalse result
    else
      a <- createFromAST n ;;
      argLoop createFromAST rest (LNode n) (result ++ [a])
  end.

Definition argSequence (createFromAST : CST -> M Node) (args : option CST)
    : M (list Node) :=
  match args with
  | None => ret []
  | Some ctx =>
    let args := children ctx in
    r <- argLoop createFromAST args LUndefined [] ;;
    let '(result, last) := r in
    if not_last last then
      last <- defined "last.getText" (nth_error args (List.length args - 1)) ;;
      if getText last =? "," then
        e <- emptyArgument last ;; ret (result ++ [e])
      else ret result
    else ret result
  end.

(** The [for] loop of the [object] case, from index [i] on: [keys] and
    [vals] are [keys[i..]] and [vals[i..]], each value given as the
    computation [createFromAST(state, vals[i])]. *)
Fixpoint objectLoop (keys : list (option Symbol)) (vals : list (option (M Node)))
    (entries : list (string * Node)) : M (list (string * Node)) :=
  match keys with
  | [] => ret entries
  | key :: keys' =>
    push_token "key" (option_map of_symbol key) ;;;
    match key, hd None vals with
    | Some k, Some build =>
      val <- build ;;
      objectLoop keys' (tl vals) (entries ++ [(sym_text k, val)])
    | _, _ => objectLoop keys' (tl vals) entries
    end
  end.

(** [state.nodes.push(node); return node], the end of [createFromAST]. *)
Definition finish (node : Node) : M Node := push_node node ;;; ret node.

(** The body of [case 'call':] for the node [ast] it works on, which under
    [case '_call':] is the first child; [start] and [end_] are those of the
    node [createFromAST] was called with. *)
Definition call (argSequence : option CST -> M (list Node))
    (start end_ : JSVal) (ast : CST) : M Node :=
  let fname := match name ast with Some nm => sym_text nm | None => "" end in
  r <- match args ast with
       | Some argsCtx =>
         positional <- argSequence (args argsCtx) ;;
         named <- argSequence (namedArgs argsCtx) ;;
         ret (positional, named)
       | None => ret ([], [])
       end ;;
  match name ast with
  | Some nm => push_token "function-name" (Some (of_symbol nm))
  | None => ret tt
  end ;;;
  id <- next_id ;;
  finish (FunctionCall id start end_ fname (fst r) (snd r)).

Fixpoint createFromAST (ast : CST) : M Node :=
  (* [createFromAST(state, ast.children[i])] *)
  let child (i : nat) : M Node :=
    nth i (map createFromAST (children ast))
        (throw (TypeError "n.start")) in
  let '(start, end_) := _getStartStop ast in
  match case_of (cst_type ast) with
  | CEvaluation => child 0
  | CDefinition =>
    lhs <- defined "lhs.symbol" (nth_error (children ast) 0) ;;
    push_token "output-name" (option_map of_symbol (symbol lhs)) ;;;
    id <- next_id ;;
    expr <- child 2 ;;
    finish (DefinitionNode id start end_ (getText lhs) expr)
  | CSimple => child 0
  | CSelectId =>
    value <- child 0 ;;
    i <- next_id ;;
    member <- defined "ast.children[2].getText" (nth_error (children ast) 2) ;;
    let id := StringNode i start end_ (getText member) in
    push_node id ;;;
    j <- next_id ;;
    finish (FunctionCall j start end_ "select" [value; id] [])
  | CSelectExpr =>
    args <- exprSequence (Some [child 0; child 2]) ;;
    id <- next_id ;;
    finish (FunctionCall id start end_ "select" args [])
  | CUnary name =>
    args <- exprSequence (Some [child 1]) ;;
    id <- next_id ;;
    finish (FunctionCall id start end_ name args [])
  | CBinary name =>
    args <- exprSequence (Some [child 0; child 2]) ;;
    id <- next_id ;;
    finish (FunctionCall id start end_ name args [])
  | CPipe =>
    id <- next_id ;;
    left <- child 0 ;;
    right <- child 2 ;;
    finish (PipeOp id start end_ left right)
  | CNumber =>
    if negb (List.length (children ast) =? 1)%nat then
      id <- next_id ;;
      finish (ErrorNode id start end_ (MsgString "Invalid number."))
    else
      c <- defined "ast.children[0].children" (nth_error (children ast) 0) ;;
      token <- defined "token.symbol" (nth_error (children c) 0) ;;
      push_token "number-literal" (option_map of_symbol (symbol token)) ;;;
      id <- next_id ;;
      finish (NumberNode id start end_ (Number (getText token)))
  | CBoolean =>
    token <- defined "token.symbol" (nth_error (children ast) 0) ;;
    push_token "boolean-literal" (option_map of_symbol (symbol token)) ;;;
    let bool := getText token =? "true" in
    id <- next_id ;;
    finish (BooleanNode id start end_ bool)
  | CString =>
    ctx <- defined "ctx.symbol" (nth_error (children ast) 0) ;;
    push_token "string-literal" (option_map of_symbol (symbol ctx)) ;;;
    let str := slice_1_m1 (getText ctx) in
    id <- next_id ;;
    finish (StringNode id start end_ str)
  | CArray =>
    match children ast with
    | [] => throw (TypeError "ctx.children")
    | ctx :: _ =>
      vals <- match children ctx with
              | _ :: seq :: _ =>
                match items seq with
                | Some its => exprSequence (Some (map createFromAST its))
                | None => ret []
                end
              | _ => ret []
              end ;;
      id <- next_id ;;
      finish (ArrayNode id start end_ vals)
    end
  | CObject =>
    match children ast with
    | [] => throw (TypeError "ctx.keys")
    | ctx :: _ =>
      keys <- defined "keys.length" (keys ctx) ;;
      entries <-
        match vals ctx with
        | Some vals =>
          objectLoop keys (map (option_map createFromAST) vals) []
        | None =>
          match keys with
          | [] => ret []
          | key :: _ =>
            push_token "key" (option_map of_symbol key) ;;;
            throw (TypeError "vals[i]")
          end
        end ;;
      id <- next_id ;;
      finish (ObjectNode id start end_ entries)
    end
  | CVar =>
    id <- next_id ;;
    let node := Var id start end_ (getText ast) in
    s <- defined "ast.start.start" (cst_start ast) ;;
    e <- defined "ast.stop.stop" (cst_stop ast) ;;
    push_token "input-variable-name"
      (Some (mkSymbolObj (sym_start s) (sym_stop e) None)) ;;;
    push_input node ;;;
    finish node
  | CGroup => child 1
  | C_Call =>
    match children ast with
    | [] => throw (TypeError "ast.name")
    | ast' :: _ => call (argSequence createFromAST) start end_ ast'
    end
  | CCall => call (argSequence createFromAST) start end_ ast
  | CNamedArgument =>
    nm <- defined "name.symbol" (nth_error (children ast) 0) ;;
    push_token "key" (option_map of_symbol (symbol nm)) ;;;
    id <- next_id ;;
    value <- child 2 ;;
    finish (NamedArgument id start end_ (toString nm) value)
  | CDefault =>
    match exception ast with
    | Some e =>
      id <- next_id ;;
      finish (ErrorNode id start end_ (MsgException e))
    | None =>
      id <- next_id ;;
      finish (ErrorNode id start end_ (MsgString "Parser error."))
    end
  end.

(** [createFromAST(state, ast)] for an [ast] that may be [undefined]: the
    first statement, [_getStartStop(ast)], then throws on [n.start]. *)
Definition createFromAST_opt (ast : option CST) : M Node :=
  match ast with
  | Some ast => createFromAST ast
  | None => throw (TypeError "n.start")
  end.

(** ** [createNodeTree] *)

(** The object [{ root, state }] returned by [createNodeTree]. *)
Record Expr : Type := mkExpr {
  root : Node;
  state : State
}.

Definition initial_state : State := mkState 0 [] [] [].

Definition createNodeTree (ast : CST) : Result Expr :=
  match createFromAST ast initial_state with
  | Ok (root, state) => Ok (mkExpr root state)
  | Throw e => Throw e
  end.

(** ** [walk] *)

(** Property reads of the walker on a node object; a class without the
    property gives [undefined]. *)
Definition node_expr (n : Node) : option Node :=
  match n with DefinitionNode _ _ _ _ e => Some e | _ => None end.

Definition node_args (n : Node) : option (list Node) :=
  match n with FunctionCall _ _ _ _ a _ => Some a | _ => None end.

Definition node_left (n : Node) : option Node :=
  match n with PipeOp _ _ _ l _ => Some l | _ => None end.

Definition node_right (n : Node) : option Node :=
  match n with PipeOp _ _ _ _ r => Some r | _ => None end.

Definition node_vals (n : Node) : option (list Node) :=
  match n with ArrayNode _ _ _ v => Some v | _ => None end.

Definition node_entries (n : Node) : option (list (string * Node)) :=
  match n with ObjectNode _ _ _ en => Some en | _ => None end.

(** The [switch (next.type)] of the loop body: the nodes it pushes, listed
    from the top of the stack down (the loops push in reverse order, so the
    first child ends on top).  A stack slot is [None] when the pushed value
    is [undefined]; reading [length] of an absent array throws. *)
Definition pushed (next : Node) : Result (list (option Node)) :=
  let t := node_type next in
  if t =? "definition" then Ok [node_expr next]
  else if mem t ["function"; "call"] then
    match node_args next with
    | Some a => Ok (map Some a)
    | None => Throw (TypeError "next.args.length")
    end
  else if mem t ["plus"; "minus"; "mult"; "div"; "power"] then
    Ok [node_left next; node_right next]
  else if t =? "array" then
    match node_vals next with
    | Some v => Ok (map Some v)
    | None => Throw (TypeError "next.vals.length")
    end
  else if t =? "object" then
    match node_entries next with
    | Some en => Ok (map (fun e => Some (snd e)) en)
    | None => Throw (TypeError "next.entries.length")
    end
  else Ok [].

(** The [while (stack.length)] loop, with a budget of iterations; [stack]
    has its top first, [visited] collects the arguments of the calls
    [fn(next)] in order.  [None] is an exhausted budget. *)
Fixpoint walk_loop (fuel : nat) (stack : list (option Node))
    (visited : list (option Node)) : option (Result (list (option Node))) :=
  match stack with
  | [] => Some (Ok visited)
  | next :: stack' =>
    match fuel with
    | O => None
    | S fuel' =>
      match next with
      | None => Some (Throw (TypeError "next.type"))
      | Some n =>
        match pushed n with
        | Ok ps => walk_loop fuel' (ps ++ stack') (visited ++ [next])
        | Throw e => Some (Throw e)
        end
      end
    end
  end.

Definition walk (fuel : nat) (expr : Expr) : option (Result (list (option Node))) :=
  walk_loop fuel [Some (root expr)] [].

(** [getNodeTypes(expr)] of [test/parse.test.js]: the [type] of every node
    [walk] visits, in order. *)
Definition getNodeTypes (fuel : nat) (expr : Expr) : option (Result (list string)) :=
  match walk fuel expr with
  | Some (Ok visited) =>
    Some (Ok (flat_map (fun next => match next with
                                    | Some n => [node_type n]
                                    | None => []
                                    end) visited))
  | Some (Throw e) => Some (Throw e)
  | None => None
  end.

(** [String(arr)] for an array of strings: the elements joined by
    commas. *)
Definition String_of_array (arr : list string) : string :=
  String.concat "," arr.

(** [_equal(t, arr1, arr2, msg)] of [test/parse.test.js]: whether the
    assertion [t.equal(String(arr1), String(arr2), msg)] passes. *)
Definition _equal (arr1 arr2 : list string) : bool :=
  String_of_array arr1 =? String_of_array arr2.

(** ** Parser trees of the test expressions *)

Module Fixtures.

Definition sym (start stop : Z) (text : string) : Symbol :=
  mkSymbol (VNum start) (VNum stop) text.

(** A terminal node over one symbol. *)
Definition terminal (s : Symbol) : CST :=
  mkCST None (sym_text s) (sym_text s) None None (Some s) None []
        None None None None None None.

(** A rule context of kind [type] spanning the symbols [first .. last]. *)
Definition rule (type : string) (text : string) (first last : Symbol)
    (children : list CST) : CST :=
  mkCST (Some type) text text (Some first) (Some last) None None children
        None None None None None None.

(** A context without a [type] tag. *)
Definition ctx (text : string) (first last : Symbol) (children : list CST)
    : CST :=
  mkCST None text text (Some first) (Some last) None None children
        None None None None None None.

Definition number (s : Symbol) : CST :=
  rule "number" (sym_text s) s s [ctx (sym_text s) s s [terminal s]].

Definition var (s : Symbol) : CST :=
  rule "var" (sym_text s) s s [terminal s].

Definition binary (type : string) (text : string) (l op r : Symbol) : CST :=
  rule type text l r [number l; terminal op; number r].

(** [1+2], [2*3], [5-3], [6/3], [2^3] *)
Definition cst_1_plus_2 := binary "add" "1+2" (sym 0 0 "1") (sym 1 1 "+") (sym 2 2 "2").
Definition cst_2_times_3 := binary "multiply" "2*3" (sym 0 0 "2") (sym 1 1 "*") (sym 2 2 "3").
Definition cst_5_minus_3 := binary "subtract" "5-3" (sym 0 0 "5") (sym 1 1 "-") (sym 2 2 "3").
Definition cst_6_div_3 := binary "divide" "6/3" (sym 0 0 "6") (sym 1 1 "/") (sym 2 2 "3").
Definition cst_2_pow_3 := binary "pow" "2^3" (sym 0 0 "2") (sym 1 1 "^") (sym 2 2 "3").

(** [x = 42] *)
Definition cst_x_eq_42 : CST :=
  rule "definition" "x=42" (sym 0 0 "x") (sym 4 5 "42")
    [terminal (sym 0 0 "x"); terminal (sym 2 2 "="); number (sym 4 5 "42")].

(** [1], [x] *)
Definition cst_1 : CST := number (sym 0 0 "1").
Definition cst_x : CST := var (sym 0 0 "x").

(** The string literal [foo] in double quotes. *)
Definition quoted_foo : string :=
  String "034"%char ("foo" ++ String "034"%char EmptyString).

Definition cst_foo : CST :=
  rule "string" quoted_foo (sym 0 4 quoted_foo) (sym 0 4 quoted_foo)
    [terminal (sym 0 4 quoted_foo)].

(** [[1,x]]: the array context holds the brackets around the sequence of
    items. *)
Definition cst_array_1_x : CST :=
  let one := number (sym 1 1 "1") in
  let x := var (sym 3 3 "x") in
  let seq :=
    mkCST None "1,x" "1,x" (Some (sym 1 1 "1")) (Some (sym 3 3 "x")) None None
          [one; terminal (sym 2 2 ","); x]
          None None None None None (Some [one; x]) in
  rule "array" "[1,x]" (sym 0 0 "[") (sym 4 4 "]")
    [ctx "[1,x]" (sym 0 0 "[") (sym 4 4 "]")
       [terminal (sym 0 0 "["); seq; terminal (sym 4 4 "]")]].

(** [B3] and [A1:C4] as nodes of kind [cell] and [range], the kinds the
    tests expect for them. *)
Definition cst_B3 : CST :=
  rule "cell" "B3" (sym 0 1 "B3") (sym 0 1 "B3") [terminal (sym 0 1 "B3")].

Definition cst_A1_C4 : CST :=
  rule "range" "A1:C4" (sym 0 4 "A1:C4") (sym 0 4 "A1:C4")
    [terminal (sym 0 4 "A1:C4")].

(** A call [name(...)] whose argument list has the raw elements
    [elements]. *)
Definition call_of (text : string) (fname first last : Symbol)
    (elements : list CST) : CST :=
  let seq := ctx text first last elements in
  let argsCtx :=
    mkCST None text text (Some first) (Some last) None None [seq]
          None (Some seq) None None None None in
  mkCST (Some "call") text text (Some fname) (Some last) None None
        [terminal fname; argsCtx] (Some fname) (Some argsCtx) None
        None None None.

(** [sum(x,,y)] *)
Definition cst_sum_x__y : CST :=
  call_of "sum(x,,y)" (sym 0 2 "sum") (sym 4 4 "x") (sym 7 7 "y")
    [var (sym 4 4 "x"); terminal (sym 5 5 ","); terminal (sym 6 6 ",");
     var (sym 7 7 "y")].

(** [sum(x,)] *)
Definition cst_sum_x_ : CST :=
  call_of "sum(x,)" (sym 0 2 "sum") (sym 4 4 "x") (sym 5 5 ",")
    [var (sym 4 4 "x"); terminal (sym 5 5 ",")].

(** [a | b | c], nested to the left. *)
Definition cst_a_pipe_b : CST :=
  rule "pipe" "a|b" (sym 0 0 "a") (sym 4 4 "b")
    [var (sym 0 0 "a"); terminal (sym 2 2 "|"); var (sym 4 4 "b")].

Definition cst_a_pipe_b_pipe_c : CST :=
  rule "pipe" "a|b|c" (sym 0 0 "a") (sym 8 8 "c")
    [cst_a_pipe_b; terminal (sym 6 6 "|"); var (sym 8 8 "c")].

(** An object literal given by the [keys] and [vals] of its context. *)
Definition object_of (text : string) (first last : Symbol)
    (keys : list (option Symbol)) (vals : list (option CST)) : CST :=
  rule "object" text first last
    [mkCST None text text (Some first) (Some last) None None []
           None None None (Some keys) (Some vals) None].

(** [{foo: 1, bar: x}] *)
Definition cst_object_foo_bar : CST :=
  object_of "{foo: 1, bar: x}" (sym 0 0 "{") (sym 15 15 "}")
    [Some (sym 1 3 "foo"); Some (sym 9 11 "bar")]
    [Some (number (sym 6 6 "1")); Some (var (sym 14 14 "x"))].

(** [sum(1,x)] *)
Definition cst_sum_1_x : CST :=
  call_of "sum(1,x)" (sym 0 2 "sum") (sym 4 4 "1") (sym 6 6 "x")
    [number (sym 4 4 "1"); terminal (sym 5 5 ","); var (sym 6 6 "x")].

(** [{foo: 1}] with the key symbol missing from [keys]. *)
Definition cst_object_no_key : CST :=
  object_of "{: 1}" (sym 0 0 "{") (sym 4 4 "}")
    [None] [Some (number (sym 3 3 "1"))].

(** [{foo: }]: the key is there, the value is not. *)
Definition cst_object_no_value : CST :=
  object_of "{foo: }" (sym 0 0 "{") (sym 6 6 "}")
    [Some (sym 1 3 "foo")] [None].

(** [{foo: 1, bar: , foo: x}]: the second key has no value, the third
    repeats the first. *)
Definition cst_object_foo_bar_foo : CST :=
  object_of "{foo: 1, bar: , foo: x}" (sym 0 0 "{") (sym 22 22 "}")
    [Some (sym 1 3 "foo"); Some (sym 9 11 "bar"); Some (sym 15 17 "foo")]
    [Some (number (sym 6 6 "1")); None; Some (var (sym 20 20 "x"))].

(** A [number] node with its single child, but no token below it. *)
Definition cst_number_no_token : CST :=
  rule "number" "" (sym 0 0 "") (sym 0 0 "")
    [ctx "" (sym 0 0 "") (sym 0 0 "") []].

(** [a |]: a [pipe] node whose right operand is missing. *)
Definition cst_a_pipe : CST :=
  rule "pipe" "a|" (sym 0 0 "a") (sym 2 2 "|")
    [var (sym 0 0 "a"); terminal (sym 2 2 "|")].

(** [(x)] below an [evaluation] node. *)
Definition cst_paren_x : CST :=
  rule "evaluation" "(x)" (sym 0 0 "(") (sym 2 2 ")")
    [rule "group" "(x)" (sym 0 0 "(") (sym 2 2 ")")
       [terminal (sym 0 0 "("); var (sym 1 1 "x"); terminal (sym 2 2 ")")]].

(** [sum(1,x,y)] *)
Definition cst_sum_1_x_y : CST :=
  call_of "sum(1,x,y)" (sym 0 2 "sum") (sym 4 4 "1") (sym 8 8 "y")
    [number (sym 4 4 "1"); terminal (sym 5 5 ","); var (sym 6 6 "x");
     terminal (sym 7 7 ","); var (sym 8 8 "y")].

(** [f(a, k=1)]: one positional and one named argument. *)
Definition cst_f_a_k_1 : CST :=
  let a := var (sym 2 2 "a") in
  let named :=
    rule "named-argument" "k=1" (sym 4 4 "k") (sym 6 6 "1")
      [terminal (sym 4 4 "k"); terminal (sym 5 5 "=");
       number (sym 6 6 "1")] in
  let positional := ctx "a" (sym 2 2 "a") (sym 2 2 "a") [a] in
  let namedSeq := ctx "k=1" (sym 4 4 "k") (sym 6 6 "1") [named] in
  let argsCtx :=
    mkCST None "a,k=1" "a,k=1" (Some (sym 2 2 "a")) (Some (sym 6 6 "1"))
          None None [positional; terminal (sym 3 3 ","); namedSeq]
          None (Some positional) (Some namedSeq) None None None in
  mkCST (Some "call") "f(a,k=1)" "f(a,k=1)" (Some (sym 0 0 "f"))
        (Some (sym 7 7 ")")) None None
        [terminal (sym 0 0 "f"); argsCtx]
        (Some (sym 0 0 "f")) (Some argsCtx) None None None None.

(** The raw argument sequences [1,x,y] and [x,,y] on their own. *)
Definition args_1_x_y : CST :=
  ctx "1,x,y" (sym 4 4 "1") (sym 8 8 "y")
    [number (sym 4 4 "1"); terminal (sym 5 5 ","); var (sym 6 6 "x");
     terminal (sym 7 7 ","); var (sym 8 8 "y")].

Definition args_x__y : CST :=
  ctx "x,,y" (sym 4 4 "x") (sym 7 7 "y")
    [var (sym 4 4 "x"); terminal (sym 5 5 ","); terminal (sym 6 6 ",");
     var (sym 7 7 "y")].

(** A symbol whose [stop] lies before its [start]. *)
Definition symbol_5_2 : SymbolObj := mkSymbolObj (VNum 5) (VNum 2) None.

(** The result of a build that is known to return. *)
Definition built (ast : CST) : Expr :=
  match createNodeTree ast with
  | Ok expr => expr
  | Throw _ => mkExpr (EmptyArgument 0 VUndefined VUndefined) initial_state
  end.

(** The arguments and the state of a run of [argSequence] that is known to
    return. *)
Definition sequenced (ctx : CST) : list Node * State :=
  match argSequence createFromAST (Some ctx) initial_state with
  | Ok r => r
  | Throw _ => ([], initial_state)
  end.

Definition expr_x_eq_42 : Expr := Eval vm_compute in built cst_x_eq_42.
Definition expr_1_plus_2 : Expr := Eval vm_compute in built cst_1_plus_2.
Definition expr_sum_x__y : Expr := Eval vm_compute in built cst_sum_x__y.
Definition expr_a_pipe_b_pipe_c : Expr :=
  Eval vm_compute in built cst_a_pipe_b_pipe_c.
Definition expr_f_a_k_1 : Expr := Eval vm_compute in built cst_f_a_k_1.

End Fixtures.

(** ** Measures and views used by the statements *)

Definition opt_size {A} (size : A -> nat) (o : option A) : nat :=
  match o with Some a => size a | None => 0 end.

(** Number of tree nodes below (and including) [ast], through every
    property that holds tree nodes. *)
Fixpoint size (ast : CST) : nat :=
  S (list_sum (map size (children ast))
     + opt_size size (args ast)
     + opt_size size (namedArgs ast)
     + opt_size (fun l => list_sum (map (opt_size size) l)) (vals ast)
     + opt_size (fun l => list_sum (map size l)) (items ast)).

(** Every node object reachable from [n] through any field, [n] first. *)
Fixpoint all_nodes (n : Node) : list Node :=
  n :: match n with
       | DefinitionNode _ _ _ _ e => all_nodes e
       | ArrayNode _ _ _ vs => flat_map all_nodes vs
       | ObjectNode _ _ _ en => flat_map (fun e => all_nodes (snd e)) en
       | FunctionCall _ _ _ _ a na =>
         flat_map all_nodes a ++ flat_map all_nodes na
       | NamedArgument _ _ _ _ v => all_nodes v
       | PipeOp _ _ _ l r => all_nodes l ++ all_nodes r
       | _ => []
       end.

Definition ids (l : list Node) : list nat := map node_id l.

Definition is_Var (n : Node) : bool :=
  match n with Var _ _ _ _ => true | _ => false end.

Definition is_PipeOp (n : Node) : bool :=
  match n with PipeOp _ _ _ _ _ => true | _ => false end.

(** Node classes of the builder's import list. *)
Definition imported (n : Node) : bool :=
  match n with CellRef _ _ _ _ _ | RangeRef _ _ _ _ _ _ _ => false | _ => true end.

(** The three kinds whose constructor call evaluates [state.nodeId++]
    before the calls that build the children. *)
Definition id_first (n : Node) : bool :=
  match n with
  | DefinitionNode _ _ _ _ _ | NamedArgument _ _ _ _ _ | PipeOp _ _ _ _ _ => true
  | _ => false
  end.

Definition id_last (n : Node) : bool := negb (id_first n).

(** *** The traversal order the walker is specified to have *)

(** Child enumeration as the walker's contract words it: a definition
    yields its bound expression, a function call its positional arguments,
    an array its values, an object the value of each entry; every other
    kind is a leaf. *)
Definition enumerated_children (n : Node) : list Node :=
  match n with
  | DefinitionNode _ _ _ _ e => [e]
  | FunctionCall _ _ _ _ a _ => a
  | ArrayNode _ _ _ vs => vs
  | ObjectNode _ _ _ en => map snd en
  | _ => []
  end.

(** Pre-order over [enumerated_children]: the node, then its children's
    subtrees from left to right. *)
Fixpoint preorder (n : Node) : list Node :=
  n :: match n with
       | DefinitionNode _ _ _ _ e => preorder e
       | FunctionCall _ _ _ _ a _ => flat_map preorder a
       | ArrayNode _ _ _ vs => flat_map preorder vs
       | ObjectNode _ _ _ en => flat_map (fun e => preorder (snd e)) en
       | _ => []
       end.

(** The nodes of [n] that [preorder] leaves out: what hangs below a pipe
    operator, a named argument, or the named arguments of a call. *)
Fixpoint hidden (n : Node) : list Node :=
  match n with
  | DefinitionNode _ _ _ _ e => hidden e
  | FunctionCall _ _ _ _ a na => flat_map hidden a ++ flat_map all_nodes na
  | ArrayNode _ _ _ vs => flat_map hidden vs
  | ObjectNode _ _ _ en => flat_map (fun e => hidden (snd e)) en
  | NamedArgument _ _ _ _ v => all_nodes v
  | PipeOp _ _ _ l r => all_nodes l ++ all_nodes r
  | _ => []
  end.

(** *** Argument sequencing as the contract words it *)

Definition is_comma (n : CST) : bool := getText n =? ",".

(** Left-to-right scan of the raw argument sequence.  [after_arg] tells
    whether the element just before is an argument: a comma that opens the
    sequence or follows another comma gives an [EmptyArgument] at its own
    span, a comma after an argument gives nothing, anything else is built
    by [createFromAST]. *)
Fixpoint scan_args (createFromAST : CST -> M Node) (after_arg : bool)
    (args : list CST) : M (list Node) :=
  match args with
  | [] => ret []
  | n :: rest =>
    if is_comma n then
      if after_arg then scan_args createFromAST false rest
      else
        e <- emptyArgument n ;;
        r <- scan_args createFromAST false rest ;;
        ret (e :: r)
    else
      a <- createFromAST n ;;
      r <- scan_args createFromAST true rest ;;
      ret (a :: r)
  end.

(** The scan, then one final [EmptyArgument] when the sequence ends in a
    comma. *)
Definition sequenced_args (createFromAST : CST -> M Node) (args : list CST)
    : M (list Node) :=
  r <- scan_args createFromAST false args ;;
  match last (map Some args) None with
  | Some l =>
    if is_comma l then e <- emptyArgument l ;; ret (r ++ [e]) else ret r
  | None => ret r
  end.

(** *** What one run of the builder adds to the state *)

Definition in_range (lo hi : nat) (l : list nat) : Prop :=
  Forall (fun i => lo <= i < hi) l.

(** [tree] are the node objects created while the counter went from [lo]
    to [hi], [dn] the nodes pushed to [state.nodes] and [di] those pushed
    to [state.inputs] meanwhile. *)
Record Delta (lo hi : nat) (tree dn di : list Node) : Prop := mkDelta {
  d_le : lo <= hi;
  d_count : List.length tree = hi - lo;
  d_tree_range : in_range lo hi (ids tree);
  d_tree_nodup : NoDup (ids tree);
  d_kinds : Forall (fun n => imported n = true) tree;
  d_nodes_incl : incl dn tree;
  d_nodes_nodup : NoDup (ids dn);
  d_nodes_sorted : forallb id_last tree = true -> StronglySorted lt (ids dn);
  d_inputs_incl : incl di tree;
  d_inputs_var : Forall (fun n => is_Var n = true) di;
  d_inputs_sorted : StronglySorted lt (ids di)
}.

(** The state [st'] extends [st] by the construction of the trees [ns]. *)
Definition Built (st : State) (ns : list Node) (st' : State) : Prop :=
  exists dn di dt,
    nodes st' = nodes st ++ dn /\
    inputs st' = inputs st ++ di /\
    tokens st' = tokens st ++ dt /\
    Delta (nodeId st) (nodeId st') (flat_map all_nodes ns) dn di.

Definition builds (m : M Node) : Prop :=
  forall st n st', m st = Ok (n, st') -> Built st [n] st'.

Definition builds_list (m : M (list Node)) : Prop :=
  forall st ns st', m st = Ok (ns, st') -> Built st ns st'.

(** *** Error recovery *)

(** Every [case] label of the [switch] of [createFromAST]. *)
Definition recognized_kinds : list string :=
  ["evaluation"; "definition"; "simple"; "select_id"; "select_expr"]
  ++ unary_operators ++ binary_operators
  ++ ["pipe"; "int"; "float"; "number"; "boolean"; "string"; "array";
      "object"; "var"; "group"; "_call"; "call"; "named-argument"].

(** [ast.type] matches no [case] label. *)
Definition unrecognized (ast : CST) : Prop :=
  forall t, cst_type ast = Some t -> ~ In t recognized_kinds.

(** The node the [default:] arm creates for [ast] in state [st]. *)
Definition recovered (ast : CST) (st : State) : Node :=
  ErrorNode (nodeId st) (fst (_getStartStop ast)) (snd (_getStartStop ast))
    match exception ast with
    | Some e => MsgException e
    | None => MsgString "Parser error."
    end.

(** [st] once [state.nodeId++] has been evaluated. *)
Definition counted (st : State) : State :=
  mkState (S (nodeId st)) (nodes st) (inputs st) (tokens st).

(** [st] once [node] has been pushed to [state.nodes]. *)
Definition pushed_to (node : Node) (st : State) : State :=
  mkState (nodeId st) (nodes st ++ [node]) (inputs st) (tokens st).

(** [st] once [node] has taken the next id and has been pushed to
    [state.nodes]. *)
Definition created (node : Node) (st : State) : State :=
  pushed_to node (counted st).

(** The value of [last] when the loop of [argSequence] has consumed
    [args], starting from [last]. *)
Definition final_last (args : list CST) (last : Last) : Last :=
  fold_left (fun _ n => if is_comma n then LFalse else LNode n) args last.

(** *** What the side tables hold after a build *)

Definition is_EmptyArgument (n : Node) : bool :=
  match n with EmptyArgument _ _ _ => true | _ => false end.

(** The nodes of a tree in the order [createFromAST] pushes them to
    [state.nodes]: the children first, in the order they are built, then
    the node itself; an [EmptyArgument] is created by [argSequence], which
    pushes nothing. *)
Fixpoint postorder (n : Node) : list Node :=
  match n with
  | EmptyArgument _ _ _ => []
  | DefinitionNode _ _ _ _ e => postorder e ++ [n]
  | ArrayNode _ _ _ vs => flat_map postorder vs ++ [n]
  | ObjectNode _ _ _ en => flat_map (fun e => postorder (snd e)) en ++ [n]
  | FunctionCall _ _ _ _ a na =>
    (flat_map postorder a ++ flat_map postorder na) ++ [n]
  | NamedArgument _ _ _ _ v => postorder v ++ [n]
  | PipeOp _ _ _ l r => (postorder l ++ postorder r) ++ [n]
  | _ => [n]
  end.

(** No [EmptyArgument] stands anywhere in the tree but in the argument
    lists of a call. *)
Fixpoint no_stray_empty (n : Node) : bool :=
  match n with
  | DefinitionNode _ _ _ _ e => negb (is_EmptyArgument e) && no_stray_empty e
  | ArrayNode _ _ _ vs =>
    forallb (fun v => negb (is_EmptyArgument v) && no_stray_empty v) vs
  | ObjectNode _ _ _ en =>
    forallb (fun e => negb (is_EmptyArgument (snd e)) && no_stray_empty (snd e))
            en
  | FunctionCall _ _ _ _ a na =>
    forallb no_stray_empty a && forallb no_stray_empty na
  | NamedArgument _ _ _ _ v => negb (is_EmptyArgument v) && no_stray_empty v
  | PipeOp _ _ _ l r =>
    (negb (is_EmptyArgument l) && no_stray_empty l)
    && (negb (is_EmptyArgument r) && no_stray_empty r)
  | _ => true
  end.

(** [node.start] and [node.end]. *)
Definition node_span (n : Node) : JSVal * JSVal :=
  match n with
  | DefinitionNode _ s e _ _ | NumberNode _ s e _ | StringNode _ s e _
  | ArrayNode _ s e _ | ObjectNode _ s e _ | BooleanNode _ s e _
  | Var _ s e _ | FunctionCall _ s e _ _ _ | NamedArgument _ s e _ _
  | PipeOp _ s e _ _ | ErrorNode _ s e _ | EmptyArgument _ s e
  | CellRef _ s e _ _ | RangeRef _ s e _ _ _ _ => (s, e)
  end.

Definition tok_span (t : TokenT) : JSVal * JSVal := (tok_start t, tok_end t).

(** The first argument of every [new Token(...)] in the builder. *)
Definition token_kinds : list string :=
  ["output-name"; "number-literal"; "boolean-literal"; "string-literal";
   "key"; "input-variable-name"; "function-name"].

Definition is_input_token (t : TokenT) : bool :=
  tok_type t =? "input-variable-name".

(** A token of one of the builder's kinds whose offsets are numbers. *)
Definition valid_token (t : TokenT) : Prop :=
  In (tok_type t) token_kinds /\
  isNumber (tok_start t) = true /\ isNumber (tok_end t) = true.

(** The nodes of a tree in the order in which their constructor calls
    evaluate [state.nodeId++]: a [Definition], a [NamedArgument] and a
    [PipeOp] before the nodes below them, every other node after its
    children (for a call the positional arguments, then the named ones). *)
Fixpoint creation_order (n : Node) : list Node :=
  match n with
  | DefinitionNode _ _ _ _ e => n :: creation_order e
  | NamedArgument _ _ _ _ v => n :: creation_order v
  | PipeOp _ _ _ l r => n :: (creation_order l ++ creation_order r)
  | ArrayNode _ _ _ vs => flat_map creation_order vs ++ [n]
  | ObjectNode _ _ _ en =>
    flat_map (fun e => creation_order (snd e)) en ++ [n]
  | FunctionCall _ _ _ _ a na =>
    (flat_map creation_order a ++ flat_map creation_order na) ++ [n]
  | _ => [n]
  end.

(** What the construction of the trees [ns] adds to the state: one counter
    step per node object, the pushed nodes in [postorder], the [Var] nodes
    among them as inputs, and tokens [dt]. *)
Record Trace (st : State) (ns : list Node) (st' : State) : Prop := mkTrace {
  t_counter : nodeId st' = nodeId st + List.length (flat_map all_nodes ns);
  t_nodes : nodes st' = nodes st ++ flat_map postorder ns;
  t_inputs :
    inputs st' = inputs st ++ filter is_Var (flat_map postorder ns);
  t_tokens :
    exists dt,
      tokens st' = tokens st ++ dt /\
      Forall valid_token dt /\
      map tok_span (filter is_input_token dt) =
      map node_span (filter is_Var (flat_map postorder ns));
  t_shape : forallb no_stray_empty ns = true;
  t_ids :
    ids (flat_map creation_order ns) =
    seq (nodeId st) (List.length (flat_map all_nodes ns))
}.

Definition traces (m : M Node) : Prop :=
  forall st n st', m st = Ok (n, st') ->
    Trace st [n] st' /\ is_EmptyArgument n = false.

(** For the lists of [exprSequence] and of the [object] loop, whose
    elements all come from [createFromAST]. *)
Definition traces_solid (ns : list Node) (st st' : State) : Prop :=
  Trace st ns st' /\ Forall (fun n => is_EmptyArgument n = false) ns.

(** *** Shapes of parser trees and of node trees *)

(** [outer] reaches [inner] through nodes of the kinds [evaluation] and
    [simple], which hand over to their first child, and [group], which
    hands over to its second child (the one between the parentheses). *)
Inductive wraps : CST -> CST -> Prop :=
| wraps_here ast : wraps ast ast
| wraps_first outer c rest inner :
    cst_type outer = Some "evaluation" \/ cst_type outer = Some "simple" ->
    children outer = c :: rest ->
    wraps c inner -> wraps outer inner
| wraps_group outer c0 c rest inner :
    cst_type outer = Some "group" ->
    children outer = c0 :: c :: rest ->
    wraps c inner -> wraps outer inner.

(** A raw argument sequence [a1 , a2 , ... , an]: arguments and commas
    alternate, with an argument at both ends. *)
Inductive alternating : list CST -> Prop :=
| alternating_one a : is_comma a = false -> alternating [a]
| alternating_more a c rest :
    is_comma a = false -> is_comma c = true -> alternating rest ->
    alternating (a :: c :: rest).

Definition is_argument (n : CST) : bool := negb (is_comma n).

(** No argument directly follows another argument; [after_arg] tells
    whether an argument stands just before the sequence. *)
Fixpoint separated (after_arg : bool) (args : list CST) : bool :=
  match args with
  | [] => true
  | n :: rest =>
    if is_comma n then separated false rest
    else negb after_arg && separated true rest
  end.

(** The texts of the keys of the [object] loop that have a value at the
    same index. *)
Fixpoint kept_keys {A} (keys : list (option Symbol)) (vals : list (option A))
    : list string :=
  match keys with
  | [] => []
  | key :: keys' =>
    match key, hd None vals with
    | Some k, Some _ => sym_text k :: kept_keys keys' (tl vals)
    | _, _ => kept_keys keys' (tl vals)
    end
  end.

(** A node all of whose children the walker enumerates: no pipe operator,
    no named argument, no call that has named arguments. *)
Definition enumerates_all (n : Node) : bool :=
  match n with
  | PipeOp _ _ _ _ _ | NamedArgument _ _ _ _ _ => false
  | FunctionCall _ _ _ _ _ (_ :: _) => false
  | _ => true
  end.

(** The subtrees a node keeps from the walker: the named arguments of a
    call, the value of a named argument, the operands of a pipe. *)
Definition below (n : Node) : list Node :=
  match n with
  | FunctionCall _ _ _ _ _ na => flat_map all_nodes na
  | NamedArgument _ _ _ _ v => all_nodes v
  | PipeOp _ _ _ l r => all_nodes l ++ all_nodes r
  | _ => []
  end.

(** *** Parser trees on which the builder returns *)

(** [m] returns in every state. *)
Definition returns {A} (m : M A) : Prop :=
  forall st, exists a st', m st = Ok (a, st').


(** A symbol that is there and has numeric offsets, as [new Token] wants
    it. *)
Definition numeric (o : option Symbol) : Prop :=
  exists sy, o = Some sy /\
    isNumber (sym_start sy) = true /\ isNumber (sym_stop sy) = true.

Definition has_child (ast : CST) (i : nat) : Prop :=
  exists c, nth_error (children ast) i = Some c.

Definition is_child (ast : CST) (i : nat) (c : CST) : Prop :=
  nth_error (children ast) i = Some c.

(** [ctx] is the raw positional or named argument sequence of the call
    [a]. *)
Definition sequence_of (a ctx : CST) : Prop :=
  exists argsCtx,
    args a = Some argsCtx /\
    (args argsCtx = Some ctx \/ namedArgs argsCtx = Some ctx).

(** What the body of [case 'call':] reads of the node [a] itself. *)
Definition call_ok (a : CST) : Prop :=
  (forall nm, name a = Some nm -> numeric (Some nm)) /\
  (forall ctx, sequence_of a ctx -> children ctx <> []).

(** [c] is an element of an argument sequence of [a] other than a comma. *)
Definition argument_of (a c : CST) : Prop :=
  exists ctx, sequence_of a ctx /\ In c (children ctx) /\ is_comma c = false.

(** The nodes the arm taken for [ast] hands to [createFromAST]. *)
Definition built_from (ast c : CST) : Prop :=
  match case_of (cst_type ast) with
  | CEvaluation | CSimple | CSelectId => is_child ast 0 c
  | CGroup | CUnary _ => is_child ast 1 c
  | CDefinition | CNamedArgument => is_child ast 2 c
  | CSelectExpr | CBinary _ | CPipe => is_child ast 0 c \/ is_child ast 2 c
  | CArray =>
    exists ctx seq its,
      is_child ast 0 ctx /\ is_child ctx 1 seq /\ items seq = Some its /\
      In c its
  | CObject =>
    exists ctx ks vs,
      is_child ast 0 ctx /\ keys ctx = Some ks /\ vals ctx = Some vs /\
      In (Some c) (firstn (List.length ks) vs)
  | CCall => argument_of ast c
  | C_Call => exists ast', is_child ast 0 ast' /\ argument_of ast' c
  | CNumber | CBoolean | CString | CVar | CDefault => False
  end.

(** What the arm taken for [ast] reads of [ast] itself and of the nodes
    it does not hand on. *)
Definition locally_ok (ast : CST) : Prop :=
  match case_of (cst_type ast) with
  | CEvaluation | CSimple => has_child ast 0
  | CGroup | CUnary _ => has_child ast 1
  | CDefinition | CNamedArgument =>
    (exists lhs, is_child ast 0 lhs /\ numeric (symbol lhs)) /\ has_child ast 2
  | CSelectId | CSelectExpr | CBinary _ | CPipe =>
    has_child ast 0 /\ has_child ast 2
  | CNumber =>
    List.length (children ast) <> 1 \/
    exists c token,
      is_child ast 0 c /\ is_child c 0 token /\ numeric (symbol token)
  | CBoolean | CString =>
    exists token, is_child ast 0 token /\ numeric (symbol token)
  | CArray => has_child ast 0
  | CObject =>
    exists ctx ks,
      is_child ast 0 ctx /\ keys ctx = Some ks /\ Forall numeric ks /\
      (vals ctx = None -> ks = [])
  | CVar =>
    exists s e,
      cst_start ast = Some s /\ cst_stop ast = Some e /\
      isNumber (sym_start s) = true /\ isNumber (sym_stop e) = true
  | CCall => call_ok ast
  | C_Call => exists ast', is_child ast 0 ast' /\ call_ok ast'
  | CDefault => True
  end.

(** Every node the builder comes to is [locally_ok]. *)
Inductive wellformed : CST -> Prop :=
| wellformed_node ast :
    locally_ok ast ->
    (forall c, built_from ast c -> wellformed c) ->
    wellformed ast.

(** The two places where the builder measures or indexes a [children]
    array without reading an element of it first: [ast.children.length] of
    a number node and [ctx.children[1]] of the context of an array.  There
    the program throws on a node that has no [children] array, which is
    here a node whose [children] are empty; so these two arrays are asked
    to hold an element. *)
Definition arrays_given (ast : CST) : Prop :=
  match case_of (cst_type ast) with
  | CNumber => children ast <> []
  | CArray => forall ctx, is_child ast 0 ctx -> children ctx <> []
  | _ => True
  end.

(** Every node the builder comes to has the arrays it measures. *)
Inductive measured : CST -> Prop :=
| measured_node ast :
    arrays_given ast ->
    (forall c, built_from ast c -> measured c) ->
    measured ast.

(** *** Type tags *)

Fixpoint comma_free (s : string) : bool :=
  match s with
  | EmptyString => true
  | String c s' => negb (Ascii.eqb c ",") && comma_free s'
  end.

(** A string that can stand for a node type in a joined list: not empty,
    no comma. *)
Definition tag_like (s : string) : bool := negb (s =? "") && comma_free s.

(** Nothing, or a comma and more. *)
Definition continues (x : string) : Prop :=
  x = EmptyString \/ exists x', x = String "," x'.

(** [l] stands in [m] as a run of neighbouring elements. *)
Definition segment {A} (l m : list A) : Prop :=
  exists pre post, m = pre ++ l ++ post.

(** * Proofs *)

(** ** Identifier ranges *)

Section Ranges.

Lemma in_range_app lo hi l1 l2 :
  in_range lo hi (l1 ++ l2) <-> in_range lo hi l1 /\ in_range lo hi l2.
Proof. unfold in_range. apply Forall_app. Qed.

Lemma in_range_weaken lo hi lo' hi' l :
  in_range lo hi l -> lo' <= lo -> hi <= hi' -> in_range lo' hi' l.
Proof.
  unfold in_range. intros H Hlo Hhi.
  eapply Forall_impl; [|exact H]. simpl. intros; lia.
Qed.

Lemma in_range_In lo hi l i : in_range lo hi l -> In i l -> lo <= i < hi.
Proof. unfold in_range. rewrite Forall_forall. auto. Qed.

Lemma in_range_incl lo hi (t l : list Node) :
  incl l t -> in_range lo hi (ids t) -> in_range lo hi (ids l).
Proof.
  unfold in_range, ids. rewrite !Forall_forall. intros Hi Ht i Hin.
  apply in_map_iff in Hin. destruct Hin as (n & <- & Hn).
  apply Ht. apply in_map. auto.
Qed.

Lemma NoDup_app_ranges lo m hi l1 l2 :
  NoDup l1 -> NoDup l2 -> in_range lo m l1 -> in_range m hi l2 ->
  NoDup (l1 ++ l2).
Proof.
  intros H1 H2 R1 R2. induction H1 as [|x l Hx H1 IH]; simpl; auto.
  inversion R1; subst. constructor; auto.
  rewrite in_app_iff. intros [Hin|Hin]; [auto|].
  eapply in_range_In in Hin; [|exact R2]. lia.
Qed.

Lemma Sorted_app_ranges lo m hi l1 l2 :
  StronglySorted lt l1 -> StronglySorted lt l2 ->
  in_range lo m l1 -> in_range m hi l2 ->
  StronglySorted lt (l1 ++ l2).
Proof.
  intros H1 H2 R1 R2. induction H1 as [|x l H1 IH Hx]; simpl; auto.
  inversion R1; subst. constructor; auto.
  apply Forall_app. split; auto.
  eapply Forall_impl; [|exact R2]. simpl. intros; lia.
Qed.

Lemma Sorted_snoc_bound (l : list nat) k :
  StronglySorted lt l -> Forall (fun i => i < k) l ->
  StronglySorted lt (l ++ [k]).
Proof.
  intros H1 B. induction H1 as [|x l H1 IH Hx]; simpl.
  - repeat constructor.
  - inversion B; subst. constructor; auto.
    apply Forall_app. split; auto.
Qed.

Lemma NoDup_snoc_fresh (l : list nat) k :
  NoDup l -> ~ In k l -> NoDup (l ++ [k]).
Proof.
  intros H1 Hk. induction H1 as [|x l Hx H1 IH]; simpl.
  - repeat constructor. auto.
  - constructor.
    + rewrite in_app_iff. simpl. intros [H|[H|[]]]; [auto|].
      subst. apply Hk. left. reflexivity.
    + apply IH. intros H. apply Hk. right. exact H.
Qed.

Lemma flat_map_snd {K A B} (f : A -> list B) (l : list (K * A)) :
  flat_map f (map snd l) = flat_map (fun e => f (snd e)) l.
Proof. induction l as [|x l IH]; simpl; [|rewrite IH]; reflexivity. Qed.

Lemma ids_app l1 l2 : ids (l1 ++ l2) = ids l1 ++ ids l2.
Proof. apply map_app. Qed.

Lemma in_ids (n : Node) l : In n l -> In (node_id n) (ids l).
Proof. apply in_map. Qed.

End Ranges.

(** ** How [Delta] composes *)

Section DeltaLemmas.

Lemma Delta_nil lo : Delta lo lo [] [] [].
Proof.
  constructor; simpl; auto using incl_nil_l, NoDup_nil; try constructor.
  lia.
Qed.

Lemma Delta_app lo m hi t1 dn1 di1 t2 dn2 di2 :
  Delta lo m t1 dn1 di1 -> Delta m hi t2 dn2 di2 ->
  Delta lo hi (t1 ++ t2) (dn1 ++ dn2) (di1 ++ di2).
Proof.
  intros [] [].
  assert (in_range lo m (ids dn1)) by eauto using in_range_incl.
  assert (in_range m hi (ids dn2)) by eauto using in_range_incl.
  assert (in_range lo m (ids di1)) by eauto using in_range_incl.
  assert (in_range m hi (ids di2)) by eauto using in_range_incl.
  constructor.
  - lia.
  - rewrite length_app. lia.
  - rewrite ids_app. apply in_range_app. split;
      eapply in_range_weaken; eauto.
  - rewrite ids_app. eauto using NoDup_app_ranges.
  - apply Forall_app. auto.
  - apply incl_app; [apply incl_appl|apply incl_appr]; auto.
  - rewrite ids_app. eauto using NoDup_app_ranges.
  - rewrite forallb_app, andb_true_iff. intros [? ?].
    rewrite ids_app. eauto using Sorted_app_ranges.
  - apply incl_app; [apply incl_appl|apply incl_appr]; auto.
  - apply Forall_app. auto.
  - rewrite ids_app. eauto using Sorted_app_ranges.
Qed.

(** A node that takes its id once its children [t] are built, and is
    then pushed. *)
Lemma Delta_parent_last lo m t dn di node :
  Delta lo m t dn di ->
  node_id node = m -> id_last node = true -> imported node = true ->
  Delta lo (S m) (node :: t) (dn ++ [node]) di.
Proof.
  intros [] Hid Hlast Himp.
  assert (Hr : in_range lo m (ids dn)) by eauto using in_range_incl.
  constructor.
  - lia.
  - cbn [List.length]. lia.
  - simpl. constructor; [lia|]. eapply in_range_weaken; eauto.
  - simpl. constructor; auto. intros Hin.
    eapply in_range_In in Hin; [|exact d_tree_range0]. lia.
  - constructor; auto.
  - apply incl_app; [apply incl_tl; auto|].
    intros x [<-|[]]. left. reflexivity.
  - rewrite ids_app. simpl. apply NoDup_snoc_fresh; auto.
    intros Hin. eapply in_range_In in Hin; [|exact Hr]. lia.
  - simpl. rewrite andb_true_iff. intros [_ Ht].
    rewrite ids_app. simpl. apply Sorted_snoc_bound; auto.
    eapply Forall_impl; [|exact Hr]. simpl. intros; lia.
  - apply incl_tl. auto.
  - auto.
  - auto.
Qed.

(** A node that takes its id [k] before its children [t] are built, and
    is pushed after them. *)
Lemma Delta_parent_first k hi t dn di node :
  Delta (S k) hi t dn di ->
  node_id node = k -> id_first node = true -> imported node = true ->
  Delta k hi (node :: t) (dn ++ [node]) di.
Proof.
  intros [] Hid Hfirst Himp.
  assert (Hr : in_range (S k) hi (ids dn)) by eauto using in_range_incl.
  constructor.
  - lia.
  - cbn [List.length]. lia.
  - simpl. constructor; [lia|]. eapply in_range_weaken; eauto.
  - simpl. constructor; auto. intros Hin.
    eapply in_range_In in Hin; [|exact d_tree_range0]. lia.
  - constructor; auto.
  - apply incl_app; [apply incl_tl; auto|].
    intros x [<-|[]]. left. reflexivity.
  - rewrite ids_app. simpl. apply NoDup_snoc_fresh; auto.
    intros Hin. eapply in_range_In in Hin; [|exact Hr]. lia.
  - simpl. unfold id_last at 1. rewrite Hfirst. discriminate.
  - apply incl_tl. auto.
  - auto.
  - auto.
Qed.

(** A node that is created but never pushed (an [EmptyArgument]). *)
Lemma Delta_unpushed k node :
  node_id node = k -> imported node = true ->
  Delta k (S k) [node] [] [].
Proof.
  intros Hid Himp. constructor.
  - lia.
  - cbn [List.length]. lia.
  - constructor; [simpl; lia|constructor].
  - constructor; [intros []|constructor].
  - constructor; [exact Himp|constructor].
  - apply incl_nil_l.
  - constructor.
  - intros _. constructor.
  - apply incl_nil_l.
  - constructor.
  - constructor.
Qed.

(** A [Var]: created, pushed to the inputs, then to the nodes. *)
Lemma Delta_var k s e name :
  Delta k (S k) [Var k s e name] [Var k s e name] [Var k s e name].
Proof.
  constructor.
  - lia.
  - cbn [List.length]. lia.
  - constructor; [simpl; lia|constructor].
  - constructor; [intros []|constructor].
  - constructor; [reflexivity|constructor].
  - apply incl_refl.
  - constructor; [intros []|constructor].
  - intros _. repeat constructor.
  - apply incl_refl.
  - repeat constructor.
  - repeat constructor.
Qed.

End DeltaLemmas.

(** ** Running the monad *)

Section Monad.

Lemma bind_Ok {A B} (m : M A) (k : A -> M B) st b st' :
  bind m k st = Ok (b, st') ->
  exists a st1, m st = Ok (a, st1) /\ k a st1 = Ok (b, st').
Proof.
  unfold bind. destruct (m st) as [[a st1]|e]; [|discriminate].
  intros H. exists a, st1. auto.
Qed.

Lemma ret_Ok {A} (a b : A) st st' :
  ret a st = Ok (b, st') -> b = a /\ st' = st.
Proof. unfold ret. intros H. inversion H. auto. Qed.

Lemma defined_Ok {A} what (o : option A) a st st' :
  defined what o st = Ok (a, st') -> o = Some a /\ st' = st.
Proof.
  destruct o; simpl; [|discriminate].
  intros H. apply ret_Ok in H. destruct H. subst. auto.
Qed.

Lemma next_id_Ok st i st' :
  next_id st = Ok (i, st') ->
  i = nodeId st /\
  st' = mkState (S (nodeId st)) (nodes st) (inputs st) (tokens st).
Proof. unfold next_id. intros H. inversion H. auto. Qed.

Lemma push_node_Ok n st u st' :
  push_node n st = Ok (u, st') ->
  st' = mkState (nodeId st) (nodes st ++ [n]) (inputs st) (tokens st).
Proof. unfold push_node. intros H. inversion H. auto. Qed.

Lemma push_input_Ok n st u st' :
  push_input n st = Ok (u, st') ->
  st' = mkState (nodeId st) (nodes st) (inputs st ++ [n]) (tokens st).
Proof. unfold push_input. intros H. inversion H. auto. Qed.

Lemma push_token_Ok ty s st u st' :
  push_token ty s st = Ok (u, st') ->
  exists t, Token (VStr ty) s = Ok t /\
    st' = mkState (nodeId st) (nodes st) (inputs st) (tokens st ++ [t]).
Proof.
  unfold push_token. destruct (Token (VStr ty) s) as [t|e]; [|discriminate].
  intros H. inversion H. eauto.
Qed.

End Monad.

(** Splits a successful run of a sequence of binds into its steps. *)
Ltac run_steps :=
  repeat match goal with
  | H : bind _ _ _ = Ok _ |- _ =>
    apply bind_Ok in H; destruct H as (? & ? & ? & H)
  | H : ret _ _ = Ok _ |- _ =>
    apply ret_Ok in H; destruct H; subst
  | H : defined _ _ _ = Ok _ |- _ =>
    apply defined_Ok in H; destruct H; subst
  | H : throw _ _ = Ok _ |- _ => discriminate H
  | H : Ok _ = Ok _ |- _ => inversion H; subst; clear H
  | H : (_, _) = (_, _) |- _ => inversion H; subst; clear H
  end.

(** ** How [Built] composes *)

Section BuiltLemmas.

Lemma Built_refl st : Built st [] st.
Proof.
  exists [], [], []. rewrite !app_nil_r. simpl.
  auto using Delta_nil.
Qed.

Lemma Built_trans st ns1 st1 ns2 st2 :
  Built st ns1 st1 -> Built st1 ns2 st2 -> Built st (ns1 ++ ns2) st2.
Proof.
  intros (dn1 & di1 & dt1 & Hn1 & Hi1 & Ht1 & D1)
         (dn2 & di2 & dt2 & Hn2 & Hi2 & Ht2 & D2).
  exists (dn1 ++ dn2), (di1 ++ di2), (dt1 ++ dt2).
  rewrite Hn2, Hi2, Ht2, Hn1, Hi1, Ht1, !app_assoc, flat_map_app.
  eauto using Delta_app.
Qed.

Lemma Built_snoc st ns st1 n st2 :
  Built st ns st1 -> Built st1 [n] st2 -> Built st (ns ++ [n]) st2.
Proof. apply Built_trans. Qed.

Lemma Built_cons st n st1 ns st2 :
  Built st [n] st1 -> Built st1 ns st2 -> Built st (n :: ns) st2.
Proof. apply (@Built_trans st [n] st1 ns st2). Qed.

Lemma Built_token ty s st u st' :
  push_token ty s st = Ok (u, st') -> Built st [] st'.
Proof.
  intros H. apply push_token_Ok in H. destruct H as (t & _ & ->).
  exists [], [], [t]. simpl. rewrite !app_nil_r.
  auto using Delta_nil.
Qed.

Lemma Built_token_before ty s st u st1 ns st2 :
  push_token ty s st = Ok (u, st1) -> Built st1 ns st2 -> Built st ns st2.
Proof.
  intros H B. apply Built_token in H.
  apply (Built_trans H B).
Qed.

Lemma Built_token_after ty s st ns st1 u st2 :
  Built st ns st1 -> push_token ty s st1 = Ok (u, st2) -> Built st ns st2.
Proof.
  intros B H. apply Built_token in H.
  rewrite <- (app_nil_r ns). apply (Built_trans B H).
Qed.

(** [node = new K(state.nodeId++, ..., children)], with the children
    built before; then [state.nodes.push(node)]. *)
Lemma Built_parent_last st ns st1 i st2 node u st3 :
  Built st ns st1 ->
  next_id st1 = Ok (i, st2) ->
  push_node node st2 = Ok (u, st3) ->
  node_id node = i ->
  all_nodes node = node :: flat_map all_nodes ns ->
  id_last node = true -> imported node = true ->
  Built st [node] st3.
Proof.
  intros (dn & di & dt & Hn & Hi & Ht & D) Hid Hpush Hnode Hall Hl Him.
  apply next_id_Ok in Hid. destruct Hid as [-> ->].
  apply push_node_Ok in Hpush. subst st3. simpl.
  exists (dn ++ [node]), di, dt. simpl.
  rewrite Hn, Hi, Ht, app_assoc, app_nil_r, Hall.
  auto using Delta_parent_last.
Qed.

(** [node = new K(state.nodeId++, ..., createFromAST(...))]: the id is
    taken first, the children are built next, and the node is pushed. *)
Lemma Built_parent_first st i st1 ns st2 node u st3 :
  next_id st = Ok (i, st1) ->
  Built st1 ns st2 ->
  push_node node st2 = Ok (u, st3) ->
  node_id node = i ->
  all_nodes node = node :: flat_map all_nodes ns ->
  id_first node = true -> imported node = true ->
  Built st [node] st3.
Proof.
  intros Hid (dn & di & dt & Hn & Hi & Ht & D) Hpush Hnode Hall Hf Him.
  apply next_id_Ok in Hid. destruct Hid as [-> ->].
  apply push_node_Ok in Hpush. subst st3. simpl in *.
  exists (dn ++ [node]), di, dt. simpl.
  rewrite Hn, Hi, Ht, app_assoc, app_nil_r, Hall.
  auto using Delta_parent_first.
Qed.

Lemma Built_unpushed st i st1 node :
  next_id st = Ok (i, st1) ->
  node_id node = i -> all_nodes node = [node] -> imported node = true ->
  Built st [node] st1.
Proof.
  intros Hid Hnode Hall Him.
  apply next_id_Ok in Hid. destruct Hid as [-> ->].
  exists [], [], []. simpl. rewrite !app_nil_r, Hall.
  auto using Delta_unpushed.
Qed.

Lemma Built_var st i st1 ty s u1 st2 u2 st3 u3 st4 b e name :
  next_id st = Ok (i, st1) ->
  push_token ty s st1 = Ok (u1, st2) ->
  push_input (Var i b e name) st2 = Ok (u2, st3) ->
  push_node (Var i b e name) st3 = Ok (u3, st4) ->
  Built st [Var i b e name] st4.
Proof.
  intros Hid Ht Hin Hn.
  apply next_id_Ok in Hid. destruct Hid as [-> ->].
  apply push_token_Ok in Ht. destruct Ht as (t & _ & ->).
  apply push_input_Ok in Hin. subst st3.
  apply push_node_Ok in Hn. subst st4. simpl.
  eexists [_], [_], [t]. simpl.
  auto using Delta_var.
Qed.

End BuiltLemmas.

(** ** The loops of the builder *)

Section Loops.

Lemma builds_throw e : builds (throw e).
Proof. intros st n st' H. discriminate H. Qed.

Lemma builds_nth calls i d :
  Forall builds calls -> builds d -> builds (nth i calls d).
Proof.
  intros H Hd. revert i.
  induction H as [|c l Hc H IH]; intros [|i]; simpl; auto.
Qed.

Lemma builds_sequence calls :
  Forall builds calls -> builds_list (sequence calls).
Proof.
  induction 1 as [|c l Hc H IH]; intros st ns st' Hrun; simpl in Hrun.
  - run_steps. apply Built_refl.
  - run_steps. eapply Built_cons; [apply Hc|apply IH]; eauto.
Qed.

Lemma builds_exprSequence items :
  (forall calls, items = Some calls -> Forall builds calls) ->
  builds_list (exprSequence items).
Proof.
  intros H st ns st' Hrun. destruct items as [calls|]; simpl in Hrun.
  - eapply builds_sequence; [|exact Hrun]. auto.
  - run_steps. apply Built_refl.
Qed.

Lemma builds_emptyArgument n : builds (emptyArgument n).
Proof.
  intros st e st' Hrun. unfold emptyArgument in Hrun.
  destruct (_getStartStop n) as [b e']. run_steps.
  eapply Built_unpushed; eauto.
Qed.

Variable rec : CST -> M Node.

Lemma argLoop_builds l :
  (forall n, In n l -> builds (rec n)) ->
  forall last acc st r last' st',
    argLoop rec l last acc st = Ok ((r, last'), st') ->
    exists new, r = acc ++ new /\ Built st new st'.
Proof.
  induction l as [|n l IH]; intros Hrec last acc st r last' st' Hrun;
    simpl in Hrun.
  - run_steps. exists []. rewrite app_nil_r. auto using Built_refl.
  - assert (Hl : forall m, In m l -> builds (rec m))
      by (intros; apply Hrec; right; assumption).
    destruct (getText n =? ",").
    + destruct (not_last last).
      * apply bind_Ok in Hrun. destruct Hrun as (e & st1 & He & Hrun).
        apply (IH Hl) in Hrun. destruct Hrun as (new & -> & B).
        exists (e :: new). rewrite <- app_assoc. split; [reflexivity|].
        eapply Built_cons; [eapply builds_emptyArgument|]; eauto.
      * eauto.
    + apply bind_Ok in Hrun. destruct Hrun as (a & st1 & Ha & Hrun).
      apply (IH Hl) in Hrun. destruct Hrun as (new & -> & B).
      exists (a :: new). rewrite <- app_assoc. split; [reflexivity|].
      eapply Built_cons; [eapply Hrec; [left; reflexivity|]|]; eauto.
Qed.

Lemma builds_argSequence args :
  (forall ctx n, args = Some ctx -> In n (children ctx) -> builds (rec n)) ->
  builds_list (argSequence rec args).
Proof.
  intros Hrec st ns st' Hrun. destruct args as [ctx|]; simpl in Hrun.
  - apply bind_Ok in Hrun. destruct Hrun as ([r last] & st1 & Hloop & Hrun).
    apply argLoop_builds in Hloop; [|eauto].
    destruct Hloop as (new & -> & B). simpl in *.
    destruct (not_last last).
    + apply bind_Ok in Hrun. destruct Hrun as (l & st2 & Hl & Hrun).
      apply defined_Ok in Hl. destruct Hl as [_ ->].
      destruct (getText l =? ",").
      * run_steps. eapply Built_snoc; [|eapply builds_emptyArgument]; eauto.
      * run_steps. assumption.
    + run_steps. assumption.
  - run_steps. apply Built_refl.
Qed.

Lemma objectLoop_builds keys :
  forall vals acc st r st',
    Forall (fun o => forall b, o = Some b -> builds b) vals ->
    objectLoop keys vals acc st = Ok (r, st') ->
    exists new, r = acc ++ new /\ Built st (map snd new) st'.
Proof.
  induction keys as [|key keys IH]; intros vals acc st r st' Hv Hrun;
    simpl in Hrun.
  - run_steps. exists []. rewrite app_nil_r. auto using Built_refl.
  - apply bind_Ok in Hrun. destruct Hrun as (u & st1 & Htok & Hrun).
    assert (Htl : Forall (fun o => forall b, o = Some b -> builds b) (tl vals))
      by (destruct Hv; simpl; auto).
    assert (Hhd : forall b, hd None vals = Some b -> builds b)
      by (destruct Hv; simpl; [discriminate|auto]).
    destruct key as [k|].
    + destruct (hd None vals) as [b|].
      * apply bind_Ok in Hrun. destruct Hrun as (val & st2 & Hval & Hrun).
        apply (IH _ _ _ _ _ Htl) in Hrun.
        destruct Hrun as (new & -> & B).
        exists ((sym_text k, val) :: new). rewrite <- app_assoc.
        split; [reflexivity|]. simpl.
        eapply Built_token_before; [eassumption|].
        eapply Built_cons; [eapply Hhd; [reflexivity|]|]; eauto.
      * apply (IH _ _ _ _ _ Htl) in Hrun. destruct Hrun as (new & -> & B).
        exists new. split; [reflexivity|].
        eapply Built_token_before; eauto.
    + apply (IH _ _ _ _ _ Htl) in Hrun. destruct Hrun as (new & -> & B).
      exists new. split; [reflexivity|].
      eapply Built_token_before; eauto.
Qed.

End Loops.

(** ** Sizes of the parts of a parser tree *)

Section Sizes.

Lemma list_sum_In {A} (f : A -> nat) x l :
  In x l -> f x <= list_sum (map f l).
Proof.
  induction l as [|y l IH]; simpl; [intros []|].
  intros [->|H]; [lia|]. apply IH in H. lia.
Qed.

Lemma size_eq ast :
  size ast =
  S (list_sum (map size (children ast))
     + opt_size size (args ast)
     + opt_size size (namedArgs ast)
     + opt_size (fun l => list_sum (map (opt_size size) l)) (vals ast)
     + opt_size (fun l => list_sum (map size l)) (items ast)).
Proof. destruct ast. reflexivity. Qed.

Lemma size_children ast c : In c (children ast) -> size c < size ast.
Proof.
  intros H. rewrite (size_eq ast).
  apply (list_sum_In size) in H. lia.
Qed.

Lemma size_args ast c : args ast = Some c -> size c < size ast.
Proof. intros H. rewrite (size_eq ast), H. simpl. lia. Qed.

Lemma size_namedArgs ast c : namedArgs ast = Some c -> size c < size ast.
Proof. intros H. rewrite (size_eq ast), H. simpl. lia. Qed.

Lemma size_vals ast l c :
  vals ast = Some l -> In (Some c) l -> size c < size ast.
Proof.
  intros H Hin. rewrite (size_eq ast), H. simpl.
  apply (list_sum_In (opt_size size)) in Hin. simpl in Hin. lia.
Qed.

Lemma size_items ast l c :
  items ast = Some l -> In c l -> size c < size ast.
Proof.
  intros H Hin. rewrite (size_eq ast), H. simpl.
  apply (list_sum_In size) in Hin. lia.
Qed.

End Sizes.

(** ** Every run of [createFromAST] is a [Built] step *)

(** Names the first step of a successful run and keeps the rest. *)
Tactic Notation "step" hyp(H) ident(x) ident(st) ident(Hx) :=
  apply bind_Ok in H; destruct H as (x & st & Hx & H).

Ltac finished H :=
  unfold finish in H; run_steps.

(** Closes [all_nodes node = node :: flat_map all_nodes children]. *)
Ltac tree_eq := simpl; rewrite ?app_nil_r; reflexivity.

Section Builder.

Lemma builds_leaf st ns st1 i st2 node n st3 :
  Built st ns st1 ->
  next_id st1 = Ok (i, st2) ->
  finish node st2 = Ok (n, st3) ->
  node_id node = i ->
  all_nodes node = node :: flat_map all_nodes ns ->
  id_last node = true -> imported node = true ->
  Built st [n] st3.
Proof.
  intros B Hid Hfin. finished Hfin. intros.
  eapply Built_parent_last; eauto.
Qed.

Lemma builds_id_first st i st1 ns st2 node n st3 :
  next_id st = Ok (i, st1) ->
  Built st1 ns st2 ->
  finish node st2 = Ok (n, st3) ->
  node_id node = i ->
  all_nodes node = node :: flat_map all_nodes ns ->
  id_first node = true -> imported node = true ->
  Built st [n] st3.
Proof.
  intros Hid B Hfin. finished Hfin. intros.
  eapply Built_parent_first; eauto.
Qed.

Lemma builds_call argSeq start end_ ast :
  (forall argsCtx, args ast = Some argsCtx ->
     builds_list (argSeq (args argsCtx)) /\
     builds_list (argSeq (namedArgs argsCtx))) ->
  builds (call argSeq start end_ ast).
Proof.
  intros Hargs st n st' Hrun. unfold call in Hrun.
  step Hrun r st1 Hr. step Hrun u st2 Htok. step Hrun i st3 Hid.
  assert (B : Built st (fst r ++ snd r) st1).
  { destruct (args ast) as [argsCtx|].
    - destruct (Hargs argsCtx eq_refl) as [Hp Hn].
      step Hr p st0 Hpos. step Hr q st0' Hnamed. run_steps. simpl.
      eapply Built_trans; [apply Hp|apply Hn]; eauto.
    - run_steps. apply Built_refl. }
  assert (B2 : Built st (fst r ++ snd r) st2).
  { destruct (name ast).
    - eapply Built_token_after; eauto.
    - run_steps. assumption. }
  eapply builds_leaf;
    [exact B2|eassumption|eassumption|reflexivity| |reflexivity|reflexivity].
  simpl. rewrite flat_map_app. reflexivity.
Qed.

(** The two shapes of a case of [createFromAST]: the children are built
    by [tac] and the node takes its id after them, or before them. *)
Ltac id_last_with tac :=
  eapply builds_leaf;
    [tac|eassumption|eassumption|reflexivity|tree_eq|reflexivity
    |reflexivity].

Ltac id_first_with tac :=
  eapply builds_id_first;
    [eassumption|tac|eassumption|reflexivity|tree_eq|reflexivity
    |reflexivity].

Lemma createFromAST_builds_upto n :
  forall ast, size ast < n -> builds (createFromAST ast).
Proof.
  induction n as [|n IHn]; intros ast Hsz; [lia|].
  assert (IH : forall c, size c < size ast -> builds (createFromAST c))
    by (intros; apply IHn; lia).
  clear IHn Hsz.
  assert (Hchild : forall i,
    builds (nth i (map createFromAST (children ast))
                (throw (TypeError "n.start")))).
  { intros i. apply builds_nth; [|apply builds_throw].
    apply Forall_map, Forall_forall. intros c Hc.
    apply IH, size_children, Hc. }
  assert (Hargs : forall a, size a <= size ast -> forall argsCtx,
    args a = Some argsCtx ->
    builds_list (argSequence createFromAST (args argsCtx)) /\
    builds_list (argSequence createFromAST (namedArgs argsCtx))).
  { intros a Ha argsCtx Hctx. apply size_args in Hctx.
    split; apply builds_argSequence; intros ctx c Hc Hin; apply IH;
      [apply size_args in Hc|apply size_namedArgs in Hc];
      apply size_children in Hin; lia. }
  assert (Hseq : forall calls,
    Forall builds calls -> builds_list (exprSequence (Some calls))).
  { intros calls Hc. apply builds_exprSequence.
    intros calls' Heq. inversion Heq. subst. exact Hc. }
  intros st nd st' Hrun.
  destruct ast as [ty tx ts sa so sy ex ch nm ar na ks vs its].
  cbn -[nth map argSequence objectLoop exprSequence case_of _getStartStop
        nth_error call finish] in Hrun.
  cbn [children] in Hchild.
  set (AST := mkCST ty tx ts sa so sy ex ch nm ar na ks vs its) in *.
  destruct (_getStartStop AST) as [b e].
  destruct (case_of ty) eqn:Hcase.
  - (* evaluation *) eapply Hchild; eauto.
  - (* definition *)
    step Hrun lhs st1 Hlhs. step Hrun u st2 Htok. step Hrun i st3 Hid.
    step Hrun expr st4 Hexpr. run_steps.
    eapply Built_token_before; [eassumption|].
    id_first_with ltac:(eapply Hchild; eassumption).
  - (* simple *) eapply Hchild; eauto.
  - (* select_id *)
    step Hrun value st1 Hvalue. step Hrun i st2 Hid.
    step Hrun member st3 Hmember. step Hrun u st4 Hpush.
    step Hrun j st5 Hj. run_steps.
    assert (B : Built st [value; StringNode i b e (getText member)] st4).
    { eapply (Built_trans (ns1 := [value]) (ns2 := [_]));
        [eapply Hchild; eauto|].
      eapply Built_parent_last; eauto using Built_refl. }
    id_last_with ltac:(exact B).
  - (* select_expr *)
    step Hrun args st1 Hargs'. step Hrun i st2 Hid.
    id_last_with ltac:(eapply Hseq; [|eassumption]; auto).
  - (* unary operators *)
    step Hrun args st1 Hargs'. step Hrun i st2 Hid.
    id_last_with ltac:(eapply Hseq; [|eassumption]; auto).
  - (* binary operators *)
    step Hrun args st1 Hargs'. step Hrun i st2 Hid.
    id_last_with ltac:(eapply Hseq; [|eassumption]; auto).
  - (* pipe *)
    step Hrun i st1 Hid. step Hrun l st2 Hl. step Hrun r st3 Hr.
    id_first_with ltac:(eapply (Built_trans (ns1 := [l]) (ns2 := [r]));
                        eapply Hchild; eassumption).
  - (* int, float, number *)
    destruct (negb _).
    + step Hrun i st1 Hid. id_last_with ltac:(apply Built_refl).
    + step Hrun c st1 Hc. step Hrun token st2 Htoken.
      step Hrun u st3 Htok. step Hrun i st4 Hid. run_steps.
      eapply Built_token_before; [eassumption|].
      id_last_with ltac:(apply Built_refl).
  - (* boolean *)
    step Hrun token st1 Htoken. step Hrun u st2 Htok.
    step Hrun i st3 Hid. run_steps.
    eapply Built_token_before; [eassumption|].
    id_last_with ltac:(apply Built_refl).
  - (* string *)
    step Hrun ctx st1 Hctx. step Hrun u st2 Htok.
    step Hrun i st3 Hid. run_steps.
    eapply Built_token_before; [eassumption|].
    id_last_with ltac:(apply Built_refl).
  - (* array *)
    destruct ch as [|ctx ch']; [discriminate Hrun|].
    step Hrun vals st1 Hvals. step Hrun i st2 Hid.
    assert (B : Built st vals st1).
    { destruct (children ctx) as [|c0 [|seq rest]] eqn:Hctx;
        try (run_steps; apply Built_refl).
      destruct (items seq) as [l|] eqn:Hitems;
        [|run_steps; apply Built_refl].
      eapply Hseq; [|eassumption].
      apply Forall_map, Forall_forall. intros c Hin. apply IH.
      eapply size_items in Hin; [|exact Hitems].
      assert (size seq < size ctx)
        by (apply size_children; rewrite Hctx; right; left; reflexivity).
      assert (size ctx < size AST)
        by (apply size_children; left; reflexivity).
      lia. }
    id_last_with ltac:(exact B).
  - (* object *)
    destruct ch as [|ctx ch']; [discriminate Hrun|].
    step Hrun keys st1 Hkeys. step Hrun entries st2 Hentries.
    step Hrun i st3 Hid. run_steps.
    assert (B : Built st (map snd entries) st2).
    { destruct (vals ctx) as [l|] eqn:Hvals.
      - apply objectLoop_builds in Hentries.
        + destruct Hentries as (new & -> & B). exact B.
        + apply Forall_map, Forall_forall. intros [v|] Hin bld Hb;
            [|discriminate]. inversion Hb. subst bld. apply IH.
          eapply size_vals in Hin; [|exact Hvals].
          assert (size ctx < size AST)
            by (apply size_children; left; reflexivity).
          lia.
      - destruct keys; run_steps. apply Built_refl. }
    eapply builds_leaf;
      [exact B|eassumption|eassumption|reflexivity| |reflexivity|reflexivity].
    simpl. rewrite flat_map_snd. reflexivity.
  - (* var *)
    step Hrun i st1 Hid. step Hrun s st2 Hs. step Hrun e' st3 He.
    step Hrun u st4 Htok. step Hrun u' st5 Hin. run_steps.
    finished Hrun. eapply Built_var; eauto.
  - (* group *) eapply Hchild; eauto.
  - (* _call *)
    destruct ch as [|ast' ch']; [discriminate Hrun|].
    eapply builds_call; [|eauto].
    apply Hargs.
    assert (size ast' < size AST)
      by (apply size_children; left; reflexivity).
    lia.
  - (* call *)
    eapply builds_call; [|eauto]. apply Hargs. lia.
  - (* named-argument *)
    step Hrun name st1 Hname. step Hrun u st2 Htok. step Hrun i st3 Hid.
    step Hrun value st4 Hvalue. run_steps.
    eapply Built_token_before; [eassumption|].
    id_first_with ltac:(eapply Hchild; eassumption).
  - (* default *)
    destruct ex; step Hrun i st1 Hid; id_last_with ltac:(apply Built_refl).
Qed.

Lemma createFromAST_builds ast : builds (createFromAST ast).
Proof. apply (createFromAST_builds_upto (n := S (size ast))). lia. Qed.

End Builder.

(** ** Node trees *)

Section Trees.

(** Induction on nodes that reaches through the lists of children. *)
Lemma Node_tree_ind (P : Node -> Prop) :
  (forall n, Forall P (match n with
                       | DefinitionNode _ _ _ _ e => [e]
                       | ArrayNode _ _ _ vs => vs
                       | ObjectNode _ _ _ en => map snd en
                       | FunctionCall _ _ _ _ a na => a ++ na
                       | NamedArgument _ _ _ _ v => [v]
                       | PipeOp _ _ _ l r => [l; r]
                       | _ => []
                       end) -> P n) ->
  forall n, P n.
Proof.
  intros step. fix IH 1. intros n. apply step.
  destruct n; try (constructor; fail).
  - repeat constructor. apply IH.
  - induction vals0 as [|v l IHl]; constructor; [apply IH|apply IHl].
  - induction entries as [|[k v] l IHl]; simpl; constructor;
      [apply IH|apply IHl].
  - apply Forall_app. split.
    + induction args0 as [|v l IHl]; constructor; [apply IH|apply IHl].
    + induction namedArgs0 as [|v l IHl]; constructor; [apply IH|apply IHl].
  - repeat constructor. apply IH.
  - repeat constructor; apply IH.
Qed.

Lemma Permutation_flat_map_split {A B} (f g h : A -> list B) l :
  Forall (fun a => Permutation (f a) (g a ++ h a)) l ->
  Permutation (flat_map f l) (flat_map g l ++ flat_map h l).
Proof.
  induction 1 as [|a l Ha H IH]; simpl; [constructor|].
  rewrite Ha, IH, <- !app_assoc. apply Permutation_app_head.
  rewrite !app_assoc. apply Permutation_app_tail.
  apply Permutation_app_comm.
Qed.

(** The nodes of a tree are those the pre-order reaches and those it
    leaves out. *)
Lemma all_nodes_split n :
  Permutation (all_nodes n) (preorder n ++ hidden n).
Proof.
  induction n as [n IH] using Node_tree_ind.
  destruct n; simpl; try (constructor; apply Permutation_refl).
  - constructor. inversion IH. assumption.
  - constructor. apply Permutation_flat_map_split. exact IH.
  - constructor.
    apply (Permutation_flat_map_split
             (fun e => all_nodes (snd e)) (fun e => preorder (snd e))
             (fun e => hidden (snd e))).
    apply Forall_map in IH. exact IH.
  - constructor. apply Forall_app in IH. destruct IH as [IHa _].
    rewrite app_assoc. apply Permutation_app_tail.
    apply Permutation_flat_map_split. exact IHa.
Qed.

Lemma preorder_eq n :
  preorder n = n :: flat_map preorder (enumerated_children n).
Proof.
  destruct n; simpl; rewrite ?app_nil_r; try reflexivity.
  rewrite flat_map_snd. reflexivity.
Qed.

(** What hangs below a visited pipe operator is left out. *)
Lemma pipe_operands_hidden n :
  forall i s e l r,
    In (PipeOp i s e l r) (preorder n) ->
    incl (all_nodes l ++ all_nodes r) (hidden n).
Proof.
  induction n as [n IH] using Node_tree_ind.
  intros i s e l r Hin.
  assert (Hlist : forall (kids : list Node) ,
    Forall (fun k => forall i s e l r, In (PipeOp i s e l r) (preorder k) ->
              incl (all_nodes l ++ all_nodes r) (hidden k)) kids ->
    In (PipeOp i s e l r) (flat_map preorder kids) ->
    incl (all_nodes l ++ all_nodes r) (flat_map hidden kids)).
  { intros kids Hk Hp. apply in_flat_map in Hp. destruct Hp as (k & Hk' & Hp).
    rewrite Forall_forall in Hk. intros x Hx.
    apply in_flat_map. exists k. split; [assumption|].
    eapply Hk; eauto. }
  destruct n; simpl in Hin; destruct Hin as [Heq|Hin];
    try discriminate Heq; try contradiction; simpl.
  - inversion IH; subst. eauto.
  - apply Hlist; assumption.
  - rewrite <- flat_map_snd in Hin.
    rewrite <- (flat_map_snd hidden). apply Hlist; assumption.
  - apply Forall_app in IH. destruct IH as [IHa _].
    apply incl_appl. apply Hlist; assumption.
  - inversion Heq; subst. apply incl_refl.
Qed.

End Trees.

(** ** The walker *)

Section Walker.

Lemma pushed_enumerated n : pushed n = Ok (map Some (enumerated_children n)).
Proof.
  destruct n; try reflexivity.
  unfold pushed. simpl. rewrite map_map. reflexivity.
Qed.

(** With a budget of one iteration per node to visit, the loop ends and
    has called [fn] on the pre-order of the stacked subtrees. *)
Lemma walk_loop_preorder fuel :
  forall stack visited,
    List.length (flat_map preorder stack) <= fuel ->
    walk_loop fuel (map Some stack) visited =
    Some (Ok (visited ++ map Some (flat_map preorder stack))).
Proof.
  induction fuel as [|fuel IH]; intros [|n stack] visited Hlen; simpl.
  - rewrite app_nil_r. reflexivity.
  - simpl in Hlen. rewrite preorder_eq in Hlen. simpl in Hlen. lia.
  - rewrite app_nil_r. reflexivity.
  - rewrite pushed_enumerated, <- map_app, IH.
    + rewrite flat_map_app, (preorder_eq n), <- app_assoc. reflexivity.
    + simpl in Hlen. rewrite (preorder_eq n) in Hlen. simpl in Hlen.
      rewrite length_app in Hlen. rewrite flat_map_app, length_app. lia.
Qed.

Lemma walk_visits fuel expr :
  List.length (preorder (root expr)) <= fuel ->
  walk fuel expr = Some (Ok (map Some (preorder (root expr)))).
Proof.
  intros Hlen. unfold walk.
  change [Some (root expr)] with (map Some [root expr]).
  rewrite walk_loop_preorder; simpl; rewrite app_nil_r;
    [reflexivity|exact Hlen].
Qed.

End Walker.

(** ** What a finished build guarantees *)

Section Builds.

Variables (ast : CST) (expr : Expr).
Hypothesis Hbuild : createNodeTree ast = Ok expr.

Lemma createNodeTree_Delta :
  Delta 0 (nodeId (state expr)) (all_nodes (root expr))
        (nodes (state expr)) (inputs (state expr)).
Proof.
  unfold createNodeTree in Hbuild.
  destruct (createFromAST ast initial_state) as [[r st]|e] eqn:Hrun;
    [|discriminate].
  inversion Hbuild; subst expr; clear Hbuild. simpl.
  apply createFromAST_builds in Hrun.
  destruct Hrun as (dn & di & dt & Hn & Hi & _ & D).
  simpl in *. rewrite app_nil_r in D. subst. exact D.
Qed.

Lemma tree_ids_distinct : NoDup (ids (all_nodes (root expr))).
Proof. apply (d_tree_nodup createNodeTree_Delta). Qed.

Lemma visible_hidden_distinct :
  NoDup (ids (preorder (root expr)) ++ ids (hidden (root expr))).
Proof.
  rewrite <- ids_app.
  eapply Permutation_NoDup; [|apply tree_ids_distinct].
  apply Permutation_map, all_nodes_split.
Qed.

End Builds.

(** ** Lists without duplicates *)

Section ListFacts.

Lemma NoDup_app_disjoint {A} (l1 l2 : list A) x :
  NoDup (l1 ++ l2) -> In x l1 -> In x l2 -> False.
Proof.
  induction l1 as [|y l1 IH]; simpl; [intros _ []|].
  intros H [->|H1] H2; inversion H; subst.
  - apply H3. apply in_or_app. right. exact H2.
  - eauto.
Qed.

Lemma NoDup_app_left {A} (l1 l2 : list A) : NoDup (l1 ++ l2) -> NoDup l1.
Proof.
  induction l1 as [|y l1 IH]; simpl; [constructor|].
  intros H. inversion H; subst. constructor; auto.
  intros Hin. apply H2. apply in_or_app. left. exact Hin.
Qed.

End ListFacts.

(** ** Single cases of [createFromAST] *)

Section Cases.

Lemma child_nth l i :
  nth i (map createFromAST l) (throw (TypeError "n.start")) =
  createFromAST_opt (nth_error l i).
Proof.
  revert i. induction l as [|c l IH]; intros [|i]; simpl; auto.
Qed.

Lemma default_case ast st :
  case_of (cst_type ast) = CDefault ->
  createFromAST ast st = Ok (recovered ast st, created (recovered ast st) st).
Proof.
  intros Hcase. unfold recovered.
  destruct ast as [ty tx ts sa so sy ex ch nm ar na ks vs its].
  cbn -[nth map argSequence objectLoop exprSequence case_of _getStartStop
        nth_error call finish].
  cbn [cst_type] in Hcase. rewrite Hcase.
  destruct (_getStartStop _) as [b e]. destruct ex; reflexivity.
Qed.

Lemma case_of_unrecognized ast :
  unrecognized ast -> case_of (cst_type ast) = CDefault.
Proof.
  unfold unrecognized. destruct (cst_type ast) as [t|]; [|reflexivity].
  intros H. specialize (H t eq_refl).
  unfold case_of, mem, unary_operators, binary_operators. simpl existsb.
  repeat match goal with
  | |- context [?t =? ?k] =>
    destruct (String.eqb_spec t k) as [->|_];
      [exfalso; apply H; unfold recognized_kinds, unary_operators,
                          binary_operators; simpl; tauto|]
  end.
  reflexivity.
Qed.

Lemma case_of_binary op :
  In op binary_operators -> case_of (Some op) = CBinary op.
Proof.
  unfold binary_operators. simpl.
  intros H. repeat (destruct H as [<-|H]; [reflexivity|]). contradiction.
Qed.

Lemma binary_case ast op st :
  cst_type ast = Some op -> In op binary_operators ->
  createFromAST ast st =
  match createFromAST_opt (nth_error (children ast) 0) st with
  | Throw e => Throw e
  | Ok (a, st1) =>
    match createFromAST_opt (nth_error (children ast) 2) st1 with
    | Throw e => Throw e
    | Ok (b, st2) =>
      let node :=
        FunctionCall (nodeId st2) (fst (_getStartStop ast))
                     (snd (_getStartStop ast)) op [a; b] [] in
      Ok (node, created node st2)
    end
  end.
Proof.
  intros Hty Hop.
  destruct ast as [ty tx ts sa so sy ex ch nm ar na ks vs its].
  cbn -[nth map argSequence objectLoop exprSequence case_of _getStartStop
        nth_error call finish].
  cbn [cst_type] in Hty. subst ty. rewrite (case_of_binary Hop).
  destruct (_getStartStop _) as [b e]. rewrite !child_nth.
  cbn [fst snd children].
  unfold exprSequence, sequence, finish, bind, ret, next_id, push_node,
    created.
  destruct (createFromAST_opt (nth_error ch 0) st) as [[a st1]|err];
    [|reflexivity].
  destruct (createFromAST_opt (nth_error ch 2) st1) as [[c st2]|err];
    reflexivity.
Qed.

Lemma pipe_case ast st :
  cst_type ast = Some "pipe" ->
  createFromAST ast st =
  match createFromAST_opt (nth_error (children ast) 0) (counted st) with
  | Throw e => Throw e
  | Ok (l, st1) =>
    match createFromAST_opt (nth_error (children ast) 2) st1 with
    | Throw e => Throw e
    | Ok (r, st2) =>
      let node :=
        PipeOp (nodeId st) (fst (_getStartStop ast)) (snd (_getStartStop ast))
               l r in
      Ok (node, pushed_to node st2)
    end
  end.
Proof.
  intros Hty.
  destruct ast as [ty tx ts sa so sy ex ch nm ar na ks vs its].
  cbn -[nth map argSequence objectLoop exprSequence case_of _getStartStop
        nth_error call finish].
  cbn [cst_type] in Hty. subst ty. cbn [case_of String.eqb Ascii.eqb Bool.eqb
                                        mem existsb unary_operators
                                        binary_operators orb].
  destruct (_getStartStop _) as [b e]. rewrite !child_nth.
  cbn [fst snd children].
  unfold finish, bind, ret, next_id, push_node, counted, pushed_to.
  destruct (createFromAST_opt (nth_error ch 0) _) as [[l st1]|err];
    [|reflexivity].
  destruct (createFromAST_opt (nth_error ch 2) st1) as [[r st2]|err];
    reflexivity.
Qed.

End Cases.

(** ** The loop of [argSequence] against the left-to-right scan *)

Section ArgSequence.

Variable rec : CST -> M Node.

Lemma argLoop_scan l :
  forall last acc st,
    argLoop rec l last acc st =
    match scan_args rec (negb (not_last last)) l st with
    | Ok (r, st') => Ok ((acc ++ r, final_last l last), st')
    | Throw e => Throw e
    end.
Proof.
  induction l as [|n l IH]; intros last acc st; simpl.
  - unfold ret. rewrite app_nil_r. reflexivity.
  - unfold is_comma. destruct (getText n =? ",") eqn:Hcomma.
    + destruct (not_last last); simpl.
      * unfold bind. destruct (emptyArgument n st) as [[e st1]|err];
          [|reflexivity].
        rewrite IH. simpl.
        destruct (scan_args rec false l st1) as [[r st2]|err];
          [|reflexivity].
        unfold ret. rewrite <- app_assoc. reflexivity.
      * rewrite IH. reflexivity.
    + unfold bind. destruct (rec n st) as [[a st1]|err];
        [|reflexivity].
      rewrite IH. simpl.
      destruct (scan_args rec true l st1) as [[r st2]|err]; [|reflexivity].
      unfold ret. rewrite <- app_assoc. reflexivity.
Qed.

Lemma last_defined (n : CST) l :
  exists x, last (map Some (n :: l)) None = Some x.
Proof.
  revert n. induction l as [|m l IH]; intros n.
  - exists n. reflexivity.
  - destruct (IH m) as (x & Hx). exists x. exact Hx.
Qed.

Lemma nth_error_last (l : list CST) :
  nth_error l (List.length l - 1) = last (map Some l) None.
Proof.
  induction l as [|n [|m l] IH]; try reflexivity.
  simpl in *. rewrite Nat.sub_0_r in IH. exact IH.
Qed.

Lemma final_last_open l :
  forall last0,
    not_last (final_last l last0) =
    match last (map Some l) None with
    | Some x => is_comma x
    | None => not_last last0
    end.
Proof.
  induction l as [|n [|m l] IH]; intros last0.
  - reflexivity.
  - simpl. destruct (is_comma n); reflexivity.
  - change (final_last (n :: m :: l) last0)
      with (final_last (m :: l) (if is_comma n then LFalse else LNode n)).
    rewrite IH.
    change (last (map Some (n :: m :: l)) None)
      with (last (map Some (m :: l)) None).
    destruct (last_defined m l) as (x & ->). reflexivity.
Qed.

Lemma argSequence_scan ctx st :
  argSequence rec (Some ctx) st =
  match children ctx with
  | [] => Throw (TypeError "last.getText")
  | _ :: _ => sequenced_args rec (children ctx) st
  end.
Proof.
  unfold argSequence, sequenced_args, bind.
  rewrite argLoop_scan. simpl negb.
  destruct (children ctx) as [|n l] eqn:Hch; [reflexivity|].
  destruct (scan_args rec false (n :: l) st) as [[r st1]|err]; [|reflexivity].
  rewrite final_last_open, nth_error_last. simpl app.
  destruct (last_defined n l) as (x & ->).
  unfold is_comma. destruct (getText x =? ",") eqn:Hx.
  - simpl. rewrite Hx. reflexivity.
  - reflexivity.
Qed.

End ArgSequence.

(** ** The checks of the [Token] constructor *)

Section TokenCases.

Lemma Token_cases (type : JSVal) (symbol : SymbolObj) :
  (isString type = true /\ isNumber (so_start symbol) = true /\
   isNumber (so_stop symbol) = true /\
   exists ty, type = VStr ty /\
     Token type (Some symbol) =
     Ok (mkToken ty (so_start symbol) (js_plus1 (so_stop symbol))
           (so_text symbol))) \/
  ((isString type = false \/ isNumber (so_start symbol) = false \/
    isNumber (so_stop symbol) = false) /\
   exists p, Token type (Some symbol) = Throw (IllegalArgument p)).
Proof.
  unfold Token. destruct type as [| | |ty]; simpl; eauto 6.
  destruct (isNumber (so_start symbol)); simpl; [|eauto 6].
  destruct (isNumber (so_stop symbol)); simpl; [|eauto 6].
  left. eauto 6.
Qed.

End TokenCases.

(** ** The expressions of [test/parse.test.js] *)

Section TestFile.

Import Fixtures.

(** What [getNodeTypes(parse(...))] gives on the trees of the test
    expressions that do not involve cells. *)
Example types_1 : getNodeTypes 1 (built cst_1) = Some (Ok ["number"]).
Proof. reflexivity. Qed.

Example types_x : getNodeTypes 1 (built cst_x) = Some (Ok ["var"]).
Proof. reflexivity. Qed.

Example types_foo : getNodeTypes 1 (built cst_foo) = Some (Ok ["string"]).
Proof. reflexivity. Qed.

Example value_foo :
  root (built cst_foo) = StringNode 0 (VNum 0) (VNum 5) "foo".
Proof. reflexivity. Qed.

Example types_array :
  getNodeTypes 3 (built cst_array_1_x) = Some (Ok ["array"; "number"; "var"]).
Proof. reflexivity. Qed.

Example types_object :
  getNodeTypes 3 (built cst_object_foo_bar) =
  Some (Ok ["object"; "number"; "var"]) /\
  node_entries (root (built cst_object_foo_bar)) =
  Some [("foo", NumberNode 0 (VNum 6) (VNum 7) (Number "1"));
        ("bar", Var 1 (VNum 14) (VNum 15) "x")].
Proof. split; reflexivity. Qed.

Example types_definition :
  getNodeTypes 2 (built cst_x_eq_42) = Some (Ok ["definition"; "number"]).
Proof. reflexivity. Qed.

Example types_call :
  getNodeTypes 3 (built cst_sum_1_x) = Some (Ok ["call"; "number"; "var"]).
Proof. reflexivity. Qed.

(** The walk runs out of budget when given fewer iterations than nodes. *)
Example walk_needs_budget : walk 1 (built cst_x_eq_42) = None.
Proof. reflexivity. Qed.

(** An [ErrorNode] stands where the unrecognized node stood: here as the
    right operand of [1 + ?]. *)
Example error_embedded :
  root (built (rule "add" "1+?" (sym 0 0 "1") (sym 2 2 "?")
                 [number (sym 0 0 "1"); terminal (sym 1 1 "+");
                  rule "unknown" "?" (sym 2 2 "?") (sym 2 2 "?") []])) =
  FunctionCall 2 (VNum 0) (VNum 3) "add"
    [NumberNode 0 (VNum 0) (VNum 1) (Number "1");
     ErrorNode 1 (VNum 2) (VNum 3) (MsgString "Parser error.")] [].
Proof. reflexivity. Qed.

End TestFile.

(** * The properties of the builder and the walker *)

(** Nodes of the kinds [cell] and [range] reach the [default:] arm, the
    [switch] having no [case] for them, and no arm creates a [CellRef] or a
    [RangeRef]. *)
Lemma cell_and_range_reach_default :
  (forall ast st,
     cst_type ast = Some "cell" \/ cst_type ast = Some "range" ->
     createFromAST ast st =
     Ok (recovered ast st, created (recovered ast st) st)) /\
  (forall ast expr,
     createNodeTree ast = Ok expr ->
     Forall (fun n => imported n = true) (all_nodes (root expr))).
Proof.
  split.
  - intros ast st [H|H]; apply default_case; rewrite H; reflexivity.
  - intros ast expr Hbuild. apply (d_kinds (@createNodeTree_Delta _ _ Hbuild)).
Qed.

(** C1: the builder does not do what the claim says, and what
    [test/parse.test.js] and the builder's own comment on [state.inputs]
    expect.  On the [cell] node for [B3] it returns an [ErrorNode] with the
    message "Parser error.", not a [CellRef] with row 2 and column 1; on the
    [range] node for [A1:C4] it returns an [ErrorNode] as well, not a
    [RangeRef] from row 0, column 0 to row 3, column 2; neither node is
    listed among the inputs. *)
Theorem B3_is_not_resolved :
  (exists st,
     createNodeTree Fixtures.cst_B3 =
     Ok (mkExpr (ErrorNode 0 (VNum 0) (VNum 2) (MsgString "Parser error.")) st)
     /\ inputs st = []) /\
  (exists st,
     createNodeTree Fixtures.cst_A1_C4 =
     Ok (mkExpr (ErrorNode 0 (VNum 0) (VNum 5) (MsgString "Parser error.")) st)
     /\ inputs st = []) /\
  (~ exists i s e st,
       createNodeTree Fixtures.cst_B3 = Ok (mkExpr (CellRef i s e 2 1) st)) /\
  (~ exists i s e st,
       createNodeTree Fixtures.cst_A1_C4 =
       Ok (mkExpr (RangeRef i s e 0 0 3 2) st)).
Proof.
  split; [eexists; split; vm_compute; reflexivity|].
  split; [eexists; split; vm_compute; reflexivity|].
  split; intros (i & s & e & st & H); vm_compute in H; discriminate H.
Qed.

(** C2 (as amended): at a node of an unrecognized kind (its [type] is
    absent or matches no [case] label) the builder does not throw: the node
    becomes an [ErrorNode] over the node's span whose message is the node's
    exception payload when there is one and "Parser error." otherwise; it
    takes the next id, is pushed to the node list and is returned to the
    caller, which embeds it where the node stood. *)
Theorem unrecognized_kind_recovered (ast : CST) (st : State) :
  unrecognized ast ->
  createFromAST ast st =
  Ok (ErrorNode (nodeId st) (fst (_getStartStop ast)) (snd (_getStartStop ast))
        match exception ast with
        | Some e => MsgException e
        | None => MsgString "Parser error."
        end,
      created (recovered ast st) st).
Proof.
  intros Hkind. apply default_case, case_of_unrecognized, Hkind.
Qed.

Lemma unrecognized_kind_recovered_witness :
  createFromAST Fixtures.cst_B3 initial_state =
  Ok (ErrorNode 0 (VNum 0) (VNum 2) (MsgString "Parser error."),
      created (recovered Fixtures.cst_B3 initial_state) initial_state).
Proof.
  apply (@unrecognized_kind_recovered Fixtures.cst_B3 initial_state).
  intros t Ht. inversion Ht. subst t. simpl.
  intros H. repeat (destruct H as [H|H]; [discriminate H|]). exact H.
Defined.

(** C2 fails as stated: the arms of recognized kinds read children and
    symbols without a check.  A [pipe] node without its right operand makes
    the builder call itself on [undefined], and a [number] node whose single
    child has no token below it makes it read [symbol] of [undefined]; both
    builds throw and return nothing. *)
Lemma partial_nodes_throw :
  createNodeTree Fixtures.cst_a_pipe = Throw (TypeError "n.start") /\
  createNodeTree Fixtures.cst_number_no_token = Throw (TypeError "token.symbol") /\
  ~ (forall ast, exists expr, createNodeTree ast = Ok expr).
Proof.
  split; [reflexivity|]. split; [reflexivity|].
  intros H. destruct (H Fixtures.cst_a_pipe) as (expr & Hexpr).
  discriminate Hexpr.
Qed.

(** C3 (as amended): for every tree the builder returns, [walk] ends
    (given one loop iteration per node to visit) and has called [fn]
    exactly once on every node that the root reaches through the enumerated
    children, in pre-order: the bound expression of a definition, the
    positional arguments of a function call from left to right, the values
    of an array from left to right, the value of each entry of an object
    from left to right, and nothing for any other kind; each node comes
    before its children.  The visited nodes are nodes of the tree, and the
    nodes of the tree that are not visited are exactly those below a pipe
    operator, below a named argument or among the named arguments of a
    call. *)
Theorem walk_preorder (ast : CST) (expr : Expr) (fuel : nat) :
  createNodeTree ast = Ok expr ->
  List.length (preorder (root expr)) <= fuel ->
  walk fuel expr = Some (Ok (map Some (preorder (root expr)))) /\
  (forall n, preorder n = n :: flat_map preorder (enumerated_children n)) /\
  NoDup (ids (preorder (root expr))) /\
  incl (preorder (root expr)) (all_nodes (root expr)) /\
  (forall x, In x (all_nodes (root expr)) ->
             In x (preorder (root expr)) \/ In x (hidden (root expr))) /\
  (forall x, In x (hidden (root expr)) -> ~ In x (preorder (root expr))).
Proof.
  intros Hbuild Hfuel.
  pose proof (all_nodes_split (root expr)) as Hsplit.
  split; [apply walk_visits, Hfuel|].
  split; [apply preorder_eq|].
  split; [eapply NoDup_app_left, visible_hidden_distinct, Hbuild|].
  split; [|split].
  - intros x Hx. apply (Permutation_in _ (Permutation_sym Hsplit)).
    apply in_or_app. left. exact Hx.
  - intros x Hx. apply in_app_or. apply (Permutation_in _ Hsplit), Hx.
  - intros x Hhidden Hvisited.
    eapply NoDup_app_disjoint.
    + eapply visible_hidden_distinct, Hbuild.
    + apply in_ids, Hvisited.
    + apply in_ids, Hhidden.
Qed.

Lemma walk_preorder_witness :
  walk 2 Fixtures.expr_x_eq_42 =
    Some (Ok (map Some (preorder (root Fixtures.expr_x_eq_42)))) /\
  (forall n, preorder n = n :: flat_map preorder (enumerated_children n)) /\
  NoDup (ids (preorder (root Fixtures.expr_x_eq_42))) /\
  incl (preorder (root Fixtures.expr_x_eq_42))
       (all_nodes (root Fixtures.expr_x_eq_42)) /\
  (forall x, In x (all_nodes (root Fixtures.expr_x_eq_42)) ->
             In x (preorder (root Fixtures.expr_x_eq_42)) \/
             In x (hidden (root Fixtures.expr_x_eq_42))) /\
  (forall x, In x (hidden (root Fixtures.expr_x_eq_42)) ->
             ~ In x (preorder (root Fixtures.expr_x_eq_42))).
Proof.
  apply (@walk_preorder Fixtures.cst_x_eq_42 Fixtures.expr_x_eq_42 2).
  - reflexivity.
  - simpl. lia.
Defined.

(** C3 fails as stated: not every node of a built tree is visited.  The
    tree built for [f(a, k=1)] has four nodes, the call, [a], the named
    argument and its value [1]; the walk calls [fn] on the call and on [a]
    only.  The tree built for [a | b] has three nodes and the walk calls
    [fn] on the pipe operator only. *)
Lemma named_argument_not_visited :
  createNodeTree Fixtures.cst_f_a_k_1 = Ok Fixtures.expr_f_a_k_1 /\
  List.length (all_nodes (root Fixtures.expr_f_a_k_1)) = 4 /\
  walk 4 Fixtures.expr_f_a_k_1 =
    Some (Ok [Some (root Fixtures.expr_f_a_k_1);
              Some (Var 0 (VNum 2) (VNum 3) "a")]) /\
  ~ (forall n, In n (all_nodes (root Fixtures.expr_f_a_k_1)) ->
               In (Some n) [Some (root Fixtures.expr_f_a_k_1);
                            Some (Var 0 (VNum 2) (VNum 3) "a")]) /\
  List.length (all_nodes (root (Fixtures.built Fixtures.cst_a_pipe_b))) = 3 /\
  walk 3 (Fixtures.built Fixtures.cst_a_pipe_b) =
    Some (Ok [Some (root (Fixtures.built Fixtures.cst_a_pipe_b))]).
Proof.
  split; [reflexivity|]. split; [reflexivity|]. split; [reflexivity|].
  split; [|split; reflexivity].
  intros H.
  specialize (H (NumberNode 2 (VNum 6) (VNum 7) (Number "1"))).
  simpl in H.
  destruct H as [H|[H|[]]]; [auto 6|discriminate H|discriminate H].
Qed.

(** C4: a node of any binary operator kind is lowered to a [FunctionCall]
    that carries the kind as its name and exactly two arguments, the
    results of building [children[0]] and then [children[2]]; the builder
    only recurses (a throw of either build propagates).  In particular
    [1+2], [2*3], [5-3], [6/3] and [2^3] build to calls named [add],
    [multiply], [subtract], [divide], [pow] over two [Number] nodes in
    source order. *)
Theorem binary_operators_lowered :
  (forall ast op st,
     cst_type ast = Some op -> In op binary_operators ->
     createFromAST ast st =
     match createFromAST_opt (nth_error (children ast) 0) st with
     | Throw e => Throw e
     | Ok (a, st1) =>
       match createFromAST_opt (nth_error (children ast) 2) st1 with
       | Throw e => Throw e
       | Ok (b, st2) =>
         let node :=
           FunctionCall (nodeId st2) (fst (_getStartStop ast))
                        (snd (_getStartStop ast)) op [a; b] [] in
         Ok (node, created node st2)
       end
     end) /\
  (forall cst op l r,
     In (cst, op, l, r)
        [(Fixtures.cst_1_plus_2, "add", "1", "2");
         (Fixtures.cst_2_times_3, "multiply", "2", "3");
         (Fixtures.cst_5_minus_3, "subtract", "5", "3");
         (Fixtures.cst_6_div_3, "divide", "6", "3");
         (Fixtures.cst_2_pow_3, "pow", "2", "3")] ->
     exists st,
       createNodeTree cst =
       Ok (mkExpr (FunctionCall 2 (VNum 0) (VNum 3) op
                     [NumberNode 0 (VNum 0) (VNum 1) (Number l);
                      NumberNode 1 (VNum 2) (VNum 3) (Number r)] []) st)).
Proof.
  split; [apply binary_case|].
  intros cst op l r H. simpl in H.
  repeat (destruct H as [H|H];
          [inversion H; subst; eexists; vm_compute; reflexivity|]).
  contradiction.
Qed.

Lemma binary_operators_lowered_witness :
  createFromAST Fixtures.cst_1_plus_2 initial_state =
  Ok (root Fixtures.expr_1_plus_2, state Fixtures.expr_1_plus_2) /\
  exists st,
    createNodeTree Fixtures.cst_2_pow_3 =
    Ok (mkExpr (FunctionCall 2 (VNum 0) (VNum 3) "pow"
                  [NumberNode 0 (VNum 0) (VNum 1) (Number "2");
                   NumberNode 1 (VNum 2) (VNum 3) (Number "3")] []) st).
Proof.
  split.
  - rewrite (proj1 binary_operators_lowered Fixtures.cst_1_plus_2 "add"
               initial_state).
    + reflexivity.
    + reflexivity.
    + simpl. tauto.
  - apply (proj2 binary_operators_lowered Fixtures.cst_2_pow_3 "pow" "2" "3").
    simpl. tauto.
Defined.

(** C5: the argument sequence of a call is the left-to-right scan of its
    raw elements: a comma that opens the sequence or directly follows
    another comma yields an [EmptyArgument] over that comma's span, a comma
    after an argument yields nothing, every other element is built by
    [createFromAST]; a sequence that ends in a comma gets one more
    [EmptyArgument] at the end.  (With no element at all there is nothing
    to scan and the read of the last element throws.)  In particular
    [sum(x,,y)] builds to the arguments [x], [EmptyArgument], [y] and
    [sum(x,)] to [x], [EmptyArgument]. *)
Theorem argument_sequencing :
  (forall ctx st,
     argSequence createFromAST (Some ctx) st =
     match children ctx with
     | [] => Throw (TypeError "last.getText")
     | _ :: _ => sequenced_args createFromAST (children ctx) st
     end) /\
  (exists st,
     createNodeTree Fixtures.cst_sum_x__y =
     Ok (mkExpr (FunctionCall 3 (VNum 0) (VNum 8) "sum"
                   [Var 0 (VNum 4) (VNum 5) "x";
                    EmptyArgument 1 (VNum 6) (VNum 7);
                    Var 2 (VNum 7) (VNum 8) "y"] []) st)) /\
  (exists st,
     createNodeTree Fixtures.cst_sum_x_ =
     Ok (mkExpr (FunctionCall 2 (VNum 0) (VNum 6) "sum"
                   [Var 0 (VNum 4) (VNum 5) "x";
                    EmptyArgument 1 (VNum 5) (VNum 6)] []) st)).
Proof.
  split; [apply argSequence_scan|].
  split; eexists; vm_compute; reflexivity.
Qed.

(** C6 (as amended): within one build every node object of the returned
    tree has its own id, the ids are exactly the counter values
    [0 .. nodeId - 1], each taken once; the flat node list holds nodes of
    the tree with pairwise distinct ids, in the order they were pushed;
    its ids are strictly increasing when the tree has no [Definition],
    [NamedArgument] or [PipeOp] node, the three kinds that take their id
    before their children are built. *)
Theorem node_ids_unique (ast : CST) (expr : Expr) :
  createNodeTree ast = Ok expr ->
  NoDup (ids (all_nodes (root expr))) /\
  Permutation (ids (all_nodes (root expr))) (seq 0 (nodeId (state expr))) /\
  incl (nodes (state expr)) (all_nodes (root expr)) /\
  NoDup (ids (nodes (state expr))) /\
  (forallb id_last (all_nodes (root expr)) = true ->
   StronglySorted lt (ids (nodes (state expr)))).
Proof.
  intros Hbuild. destruct (@createNodeTree_Delta _ _ Hbuild).
  repeat split; auto.
  apply NoDup_Permutation_bis; auto.
  - rewrite length_seq. unfold ids. rewrite length_map. lia.
  - intros i Hi. eapply in_range_In in Hi; [|eassumption].
    apply in_seq. lia.
Qed.

Lemma node_ids_unique_witness :
  NoDup (ids (all_nodes (root Fixtures.expr_1_plus_2))) /\
  Permutation (ids (all_nodes (root Fixtures.expr_1_plus_2)))
    (seq 0 (nodeId (state Fixtures.expr_1_plus_2))) /\
  incl (nodes (state Fixtures.expr_1_plus_2))
    (all_nodes (root Fixtures.expr_1_plus_2)) /\
  NoDup (ids (nodes (state Fixtures.expr_1_plus_2))) /\
  (forallb id_last (all_nodes (root Fixtures.expr_1_plus_2)) = true ->
   StronglySorted lt (ids (nodes (state Fixtures.expr_1_plus_2)))).
Proof.
  apply (@node_ids_unique Fixtures.cst_1_plus_2 Fixtures.expr_1_plus_2).
  reflexivity.
Defined.

(** C6 fails as stated: for [x = 42] the [Definition] takes id 0 before
    its number takes id 1, and is pushed after it, so the ids of the node
    list read [1; 0]. *)
Lemma definition_ids_decrease :
  createNodeTree Fixtures.cst_x_eq_42 = Ok Fixtures.expr_x_eq_42 /\
  ids (nodes (state Fixtures.expr_x_eq_42)) = [1; 0] /\
  ~ StronglySorted lt (ids (nodes (state Fixtures.expr_x_eq_42))).
Proof.
  split; [reflexivity|]. split; [reflexivity|].
  intros H. inversion H as [|a l Hs Hall]; subst.
  inversion Hall as [|b l' Hlt Hrest]; subst. lia.
Qed.

(** C7 (as amended): for a symbol object, [new Token(type, symbol)] throws
    an "Illegal argument" error exactly when [type] is not a string or
    [symbol.start] or [symbol.stop] is not a number, and otherwise returns a
    token with [start = symbol.start] and [end = symbol.stop + 1], the
    exclusive end.  The constructor does not compare the two offsets:
    [start <= end] holds exactly when [symbol.start <= symbol.stop + 1]. *)
Theorem Token_contract (type : JSVal) (symbol : SymbolObj) :
  ((exists p, Token type (Some symbol) = Throw (IllegalArgument p)) <->
   (isString type = false \/ isNumber (so_start symbol) = false \/
    isNumber (so_stop symbol) = false)) /\
  ((exists t, Token type (Some symbol) = Ok t) <->
   (isString type = true /\ isNumber (so_start symbol) = true /\
    isNumber (so_stop symbol) = true)) /\
  (forall t, Token type (Some symbol) = Ok t ->
     VStr (tok_type t) = type /\
     tok_start t = so_start symbol /\
     tok_end t = js_plus1 (so_stop symbol) /\
     tok_text t = so_text symbol /\
     (forall a z, so_start symbol = VNum a -> so_stop symbol = VNum z ->
        tok_end t = VNum (z + 1) /\
        (js_le (tok_start t) (tok_end t) = true <-> (a <= z + 1)%Z))).
Proof.
  destruct (Token_cases type symbol)
    as [(Hs & Ha & Hz & ty & -> & Hrun)|(Hbad & p & Hrun)].
  - split; [|split].
    + split.
      * intros (p & H). rewrite Hrun in H. discriminate H.
      * simpl in Hs. rewrite Ha, Hz. intros [H|[H|H]]; discriminate H.
    + split; eauto.
    + intros t H. rewrite Hrun in H. inversion H. subst t. simpl.
      repeat (split; [reflexivity|]).
      intros a z Hstart Hstop. rewrite Hstart, Hstop. simpl.
      split; [reflexivity|apply Z.leb_le].
  - split; [|split].
    + split; eauto.
    + split.
      * intros (t & H). rewrite Hrun in H. discriminate H.
      * intros (H1 & H2 & H3). rewrite H1, H2, H3 in Hbad.
        destruct Hbad as [H|[H|H]]; discriminate H.
    + intros t H. rewrite Hrun in H. discriminate H.
Qed.

Lemma Token_contract_witness :
  exists t,
    Token (VStr "key") (Some (of_symbol (Fixtures.sym 1 3 "foo"))) = Ok t /\
    tok_start t = VNum 1 /\ tok_end t = VNum 4 /\
    js_le (tok_start t) (tok_end t) = true.
Proof.
  destruct (Token_contract (VStr "key") (of_symbol (Fixtures.sym 1 3 "foo")))
    as (_ & Hreturns & Hok).
  destruct (proj2 Hreturns) as (t & Ht); [repeat split|].
  exists t. destruct (Hok t Ht) as (_ & Hs & _ & _ & Hnum).
  destruct (Hnum 1%Z 3%Z eq_refl eq_refl) as [He Hle].
  repeat split; [exact Ht|exact Hs|exact He|apply Hle; lia].
Defined.

(** C7 fails as stated: a symbol whose [stop] lies before its [start] is
    accepted and gives a token that ends before it starts. *)
Lemma Token_can_end_before_start :
  exists t, Token (VStr "key") (Some Fixtures.symbol_5_2) = Ok t /\
            tok_start t = VNum 5 /\ tok_end t = VNum 3 /\
            js_le (tok_start t) (tok_end t) = false.
Proof. eexists. repeat split. Qed.

(** C8: the [object] loop pushes the [key] token before its guard.  A
    pair whose value is absent is skipped by the guard, with its token
    pushed; a pair whose key is absent never reaches the guard, because
    [new Token('key', keys[i])] reads [start] of the absent key and throws:
    the build of such an object aborts instead of skipping the pair. *)
Theorem object_with_absent_key_throws :
  (forall keys vals entries st,
     objectLoop (None :: keys) vals entries st =
     Throw (TypeError "symbol.start")) /\
  (forall key keys vals entries st,
     hd None vals = None ->
     objectLoop (Some key :: keys) vals entries st =
     (push_token "key" (Some (of_symbol key)) ;;;
      objectLoop keys (tl vals) entries) st) /\
  createNodeTree Fixtures.cst_object_no_key = Throw (TypeError "symbol.start") /\
  createNodeTree Fixtures.cst_object_no_value =
  Ok (mkExpr (ObjectNode 0 (VNum 0) (VNum 7) [])
        (mkState 1 [ObjectNode 0 (VNum 0) (VNum 7) []] []
           [mkToken "key" (VNum 1) (VNum 4) (Some "foo")])).
Proof.
  split; [reflexivity|]. split.
  - intros key keys vals entries st Hv. simpl. rewrite Hv. reflexivity.
  - split; vm_compute; reflexivity.
Qed.

(** C9: for every build that returns, every element of the inputs list is
    a [Var] node of the tree, and the elements are in creation order: their
    ids, which number the nodes as they are created, strictly increase. *)
Theorem inputs_are_vars (ast : CST) (expr : Expr) :
  createNodeTree ast = Ok expr ->
  Forall (fun n => is_Var n = true) (inputs (state expr)) /\
  incl (inputs (state expr)) (all_nodes (root expr)) /\
  StronglySorted lt (ids (inputs (state expr))).
Proof.
  intros Hbuild. destruct (@createNodeTree_Delta _ _ Hbuild). auto.
Qed.

Lemma inputs_are_vars_witness :
  Forall (fun n => is_Var n = true) (inputs (state Fixtures.expr_sum_x__y)) /\
  incl (inputs (state Fixtures.expr_sum_x__y))
       (all_nodes (root Fixtures.expr_sum_x__y)) /\
  StronglySorted lt (ids (inputs (state Fixtures.expr_sum_x__y))).
Proof.
  apply (@inputs_are_vars Fixtures.cst_sum_x__y Fixtures.expr_sum_x__y).
  reflexivity.
Defined.

(** C10 (as amended): the builder attaches to a [PipeOp] the trees built
    for [children[0]] and [children[2]] (the node takes its id first); for
    every tree the builder returns, [walk] visits a [PipeOp] only where the
    pre-order over the enumerated children reaches it, and then treats it
    as a leaf: a [PipeOp] at the root is the only node visited, and no node
    of the operand subtrees of a visited [PipeOp] is ever visited. *)
Theorem pipe_is_a_leaf :
  (forall ast st,
     cst_type ast = Some "pipe" ->
     createFromAST ast st =
     match createFromAST_opt (nth_error (children ast) 0) (counted st) with
     | Throw e => Throw e
     | Ok (l, st1) =>
       match createFromAST_opt (nth_error (children ast) 2) st1 with
       | Throw e => Throw e
       | Ok (r, st2) =>
         let node :=
           PipeOp (nodeId st) (fst (_getStartStop ast))
                  (snd (_getStartStop ast)) l r in
         Ok (node, pushed_to node st2)
       end
     end) /\
  (forall ast expr fuel,
     createNodeTree ast = Ok expr ->
     List.length (preorder (root expr)) <= fuel ->
     walk fuel expr = Some (Ok (map Some (preorder (root expr)))) /\
     (is_PipeOp (root expr) = true -> preorder (root expr) = [root expr]) /\
     (forall i s e l r,
        In (PipeOp i s e l r) (preorder (root expr)) ->
        forall x, In x (all_nodes l ++ all_nodes r) ->
                  ~ In x (preorder (root expr)))).
Proof.
  split; [apply pipe_case|].
  intros ast expr fuel Hbuild Hfuel. split; [apply walk_visits, Hfuel|]. split.
  - destruct (root expr); try discriminate. reflexivity.
  - intros i s e l r Hp x Hx Hvisited.
    pose proof (@pipe_operands_hidden _ _ _ _ _ _ Hp x Hx) as Hhidden.
    eapply NoDup_app_disjoint.
    + eapply visible_hidden_distinct, Hbuild.
    + apply in_ids, Hvisited.
    + apply in_ids, Hhidden.
Qed.

Lemma pipe_is_a_leaf_witness :
  walk 1 Fixtures.expr_a_pipe_b_pipe_c =
    Some (Ok (map Some (preorder (root Fixtures.expr_a_pipe_b_pipe_c)))) /\
  (is_PipeOp (root Fixtures.expr_a_pipe_b_pipe_c) = true ->
   preorder (root Fixtures.expr_a_pipe_b_pipe_c) =
   [root Fixtures.expr_a_pipe_b_pipe_c]) /\
  (forall i s e l r,
     In (PipeOp i s e l r) (preorder (root Fixtures.expr_a_pipe_b_pipe_c)) ->
     forall x, In x (all_nodes l ++ all_nodes r) ->
               ~ In x (preorder (root Fixtures.expr_a_pipe_b_pipe_c))).
Proof.
  apply (proj2 pipe_is_a_leaf Fixtures.cst_a_pipe_b_pipe_c
               Fixtures.expr_a_pipe_b_pipe_c 1).
  - reflexivity.
  - simpl. lia.
Defined.

(** C10 fails as stated: in the tree built for [a | b | c] the inner
    [PipeOp] is a node of the tree, yet the walk visits the root only. *)
Lemma nested_pipe_not_visited :
  createNodeTree Fixtures.cst_a_pipe_b_pipe_c = Ok Fixtures.expr_a_pipe_b_pipe_c /\
  walk 1 Fixtures.expr_a_pipe_b_pipe_c =
    Some (Ok [Some (root Fixtures.expr_a_pipe_b_pipe_c)]) /\
  ~ (forall p, In p (all_nodes (root Fixtures.expr_a_pipe_b_pipe_c)) ->
               is_PipeOp p = true ->
               In (Some p) [Some (root Fixtures.expr_a_pipe_b_pipe_c)]).
Proof.
  split; [reflexivity|]. split; [reflexivity|].
  intros H.
  specialize (H (PipeOp 1 (VNum 0) (VNum 5)
                   (Var 2 (VNum 0) (VNum 1) "a") (Var 3 (VNum 4) (VNum 5) "b"))).
  simpl in H. destruct H as [H|[]]; [auto|reflexivity|discriminate H].
Qed.

(** * Further properties of the builder and the walker *)

(** ** How [Trace] composes *)

Section TraceLemmas.

Lemma Token_built ty s t :
  Token (VStr ty) s = Ok t ->
  tok_type t = ty /\ isNumber (tok_start t) = true /\
  isNumber (tok_end t) = true /\
  forall so, s = Some so -> tok_span t = (so_start so, js_plus1 (so_stop so)).
Proof.
  unfold Token. destruct s as [so|]; [|discriminate].
  destruct (isNumber (so_start so)) eqn:Ha; simpl; [|discriminate].
  destruct (isNumber (so_stop so)) eqn:Hz; simpl; [|discriminate].
  intros H. inversion H. subst t. simpl. repeat split; auto.
  - destruct (so_stop so); simpl in *; auto; discriminate.
  - intros so' Hso. inversion Hso. reflexivity.
Qed.

Lemma Trace_refl st : Trace st [] st.
Proof.
  constructor; simpl; rewrite ?app_nil_r; auto.
  exists []. rewrite app_nil_r. auto.
Qed.

Lemma Trace_trans st ns1 st1 ns2 st2 :
  Trace st ns1 st1 -> Trace st1 ns2 st2 -> Trace st (ns1 ++ ns2) st2.
Proof.
  intros [c1 n1 i1 (dt1 & t1 & v1 & s1) h1 o1]
         [c2 n2 i2 (dt2 & t2 & v2 & s2) h2 o2].
  constructor.
  - rewrite c2, c1, flat_map_app, length_app. lia.
  - rewrite n2, n1, flat_map_app, app_assoc. reflexivity.
  - rewrite i2, i1, flat_map_app, filter_app, app_assoc. reflexivity.
  - exists (dt1 ++ dt2). rewrite t2, t1, app_assoc. split; [reflexivity|].
    split; [apply Forall_app; auto|].
    rewrite flat_map_app, !filter_app, !map_app, s1, s2. reflexivity.
  - rewrite forallb_app, h1, h2. reflexivity.
  - rewrite !flat_map_app, ids_app, length_app, seq_app, o1, o2, c1.
    reflexivity.
Qed.

Lemma Trace_cons st n st1 ns st2 :
  Trace st [n] st1 -> Trace st1 ns st2 -> Trace st (n :: ns) st2.
Proof. apply (@Trace_trans st [n] st1 ns st2). Qed.

(** A token of any kind but [input-variable-name]. *)
Lemma Trace_token ty s st u st' :
  push_token ty s st = Ok (u, st') ->
  In ty token_kinds -> (ty =? "input-variable-name") = false ->
  Trace st [] st'.
Proof.
  intros H Hkind Hty. apply push_token_Ok in H. destruct H as (t & Ht & ->).
  apply Token_built in Ht. destruct Ht as (Htype & Ha & Hz & _).
  constructor; simpl; rewrite ?app_nil_r; auto.
  exists [t]. split; [reflexivity|]. split.
  - constructor; [|constructor]. unfold valid_token. rewrite Htype. auto.
  - simpl. unfold is_input_token. rewrite Htype, Hty. reflexivity.
Qed.

Lemma Trace_token_before ty s st u st1 ns st2 :
  push_token ty s st = Ok (u, st1) ->
  In ty token_kinds -> (ty =? "input-variable-name") = false ->
  Trace st1 ns st2 -> Trace st ns st2.
Proof.
  intros H Hk Hty T. apply (Trace_trans (Trace_token _ _ H Hk Hty) T).
Qed.

Lemma Trace_token_after ty s st ns st1 u st2 :
  Trace st ns st1 -> push_token ty s st1 = Ok (u, st2) ->
  In ty token_kinds -> (ty =? "input-variable-name") = false ->
  Trace st ns st2.
Proof.
  intros T H Hk Hty. rewrite <- (app_nil_r ns).
  apply (Trace_trans T (Trace_token _ _ H Hk Hty)).
Qed.

(** A node pushed after its children [ns]; it may have taken its id before
    or after they were built. *)
Lemma Trace_node st ns st2 node :
  nodeId st2 = S (nodeId st + List.length (flat_map all_nodes ns)) ->
  nodes st2 = (nodes st ++ flat_map postorder ns) ++ [node] ->
  inputs st2 = inputs st ++ filter is_Var (flat_map postorder ns) ->
  (exists dt,
     tokens st2 = tokens st ++ dt /\ Forall valid_token dt /\
     map tok_span (filter is_input_token dt) =
     map node_span (filter is_Var (flat_map postorder ns))) ->
  ids (creation_order node) =
    seq (nodeId st) (S (List.length (flat_map all_nodes ns))) ->
  all_nodes node = node :: flat_map all_nodes ns ->
  postorder node = flat_map postorder ns ++ [node] ->
  is_Var node = false -> no_stray_empty node = true ->
  Trace st [node] st2.
Proof.
  intros Hc Hn Hi Ht Hids Hall Hpost Hvar Hshape.
  constructor; simpl; rewrite ?app_nil_r.
  - rewrite Hall, Hc. simpl. lia.
  - rewrite Hpost, Hn, app_assoc. reflexivity.
  - rewrite Hpost, filter_app, Hi. simpl. rewrite Hvar, app_nil_r.
    reflexivity.
  - rewrite Hpost, filter_app. simpl. rewrite Hvar, app_nil_r. exact Ht.
  - rewrite Hshape. reflexivity.
  - rewrite Hall. exact Hids.
Qed.

Lemma Trace_parent_last st ns st1 i st2 node u st3 :
  Trace st ns st1 ->
  next_id st1 = Ok (i, st2) ->
  push_node node st2 = Ok (u, st3) ->
  all_nodes node = node :: flat_map all_nodes ns ->
  postorder node = flat_map postorder ns ++ [node] ->
  is_Var node = false -> no_stray_empty node = true ->
  creation_order node = flat_map creation_order ns ++ [node] ->
  node_id node = i ->
  Trace st [node] st3.
Proof.
  intros [c n j t h o] Hid Hpush Hall Hpost Hvar Hshape Hord Hi.
  apply next_id_Ok in Hid. destruct Hid as [-> ->].
  apply push_node_Ok in Hpush. subst st3.
  apply (@Trace_node _ ns); try (simpl; auto; fail).
  - simpl. rewrite n. reflexivity.
  - rewrite Hord, ids_app, o, seq_S. unfold ids at 1. cbn [map].
    rewrite Hi, c. reflexivity.
Qed.

Lemma Trace_parent_first st i st1 ns st2 node u st3 :
  next_id st = Ok (i, st1) ->
  Trace st1 ns st2 ->
  push_node node st2 = Ok (u, st3) ->
  all_nodes node = node :: flat_map all_nodes ns ->
  postorder node = flat_map postorder ns ++ [node] ->
  is_Var node = false -> no_stray_empty node = true ->
  creation_order node = node :: flat_map creation_order ns ->
  node_id node = i ->
  Trace st [node] st3.
Proof.
  intros Hid [c n j t h o] Hpush Hall Hpost Hvar Hshape Hord Hi.
  apply next_id_Ok in Hid. destruct Hid as [-> ->].
  apply push_node_Ok in Hpush. subst st3. simpl in *.
  apply (@Trace_node _ ns); try (simpl; auto; fail).
  - simpl. rewrite n. reflexivity.
  - rewrite Hord. cbn [seq]. unfold ids in *. cbn [map].
    rewrite Hi, o. reflexivity.
Qed.

Lemma Trace_unpushed st i st1 s e :
  next_id st = Ok (i, st1) -> Trace st [EmptyArgument i s e] st1.
Proof.
  intros Hid. apply next_id_Ok in Hid. destruct Hid as [-> ->].
  constructor; simpl; rewrite ?app_nil_r; auto; try lia.
  exists []. rewrite app_nil_r. auto.
Qed.

Lemma Trace_var st i st1 a z u1 st2 u2 st3 u3 st4 name :
  next_id st = Ok (i, st1) ->
  push_token "input-variable-name" (Some (mkSymbolObj a z None)) st1 =
    Ok (u1, st2) ->
  push_input (Var i a (js_plus1 z) name) st2 = Ok (u2, st3) ->
  push_node (Var i a (js_plus1 z) name) st3 = Ok (u3, st4) ->
  Trace st [Var i a (js_plus1 z) name] st4.
Proof.
  intros Hid Ht Hin Hn.
  apply next_id_Ok in Hid. destruct Hid as [-> ->].
  apply push_token_Ok in Ht. destruct Ht as (t & Ht & ->).
  apply push_input_Ok in Hin. subst st3.
  apply push_node_Ok in Hn. subst st4.
  apply Token_built in Ht. destruct Ht as (Htype & Ha & Hz & Hspan).
  constructor; simpl; auto; try lia.
  exists [t]. split; [reflexivity|]. split.
  - constructor; [|constructor]. unfold valid_token. rewrite Htype.
    simpl. tauto.
  - simpl. unfold is_input_token. rewrite Htype. simpl.
    rewrite (Hspan _ eq_refl). reflexivity.
Qed.

End TraceLemmas.

(** ** Every run of [createFromAST] leaves a [Trace] *)

Section TraceLoops.

Lemma Trace_shape1 st n st' : Trace st [n] st' -> no_stray_empty n = true.
Proof.
  intros T. pose proof (t_shape T) as H. simpl in H.
  rewrite andb_true_r in H. exact H.
Qed.

Lemma solid_children ns :
  Forall (fun n => is_EmptyArgument n = false) ns ->
  forallb no_stray_empty ns = true ->
  forallb (fun v => negb (is_EmptyArgument v) && no_stray_empty v) ns = true.
Proof.
  induction 1 as [|n l Hn H IH]; simpl; [reflexivity|].
  rewrite andb_true_iff. intros [H1 H2]. rewrite Hn, H1, IH; auto.
Qed.

Lemma forallb_snd {K} (f : Node -> bool) (l : list (K * Node)) :
  forallb (fun e => f (snd e)) l = forallb f (map snd l).
Proof. induction l as [|x l IH]; simpl; [|rewrite IH]; reflexivity. Qed.

Lemma traces_throw e : traces (throw e).
Proof. intros st n st' H. discriminate H. Qed.

Lemma traces_nth calls i d :
  Forall traces calls -> traces d -> traces (nth i calls d).
Proof.
  intros H Hd. revert i.
  induction H as [|c l Hc H IH]; intros [|i]; simpl; auto.
Qed.

Lemma traces_sequence calls :
  Forall traces calls ->
  forall st ns st', sequence calls st = Ok (ns, st') -> traces_solid ns st st'.
Proof.
  induction 1 as [|c l Hc H IH]; intros st ns st' Hrun; simpl in Hrun.
  - run_steps. split; [apply Trace_refl|constructor].
  - apply bind_Ok in Hrun. destruct Hrun as (n & st1 & Hn & Hrun).
    apply bind_Ok in Hrun. destruct Hrun as (r & st2 & Hr & Hrun).
    run_steps. destruct (Hc _ _ _ Hn) as [Tn En].
    destruct (IH _ _ _ Hr) as [Tr Er].
    split; [eapply Trace_cons; eauto|constructor; auto].
Qed.

Lemma traces_emptyArgument n st e st' :
  emptyArgument n st = Ok (e, st') -> Trace st [e] st'.
Proof.
  unfold emptyArgument. destruct (_getStartStop n) as [b e'].
  intros Hrun. apply bind_Ok in Hrun. destruct Hrun as (i & st1 & Hid & Hrun).
  run_steps. apply Trace_unpushed. exact Hid.
Qed.

Variable rec : CST -> M Node.

Lemma argLoop_traces l :
  (forall n, In n l -> traces (rec n)) ->
  forall last acc st r last' st',
    argLoop rec l last acc st = Ok ((r, last'), st') ->
    exists new, r = acc ++ new /\ Trace st new st'.
Proof.
  induction l as [|n l IH]; intros Hrec last acc st r last' st' Hrun;
    simpl in Hrun.
  - run_steps. exists []. rewrite app_nil_r. auto using Trace_refl.
  - assert (Hl : forall m, In m l -> traces (rec m))
      by (intros; apply Hrec; right; assumption).
    destruct (getText n =? ",").
    + destruct (not_last last).
      * apply bind_Ok in Hrun. destruct Hrun as (e & st1 & He & Hrun).
        apply (IH Hl) in Hrun. destruct Hrun as (new & -> & T).
        exists (e :: new). rewrite <- app_assoc. split; [reflexivity|].
        eapply Trace_cons; [eapply traces_emptyArgument|]; eauto.
      * eauto.
    + apply bind_Ok in Hrun. destruct Hrun as (a & st1 & Ha & Hrun).
      apply (IH Hl) in Hrun. destruct Hrun as (new & -> & T).
      exists (a :: new). rewrite <- app_assoc. split; [reflexivity|].
      eapply Trace_cons; [|exact T].
      eapply (Hrec n); [left; reflexivity|exact Ha].
Qed.

Lemma argSequence_traces args :
  (forall ctx n, args = Some ctx -> In n (children ctx) -> traces (rec n)) ->
  forall st ns st', argSequence rec args st = Ok (ns, st') -> Trace st ns st'.
Proof.
  intros Hrec st ns st' Hrun. destruct args as [ctx|]; simpl in Hrun.
  - apply bind_Ok in Hrun. destruct Hrun as ([r last] & st1 & Hloop & Hrun).
    apply argLoop_traces in Hloop; [|eauto].
    destruct Hloop as (new & -> & T). simpl in *.
    destruct (not_last last).
    + apply bind_Ok in Hrun. destruct Hrun as (l & st2 & Hl & Hrun).
      apply defined_Ok in Hl. destruct Hl as [_ ->].
      destruct (getText l =? ",").
      * apply bind_Ok in Hrun. destruct Hrun as (e & st3 & He & Hrun).
        run_steps. eapply Trace_trans; [exact T|].
        eapply traces_emptyArgument; eauto.
      * run_steps. assumption.
    + run_steps. assumption.
  - run_steps. apply Trace_refl.
Qed.

Lemma objectLoop_traces keys :
  forall vals acc st r st',
    Forall (fun o => forall b, o = Some b -> traces b) vals ->
    objectLoop keys vals acc st = Ok (r, st') ->
    exists new, r = acc ++ new /\ traces_solid (map snd new) st st'.
Proof.
  induction keys as [|key keys IH]; intros vals acc st r st' Hv Hrun;
    simpl in Hrun.
  - run_steps. exists []. rewrite app_nil_r.
    split; [reflexivity|]. split; [apply Trace_refl|constructor].
  - apply bind_Ok in Hrun. destruct Hrun as (u & st1 & Htok & Hrun).
    assert (Htl : Forall (fun o => forall b, o = Some b -> traces b) (tl vals))
      by (destruct Hv; simpl; auto).
    assert (Hhd : forall b, hd None vals = Some b -> traces b)
      by (destruct Hv; simpl; [discriminate|auto]).
    assert (Hkey : forall ns st2, Trace st1 ns st2 -> Trace st ns st2).
    { intros ns st2. eapply Trace_token_before; [eassumption| |reflexivity].
      simpl. tauto. }
    destruct key as [k|].
    + destruct (hd None vals) as [b|].
      * apply bind_Ok in Hrun. destruct Hrun as (val & st2 & Hval & Hrun).
        apply (IH _ _ _ _ _ Htl) in Hrun.
        destruct Hrun as (new & -> & T & E).
        destruct (Hhd b eq_refl _ _ _ Hval) as [Tv Ev].
        exists ((sym_text k, val) :: new). rewrite <- app_assoc.
        split; [reflexivity|]. simpl. split; [|constructor; auto].
        apply Hkey. eapply Trace_cons; eauto.
      * apply (IH _ _ _ _ _ Htl) in Hrun.
        destruct Hrun as (new & -> & T & E).
        exists new. split; [reflexivity|]. split; auto.
    + apply (IH _ _ _ _ _ Htl) in Hrun.
      destruct Hrun as (new & -> & T & E).
      exists new. split; [reflexivity|]. split; auto.
Qed.

End TraceLoops.

Section TraceBuilder.

(** Closes [postorder node = flat_map postorder children ++ [node]]. *)
Ltac post_eq := simpl; rewrite ?app_nil_r; reflexivity.

Ltac kind := simpl; tauto.

(** A node pushed by [finish] once its children [ns] are built. *)
Lemma traces_last st ns st1 i st2 node n st3 :
  Trace st ns st1 ->
  next_id st1 = Ok (i, st2) ->
  finish node st2 = Ok (n, st3) ->
  all_nodes node = node :: flat_map all_nodes ns ->
  postorder node = flat_map postorder ns ++ [node] ->
  is_Var node = false -> no_stray_empty node = true ->
  is_EmptyArgument node = false ->
  creation_order node = flat_map creation_order ns ++ [node] ->
  node_id node = i ->
  Trace st [n] st3 /\ is_EmptyArgument n = false.
Proof.
  intros T Hid Hfin. finished Hfin. intros. split; [|assumption].
  eapply Trace_parent_last; eauto.
Qed.

Lemma traces_first st i st1 ns st2 node n st3 :
  next_id st = Ok (i, st1) ->
  Trace st1 ns st2 ->
  finish node st2 = Ok (n, st3) ->
  all_nodes node = node :: flat_map all_nodes ns ->
  postorder node = flat_map postorder ns ++ [node] ->
  is_Var node = false -> no_stray_empty node = true ->
  is_EmptyArgument node = false ->
  creation_order node = node :: flat_map creation_order ns ->
  node_id node = i ->
  Trace st [n] st3 /\ is_EmptyArgument n = false.
Proof.
  intros Hid T Hfin. finished Hfin. intros. split; [|assumption].
  eapply Trace_parent_first; eauto.
Qed.

Lemma traces_before ty s st u st1 (n : Node) st2 :
  push_token ty s st = Ok (u, st1) ->
  In ty token_kinds -> (ty =? "input-variable-name") = false ->
  Trace st1 [n] st2 /\ is_EmptyArgument n = false ->
  Trace st [n] st2 /\ is_EmptyArgument n = false.
Proof.
  intros H Hk Hty [T E]. split; [|exact E].
  eapply Trace_token_before; eauto.
Qed.

Lemma traces_call argSeq start end_ ast :
  (forall argsCtx, args ast = Some argsCtx ->
     (forall st ns st', argSeq (args argsCtx) st = Ok (ns, st') ->
                        Trace st ns st') /\
     (forall st ns st', argSeq (namedArgs argsCtx) st = Ok (ns, st') ->
                        Trace st ns st')) ->
  traces (call argSeq start end_ ast).
Proof.
  intros Hargs st n st' Hrun. unfold call in Hrun.
  step Hrun r st1 Hr. step Hrun u st2 Htok. step Hrun i st3 Hid.
  assert (T : Trace st (fst r ++ snd r) st1).
  { destruct (args ast) as [argsCtx|].
    - destruct (Hargs argsCtx eq_refl) as [Hp Hn].
      step Hr p st0 Hpos. step Hr q st0' Hnamed. run_steps. simpl.
      eapply Trace_trans; [apply Hp|apply Hn]; eauto.
    - run_steps. apply Trace_refl. }
  assert (T2 : Trace st (fst r ++ snd r) st2).
  { destruct (name ast).
    - eapply Trace_token_after; [exact T|exact Htok|kind|reflexivity].
    - run_steps. assumption. }
  eapply traces_last; [exact T2|exact Hid|exact Hrun| | |reflexivity|
                       |reflexivity
    |simpl; rewrite ?flat_map_app, ?flat_map_snd; reflexivity|reflexivity].
  - simpl. rewrite flat_map_app. reflexivity.
  - simpl. rewrite flat_map_app. reflexivity.
  - simpl. rewrite <- forallb_app. apply (t_shape T2).
Qed.

Lemma createFromAST_traces_upto n :
  forall ast, size ast < n -> traces (createFromAST ast).
Proof.
  induction n as [|n IHn]; intros ast Hsz; [lia|].
  assert (IH : forall c, size c < size ast -> traces (createFromAST c))
    by (intros; apply IHn; lia).
  clear IHn Hsz.
  assert (Hchild : forall i,
    traces (nth i (map createFromAST (children ast))
                (throw (TypeError "n.start")))).
  { intros i. apply traces_nth; [|apply traces_throw].
    apply Forall_map, Forall_forall. intros c Hc.
    apply IH, size_children, Hc. }
  assert (Hargs : forall a, size a <= size ast -> forall argsCtx,
    args a = Some argsCtx ->
    (forall st ns st',
       argSequence createFromAST (args argsCtx) st = Ok (ns, st') ->
       Trace st ns st') /\
    (forall st ns st',
       argSequence createFromAST (namedArgs argsCtx) st = Ok (ns, st') ->
       Trace st ns st')).
  { intros a Ha argsCtx Hctx. apply size_args in Hctx.
    split; apply argSequence_traces; intros ctx c Hc Hin; apply IH;
      [apply size_args in Hc|apply size_namedArgs in Hc];
      apply size_children in Hin; lia. }
  assert (Hseq : forall calls st ns st',
    Forall traces calls ->
    exprSequence (Some calls) st = Ok (ns, st') -> traces_solid ns st st').
  { intros calls st ns st' Hc Hrun. eapply traces_sequence; eauto. }
  intros st nd st' Hrun.
  destruct ast as [ty tx ts sa so sy ex ch nm ar na ks vs its].
  cbn -[nth map argSequence objectLoop exprSequence case_of _getStartStop
        nth_error call finish] in Hrun.
  cbn [children] in Hchild.
  set (AST := mkCST ty tx ts sa so sy ex ch nm ar na ks vs its) in *.
  destruct (_getStartStop AST) as [b e] eqn:Hspan.
  destruct (case_of ty) eqn:Hcase.
  - (* evaluation *) eapply Hchild; eauto.
  - (* definition *)
    step Hrun lhs st1 Hlhs. step Hrun u st2 Htok. step Hrun i st3 Hid.
    step Hrun expr st4 Hexpr. run_steps.
    destruct (Hchild _ _ _ _ Hexpr) as [Te Ee].
    eapply traces_before; [eassumption|kind|reflexivity|].
    eapply traces_first; [eassumption|exact Te|eassumption|tree_eq|post_eq
                         |reflexivity| |reflexivity
    |post_eq|reflexivity].
    simpl. rewrite Ee, (Trace_shape1 Te). reflexivity.
  - (* simple *) eapply Hchild; eauto.
  - (* select_id *)
    step Hrun value st1 Hvalue. step Hrun i st2 Hid.
    step Hrun member st3 Hmember. step Hrun u st4 Hpush.
    step Hrun j st5 Hj. run_steps.
    destruct (Hchild _ _ _ _ Hvalue) as [Tv Ev].
    assert (T : Trace st [value; StringNode i b e (getText member)] st4).
    { eapply (Trace_trans (ns1 := [value]) (ns2 := [_])); [exact Tv|].
      eapply Trace_parent_last; eauto using Trace_refl. }
    eapply traces_last; [exact T|eassumption|eassumption|tree_eq|post_eq
                        |reflexivity| |reflexivity
    |post_eq|reflexivity].
    simpl. rewrite (Trace_shape1 Tv). reflexivity.
  - (* select_expr *)
    step Hrun args st1 Hargs'. step Hrun i st2 Hid.
    apply Hseq in Hargs';
      [|repeat (apply Forall_cons; [apply Hchild|]); apply Forall_nil].
    destruct Hargs' as [T E].
    eapply traces_last; [exact T|eassumption|eassumption|tree_eq|post_eq
                        |reflexivity| |reflexivity
    |post_eq|reflexivity].
    simpl. rewrite (t_shape T). reflexivity.
  - (* unary operators *)
    step Hrun args st1 Hargs'. step Hrun i st2 Hid.
    apply Hseq in Hargs';
      [|repeat (apply Forall_cons; [apply Hchild|]); apply Forall_nil].
    destruct Hargs' as [T E].
    eapply traces_last; [exact T|eassumption|eassumption|tree_eq|post_eq
                        |reflexivity| |reflexivity
    |post_eq|reflexivity].
    simpl. rewrite (t_shape T). reflexivity.
  - (* binary operators *)
    step Hrun args st1 Hargs'. step Hrun i st2 Hid.
    apply Hseq in Hargs';
      [|repeat (apply Forall_cons; [apply Hchild|]); apply Forall_nil].
    destruct Hargs' as [T E].
    eapply traces_last; [exact T|eassumption|eassumption|tree_eq|post_eq
                        |reflexivity| |reflexivity
    |post_eq|reflexivity].
    simpl. rewrite (t_shape T). reflexivity.
  - (* pipe *)
    step Hrun i st1 Hid. step Hrun l st2 Hl. step Hrun r st3 Hr.
    destruct (Hchild _ _ _ _ Hl) as [Tl El].
    destruct (Hchild _ _ _ _ Hr) as [Tr Er].
    eapply traces_first;
      [eassumption
      |apply (Trace_trans (ns1 := [l]) (ns2 := [r]) Tl Tr)
      |eassumption|tree_eq|post_eq|reflexivity| |reflexivity
    |post_eq|reflexivity].
    simpl. rewrite El, Er, (Trace_shape1 Tl), (Trace_shape1 Tr). reflexivity.
  - (* int, float, number *)
    destruct (negb _).
    + step Hrun i st1 Hid.
      eapply traces_last; [apply Trace_refl|eassumption|eassumption|tree_eq
                          |post_eq|reflexivity|reflexivity|reflexivity
    |post_eq|reflexivity].
    + step Hrun c st1 Hc. step Hrun token st2 Htoken.
      step Hrun u st3 Htok. step Hrun i st4 Hid. run_steps.
      eapply traces_before; [eassumption|kind|reflexivity|].
      eapply traces_last; [apply Trace_refl|eassumption|eassumption|tree_eq
                          |post_eq|reflexivity|reflexivity|reflexivity
    |post_eq|reflexivity].
  - (* boolean *)
    step Hrun token st1 Htoken. step Hrun u st2 Htok.
    step Hrun i st3 Hid. run_steps.
    eapply traces_before; [eassumption|kind|reflexivity|].
    eapply traces_last; [apply Trace_refl|eassumption|eassumption|tree_eq
                        |post_eq|reflexivity|reflexivity|reflexivity
    |post_eq|reflexivity].
  - (* string *)
    step Hrun ctx st1 Hctx. step Hrun u st2 Htok.
    step Hrun i st3 Hid. run_steps.
    eapply traces_before; [eassumption|kind|reflexivity|].
    eapply traces_last; [apply Trace_refl|eassumption|eassumption|tree_eq
                        |post_eq|reflexivity|reflexivity|reflexivity
    |post_eq|reflexivity].
  - (* array *)
    destruct ch as [|ctx ch']; [discriminate Hrun|].
    step Hrun vals st1 Hvals. step Hrun i st2 Hid.
    assert (T : traces_solid vals st st1).
    { destruct (children ctx) as [|c0 [|seq rest]] eqn:Hctx;
        try (run_steps; split; [apply Trace_refl|constructor]).
      destruct (items seq) as [l|] eqn:Hitems;
        [|run_steps; split; [apply Trace_refl|constructor]].
      eapply Hseq; [|eassumption].
      apply Forall_map, Forall_forall. intros c Hin. apply IH.
      eapply size_items in Hin; [|exact Hitems].
      assert (size seq < size ctx)
        by (apply size_children; rewrite Hctx; right; left; reflexivity).
      assert (size ctx < size AST)
        by (apply size_children; left; reflexivity).
      lia. }
    destruct T as [T E].
    eapply traces_last; [exact T|eassumption|eassumption|tree_eq|post_eq
                        |reflexivity| |reflexivity
    |post_eq|reflexivity].
    simpl. apply solid_children; [exact E|apply (t_shape T)].
  - (* object *)
    destruct ch as [|ctx ch']; [discriminate Hrun|].
    step Hrun keys st1 Hkeys. step Hrun entries st2 Hentries.
    step Hrun i st3 Hid. run_steps.
    assert (T : traces_solid (map snd entries) st st2).
    { destruct (vals ctx) as [l|] eqn:Hvals.
      - apply objectLoop_traces in Hentries.
        + destruct Hentries as (new & -> & T). exact T.
        + apply Forall_map, Forall_forall. intros [v|] Hin bld Hb;
            [|discriminate]. inversion Hb. subst bld. apply IH.
          eapply size_vals in Hin; [|exact Hvals].
          assert (size ctx < size AST)
            by (apply size_children; left; reflexivity).
          lia.
      - destruct keys; run_steps. split; [apply Trace_refl|constructor]. }
    destruct T as [T E].
    eapply traces_last; [exact T|eassumption|eassumption| | |reflexivity|
                        |reflexivity
    |simpl; rewrite ?flat_map_app, ?flat_map_snd; reflexivity|reflexivity].
    + simpl. rewrite flat_map_snd. reflexivity.
    + simpl. rewrite flat_map_snd. reflexivity.
    + simpl.
      rewrite (forallb_snd
                 (fun v => negb (is_EmptyArgument v) && no_stray_empty v)).
      apply solid_children; [exact E|apply (t_shape T)].
  - (* var *)
    step Hrun i st1 Hid. step Hrun s st2 Hs. step Hrun e' st3 He.
    step Hrun u st4 Htok. step Hrun u' st5 Hin. run_steps.
    finished Hrun. split; [|reflexivity].
    unfold _getStartStop, AST in Hspan. simpl in Hspan.
    inversion Hspan. subst b e.
    eapply Trace_var; eassumption.
  - (* group *) eapply Hchild; eauto.
  - (* _call *)
    destruct ch as [|ast' ch']; [discriminate Hrun|].
    eapply traces_call; [|eauto].
    apply Hargs.
    assert (size ast' < size AST)
      by (apply size_children; left; reflexivity).
    lia.
  - (* call *)
    eapply traces_call; [|eauto]. apply Hargs. lia.
  - (* named-argument *)
    step Hrun name st1 Hname. step Hrun u st2 Htok. step Hrun i st3 Hid.
    step Hrun value st4 Hvalue. run_steps.
    destruct (Hchild _ _ _ _ Hvalue) as [Tv Ev].
    eapply traces_before; [eassumption|kind|reflexivity|].
    eapply traces_first; [eassumption|exact Tv|eassumption|tree_eq|post_eq
                         |reflexivity| |reflexivity
    |post_eq|reflexivity].
    simpl. rewrite Ev, (Trace_shape1 Tv). reflexivity.
  - (* default *)
    destruct ex; step Hrun i st1 Hid;
      (eapply traces_last; [apply Trace_refl|eassumption|eassumption|tree_eq
                           |post_eq|reflexivity|reflexivity|reflexivity
    |post_eq|reflexivity]).
Qed.

Lemma createFromAST_traces ast : traces (createFromAST ast).
Proof. apply (createFromAST_traces_upto (n := S (size ast))). lia. Qed.

End TraceBuilder.

(** ** The pushed nodes against the nodes of the tree *)

Section Postorder.

Lemma Permutation_flat_map_filter {A B} (f g : A -> list B) (p : B -> bool) l :
  Forall (fun a => Permutation (f a) (filter p (g a))) l ->
  Permutation (flat_map f l) (filter p (flat_map g l)).
Proof.
  induction 1 as [|a l Ha H IH]; simpl; [constructor|].
  rewrite filter_app. apply Permutation_app; assumption.
Qed.

(** The pushed nodes are the nodes of the tree without the
    [EmptyArgument]s, each once. *)
Lemma postorder_all_nodes n :
  Permutation (postorder n)
              (filter (fun m => negb (is_EmptyArgument m)) (all_nodes n)).
Proof.
  induction n as [n IH] using Node_tree_ind.
  destruct n; simpl; try (constructor; constructor).
  - inversion IH; subst.
    rewrite Permutation_app_comm. simpl. constructor. assumption.
  - rewrite Permutation_app_comm. simpl. constructor.
    apply Permutation_flat_map_filter. exact IH.
  - rewrite Permutation_app_comm. simpl. constructor.
    apply (Permutation_flat_map_filter
             (fun e => postorder (snd e)) (fun e => all_nodes (snd e))).
    apply Forall_map in IH. exact IH.
  - rewrite Permutation_app_comm. simpl. constructor.
    apply Forall_app in IH. destruct IH as [IHa IHn].
    rewrite filter_app. apply Permutation_app;
      apply Permutation_flat_map_filter; assumption.
  - inversion IH; subst.
    rewrite Permutation_app_comm. simpl. constructor. assumption.
  - inversion IH as [|? ? Hl Hr']; subst. inversion Hr'; subst.
    rewrite Permutation_app_comm. simpl. constructor.
    rewrite filter_app. apply Permutation_app; assumption.
Qed.

Lemma postorder_ends n :
  is_EmptyArgument n = false -> exists front, postorder n = front ++ [n].
Proof. destruct n; simpl; intros H; try discriminate H; eauto; exists []; reflexivity. Qed.

End Postorder.

(** ** The side tables of a build *)

(** X1: whatever the state [createFromAST] starts from, it only appends to
    the node list, and what it appends is the post-order of the tree it
    returns (children in build order, then the node), without the
    [EmptyArgument]s: every other node of the tree is in the list exactly
    once, and the returned node is the last entry. *)
Theorem node_list_postorder (ast : CST) (st : State) (n : Node) (st' : State) :
  createFromAST ast st = Ok (n, st') ->
  nodes st' = nodes st ++ postorder n /\
  (exists front, nodes st' = (nodes st ++ front) ++ [n]) /\
  Permutation (postorder n)
              (filter (fun m => negb (is_EmptyArgument m)) (all_nodes n)).
Proof.
  intros Hrun. destruct (createFromAST_traces _ _ Hrun) as [T E].
  pose proof (t_nodes T) as Hn. simpl in Hn. rewrite app_nil_r in Hn.
  split; [exact Hn|]. split; [|apply postorder_all_nodes].
  destruct (postorder_ends _ E) as (front & Hfront).
  exists front. rewrite Hn, Hfront, app_assoc. reflexivity.
Qed.

Lemma node_list_postorder_witness :
  nodes (state Fixtures.expr_sum_x__y) =
    nodes initial_state ++ postorder (root Fixtures.expr_sum_x__y) /\
  (exists front,
     nodes (state Fixtures.expr_sum_x__y) =
     (nodes initial_state ++ front) ++ [root Fixtures.expr_sum_x__y]) /\
  Permutation (postorder (root Fixtures.expr_sum_x__y))
    (filter (fun m => negb (is_EmptyArgument m))
            (all_nodes (root Fixtures.expr_sum_x__y))).
Proof.
  apply (@node_list_postorder Fixtures.cst_sum_x__y initial_state).
  reflexivity.
Defined.

(** X2: the inputs list is appended to only, and receives exactly the
    [Var] nodes among the pushed nodes, in the same order; so every [Var]
    of the returned tree is listed, also one below a pipe operator or a
    named argument. *)
Theorem inputs_list_all_vars (ast : CST) (st : State) (n : Node) (st' : State) :
  createFromAST ast st = Ok (n, st') ->
  inputs st' = inputs st ++ filter is_Var (postorder n) /\
  (forall v, In v (all_nodes n) -> is_Var v = true -> In v (inputs st')).
Proof.
  intros Hrun. destruct (createFromAST_traces _ _ Hrun) as [T E].
  pose proof (t_inputs T) as Hi. simpl in Hi. rewrite app_nil_r in Hi.
  split; [exact Hi|].
  intros v Hv Hvar. rewrite Hi. apply in_or_app. right.
  apply filter_In. split; [|exact Hvar].
  eapply Permutation_in; [apply Permutation_sym, postorder_all_nodes|].
  apply filter_In. split; [exact Hv|]. destruct v; try discriminate Hvar.
  reflexivity.
Qed.

Lemma inputs_list_all_vars_witness :
  inputs (state Fixtures.expr_a_pipe_b_pipe_c) =
    inputs initial_state ++
    filter is_Var (postorder (root Fixtures.expr_a_pipe_b_pipe_c)) /\
  (forall v, In v (all_nodes (root Fixtures.expr_a_pipe_b_pipe_c)) ->
             is_Var v = true ->
             In v (inputs (state Fixtures.expr_a_pipe_b_pipe_c))).
Proof.
  apply (@inputs_list_all_vars Fixtures.cst_a_pipe_b_pipe_c initial_state).
  reflexivity.
Defined.

(** X3: [createFromAST] advances the id counter by exactly the number of
    node objects in the tree it returns, [EmptyArgument]s included, and so
    by at least one. *)
Theorem counter_counts_nodes (ast : CST) (st : State) (n : Node) (st' : State) :
  createFromAST ast st = Ok (n, st') ->
  nodeId st' = nodeId st + List.length (all_nodes n) /\
  nodeId st < nodeId st'.
Proof.
  intros Hrun. destruct (createFromAST_traces _ _ Hrun) as [T E].
  pose proof (t_counter T) as Hc. simpl in Hc. rewrite app_nil_r in Hc.
  split; [exact Hc|]. rewrite Hc. destruct n; simpl; lia.
Qed.

Lemma counter_counts_nodes_witness :
  nodeId (state Fixtures.expr_sum_x__y) =
    nodeId initial_state +
    List.length (all_nodes (root Fixtures.expr_sum_x__y)) /\
  nodeId initial_state < nodeId (state Fixtures.expr_sum_x__y).
Proof.
  apply (@counter_counts_nodes Fixtures.cst_sum_x__y initial_state).
  reflexivity.
Defined.

(** X4: the token list is appended to only, and every token a build adds
    has one of the seven kinds the builder names and numeric [start] and
    [end]: a symbol with a non-numeric offset aborts the build instead. *)
Theorem tokens_are_valid (ast : CST) (st : State) (n : Node) (st' : State) :
  createFromAST ast st = Ok (n, st') ->
  exists dt, tokens st' = tokens st ++ dt /\ Forall valid_token dt.
Proof.
  intros Hrun. destruct (createFromAST_traces _ _ Hrun) as [T E].
  destruct (t_tokens T) as (dt & Ht & Hv & _). eauto.
Qed.

Lemma tokens_are_valid_witness :
  exists dt,
    tokens (state Fixtures.expr_sum_x__y) = tokens initial_state ++ dt /\
    Forall valid_token dt.
Proof.
  apply (@tokens_are_valid Fixtures.cst_sum_x__y initial_state
           (root Fixtures.expr_sum_x__y)).
  reflexivity.
Defined.

(** X5: after a build the [input-variable-name] tokens and the inputs list
    correspond one to one, in order, and each token covers exactly the span
    of its [Var] node. *)
Theorem input_tokens_match_inputs (ast : CST) (expr : Expr) :
  createNodeTree ast = Ok expr ->
  map tok_span (filter is_input_token (tokens (state expr))) =
  map node_span (inputs (state expr)).
Proof.
  unfold createNodeTree.
  destruct (createFromAST ast initial_state) as [[r st]|e] eqn:Hrun;
    [|discriminate].
  intros H. inversion H. subst expr. simpl.
  destruct (createFromAST_traces _ _ Hrun) as [T E].
  destruct (t_tokens T) as (dt & Ht & _ & Hs).
  rewrite Ht, (t_inputs T). simpl. exact Hs.
Qed.

Lemma input_tokens_match_inputs_witness :
  map tok_span (filter is_input_token (tokens (state Fixtures.expr_sum_x__y))) =
  map node_span (inputs (state Fixtures.expr_sum_x__y)).
Proof.
  apply (@input_tokens_match_inputs Fixtures.cst_sum_x__y).
  reflexivity.
Defined.

(** X6: [createFromAST] never returns an [EmptyArgument], and in the tree
    it returns an [EmptyArgument] stands nowhere but in the positional or
    named argument list of a call: never as the expression of a definition,
    an array or object value, a pipe operand or the value of a named
    argument. *)
Theorem empty_arguments_only_in_calls
    (ast : CST) (st : State) (n : Node) (st' : State) :
  createFromAST ast st = Ok (n, st') ->
  is_EmptyArgument n = false /\ no_stray_empty n = true.
Proof.
  intros Hrun. destruct (createFromAST_traces _ _ Hrun) as [T E].
  split; [exact E|exact (Trace_shape1 T)].
Qed.

Lemma empty_arguments_only_in_calls_witness :
  is_EmptyArgument (root Fixtures.expr_sum_x__y) = false /\
  no_stray_empty (root Fixtures.expr_sum_x__y) = true.
Proof.
  apply (@empty_arguments_only_in_calls Fixtures.cst_sum_x__y initial_state
           (root Fixtures.expr_sum_x__y) (state Fixtures.expr_sum_x__y)).
  reflexivity.
Defined.

(** ** Wrapper nodes *)

Section Wrappers.

Lemma first_child_case ast c rest st :
  cst_type ast = Some "evaluation" \/ cst_type ast = Some "simple" ->
  children ast = c :: rest ->
  createFromAST ast st = createFromAST c st.
Proof.
  intros Hty Hch.
  destruct ast as [ty tx ts sa so sy ex ch nm ar na ks vs its].
  cbn -[nth map argSequence objectLoop exprSequence case_of _getStartStop
        nth_error call finish].
  cbn [cst_type children] in Hty, Hch. subst ch.
  destruct (_getStartStop _) as [b e].
  destruct Hty as [-> | ->]; reflexivity.
Qed.

Lemma group_case ast c0 c rest st :
  cst_type ast = Some "group" ->
  children ast = c0 :: c :: rest ->
  createFromAST ast st = createFromAST c st.
Proof.
  intros Hty Hch.
  destruct ast as [ty tx ts sa so sy ex ch nm ar na ks vs its].
  cbn -[nth map argSequence objectLoop exprSequence case_of _getStartStop
        nth_error call finish].
  cbn [cst_type children] in Hty, Hch. subst ch ty.
  destruct (_getStartStop _) as [b e]. reflexivity.
Qed.

End Wrappers.

(** X7: nodes of the kinds [evaluation], [simple] and [group] are
    transparent at any depth of nesting: building the outermost wrapper
    gives the very outcome of building the wrapped node, in every state;
    the wrappers add no node, take no id, push no token, and the node keeps
    the span of the wrapped node (so parentheses are not part of it). *)
Theorem wrappers_are_transparent (outer inner : CST) (st : State) :
  wraps outer inner ->
  createFromAST outer st = createFromAST inner st.
Proof.
  induction 1 as [ast|outer c rest inner Hty Hch Hw IH
                 |outer c0 c rest inner Hty Hch Hw IH].
  - reflexivity.
  - rewrite (first_child_case _ st Hty Hch). exact IH.
  - rewrite (group_case _ st Hty Hch). exact IH.
Qed.

Lemma wrappers_are_transparent_witness :
  createFromAST Fixtures.cst_paren_x initial_state =
  createFromAST (Fixtures.var (Fixtures.sym 1 1 "x")) initial_state.
Proof.
  apply wrappers_are_transparent.
  eapply wraps_first; [left; reflexivity|reflexivity|].
  eapply wraps_group; [reflexivity|reflexivity|apply wraps_here].
Defined.

(** ** String literals *)

Section Strings.

Lemma substring_prefix (s t : string) :
  substring 0 (String.length s) (s ++ t) = s.
Proof.
  induction s as [|c s IH]; simpl.
  - destruct t; reflexivity.
  - rewrite IH. reflexivity.
Qed.

Lemma length_append (s t : string) :
  String.length (s ++ t) = String.length s + String.length t.
Proof. induction s as [|c s IH]; simpl; [|rewrite IH]; reflexivity. Qed.

(** [slice(1, -1)] drops exactly the first and the last character. *)
Lemma slice_strips c1 body c2 :
  slice_1_m1 (String c1 (body ++ String c2 EmptyString)) = body.
Proof.
  unfold slice_1_m1. simpl String.length. rewrite length_append. simpl.
  replace (String.length body + 1 - 1) with (String.length body) by lia.
  apply substring_prefix.
Qed.

Lemma slice_short text : String.length text <= 2 -> slice_1_m1 text = EmptyString.
Proof.
  unfold slice_1_m1. destruct text as [|a [|b [|c t]]]; simpl; try reflexivity.
  lia.
Qed.

Lemma string_case ast ctx rest st n st' :
  cst_type ast = Some "string" ->
  children ast = ctx :: rest ->
  createFromAST ast st = Ok (n, st') ->
  n = StringNode (nodeId st) (fst (_getStartStop ast)) (snd (_getStartStop ast))
        (slice_1_m1 (getText ctx)) /\
  exists sy t,
    symbol ctx = Some sy /\
    Token (VStr "string-literal") (Some (of_symbol sy)) = Ok t /\
    st' = mkState (S (nodeId st)) (nodes st ++ [n]) (inputs st)
                  (tokens st ++ [t]).
Proof.
  intros Hty Hch.
  destruct ast as [ty tx ts sa so sy ex ch nm ar na ks vs its].
  cbn -[nth map argSequence objectLoop exprSequence case_of _getStartStop
        nth_error call finish].
  cbn [cst_type children] in Hty, Hch. subst ch ty.
  destruct (_getStartStop _) as [b e]. cbn [fst snd].
  intros Hrun. step Hrun c st1 Hc. step Hrun u st2 Htok. step Hrun i st3 Hid.
  apply defined_Ok in Hc. destruct Hc as [Hc ->].
  simpl in Hc. inversion Hc. subst c.
  unfold finish in Hrun. step Hrun u' st4 Hpush. apply ret_Ok in Hrun.
  destruct Hrun as [-> ->].
  apply push_token_Ok in Htok. destruct Htok as (t & Ht & ->).
  apply next_id_Ok in Hid. destruct Hid as [-> ->].
  apply push_node_Ok in Hpush. subst st4.
  simpl. split; [reflexivity|].
  destruct (symbol ctx) as [sy'|]; [|discriminate Ht].
  exists sy', t. auto.
Qed.

End Strings.

(** X8: a [string] node yields a [StringNode] whose value is the text of
    its first child without its first and its last character, whatever
    these are: a text [c1 body c2] gives [body], and a text of at most two
    characters gives the empty string.  The node takes the span of the
    [string] node and the next id, and one [string-literal] token is
    pushed. *)
Theorem string_literal_stripped
    (ast ctx : CST) (rest : list CST) (st : State) (n : Node) (st' : State) :
  cst_type ast = Some "string" ->
  children ast = ctx :: rest ->
  createFromAST ast st = Ok (n, st') ->
  (exists value, n = StringNode (nodeId st) (fst (_getStartStop ast))
                       (snd (_getStartStop ast)) value /\
     (forall c1 body c2,
        getText ctx = String c1 (body ++ String c2 EmptyString) ->
        value = body) /\
     (String.length (getText ctx) <= 2 -> value = EmptyString)) /\
  nodes st' = nodes st ++ [n] /\
  exists t, tokens st' = tokens st ++ [t] /\ tok_type t = "string-literal".
Proof.
  intros Hty Hch Hrun.
  destruct (string_case _ _ Hty Hch Hrun) as (Hn & sy & t & Hsy & Ht & Hst).
  split; [|split].
  - exists (slice_1_m1 (getText ctx)). split; [exact Hn|]. split.
    + intros c1 body c2 Htext. rewrite Htext. apply slice_strips.
    + apply slice_short.
  - rewrite Hst. reflexivity.
  - exists t. rewrite Hst. split; [reflexivity|].
    apply Token_built in Ht. tauto.
Qed.

Lemma string_literal_stripped_witness :
  (exists value,
     root (Fixtures.built Fixtures.cst_foo) =
     StringNode (nodeId initial_state)
                (fst (_getStartStop Fixtures.cst_foo))
                (snd (_getStartStop Fixtures.cst_foo)) value /\
     (forall c1 body c2,
        getText (Fixtures.terminal (Fixtures.sym 0 4 Fixtures.quoted_foo)) =
        String c1 (body ++ String c2 EmptyString) ->
        value = body) /\
     (String.length
        (getText (Fixtures.terminal (Fixtures.sym 0 4 Fixtures.quoted_foo)))
      <= 2 -> value = EmptyString)) /\
  nodes (state (Fixtures.built Fixtures.cst_foo)) =
    nodes initial_state ++ [root (Fixtures.built Fixtures.cst_foo)] /\
  exists t,
    tokens (state (Fixtures.built Fixtures.cst_foo)) =
    tokens initial_state ++ [t] /\ tok_type t = "string-literal".
Proof.
  apply (@string_literal_stripped Fixtures.cst_foo
           (Fixtures.terminal (Fixtures.sym 0 4 Fixtures.quoted_foo)) []
           initial_state (root (Fixtures.built Fixtures.cst_foo))
           (state (Fixtures.built Fixtures.cst_foo)));
    reflexivity.
Defined.

(** ** Shapes of argument sequences *)

Section ArgumentShapes.

Variable rec : CST -> M Node.

Lemma scan_alternating l :
  alternating l ->
  forall st,
    scan_args rec false l st = sequence (map rec (filter is_argument l)) st.
Proof.
  induction 1 as [a Ha|a c rest Ha Hc Halt IH]; intros st.
  - simpl. unfold is_argument. rewrite Ha. reflexivity.
  - simpl. unfold is_argument. rewrite Ha, Hc. simpl.
    unfold bind. destruct (rec a st) as [[n st1]|err]; [|reflexivity].
    rewrite IH. reflexivity.
Qed.

Lemma alternating_last l :
  alternating l ->
  exists x, last (map Some l) None = Some x /\ is_comma x = false.
Proof.
  induction 1 as [a Ha|a c rest Ha Hc Halt IH].
  - exists a. auto.
  - destruct IH as (x & Hx & Hcx). exists x. split; [|exact Hcx].
    destruct Halt; exact Hx.
Qed.

Lemma argSequence_alternating ctx st :
  alternating (children ctx) ->
  argSequence rec (Some ctx) st =
  sequence (map rec (filter is_argument (children ctx))) st.
Proof.
  intros Halt. rewrite argSequence_scan.
  destruct (alternating_last Halt) as (x & Hx & Hcx).
  destruct (children ctx) as [|n l] eqn:Hch; [inversion Halt|].
  unfold sequenced_args, bind. rewrite (scan_alternating Halt), Hx, Hcx.
  destruct (sequence _ st) as [[r st1]|err]; reflexivity.
Qed.

(** 1 when the sequence ends in an argument, 0 otherwise. *)
Let ends_in_arg (l : list CST) : nat :=
  match last (map Some l) None with
  | Some x => if is_comma x then 0 else 1
  | None => 0
  end.

Let commas (l : list CST) : nat := List.length (filter is_comma l).

Lemma scan_length l :
  forall after st r st',
    scan_args rec after l st = Ok (r, st') ->
    separated after l = true ->
    List.length r + (if after then match l with [] => 0 | _ => 1 end else 0) =
    commas l + ends_in_arg l.
Proof.
  induction l as [|n rest IH]; intros after st r st' Hrun Hsep.
  - simpl in Hrun. run_steps. destruct after; reflexivity.
  - simpl in Hrun, Hsep. unfold commas, ends_in_arg in *. simpl filter.
    destruct (is_comma n) eqn:Hn.
    + assert (Hlast : match last (map Some (n :: rest)) None with
                      | Some x => if is_comma x then 0 else 1
                      | None => 0
                      end =
                      match last (map Some rest) None with
                      | Some x => if is_comma x then 0 else 1
                      | None => 0
                      end)
        by (destruct rest; simpl; [rewrite Hn|]; reflexivity).
      rewrite Hlast. simpl List.length.
      destruct after.
      * specialize (IH false _ _ _ Hrun Hsep). cbv iota in IH. lia.
      * apply bind_Ok in Hrun. destruct Hrun as (e & st1 & He & Hrun).
        apply bind_Ok in Hrun. destruct Hrun as (r' & st2 & Hr & Hrun).
        run_steps. specialize (IH false _ _ _ Hr Hsep). cbv iota in IH.
        simpl List.length. lia.
    + destruct after; [discriminate Hsep|]. simpl in Hsep.
      apply bind_Ok in Hrun. destruct Hrun as (a & st1 & Ha & Hrun).
      apply bind_Ok in Hrun. destruct Hrun as (r' & st2 & Hr & Hrun).
      run_steps. specialize (IH true _ _ _ Hr Hsep). cbv iota in IH.
      destruct rest as [|m rest'].
      * simpl in Hr. run_steps. simpl. rewrite Hn. reflexivity.
      * change (last (map Some (n :: m :: rest')) None)
          with (last (map Some (m :: rest')) None).
        simpl filter in IH. simpl List.length. lia.
Qed.

Lemma argSequence_length ctx st r st' :
  argSequence rec (Some ctx) st = Ok (r, st') ->
  separated false (children ctx) = true ->
  List.length r = S (List.length (filter is_comma (children ctx))).
Proof.
  rewrite argSequence_scan.
  destruct (children ctx) as [|n l] eqn:Hch; [discriminate|].
  unfold sequenced_args. intros Hrun Hsep.
  apply bind_Ok in Hrun. destruct Hrun as (r0 & st1 & Hscan & Hrun).
  pose proof (@scan_length _ _ _ _ _ Hscan Hsep) as Hlen.
  unfold commas, ends_in_arg in Hlen.
  destruct (last_defined n l) as (x & Hx). rewrite Hx in Hlen, Hrun.
  destruct (is_comma x).
  - apply bind_Ok in Hrun. destruct Hrun as (e & st2 & He & Hrun).
    run_steps. rewrite length_app. cbn [List.length]. lia.
  - run_steps. lia.
Qed.

End ArgumentShapes.

(** X9: for a raw argument sequence in which arguments and commas
    alternate, with an argument at both ends, [argSequence] makes no
    [EmptyArgument]: its outcome is that of building the arguments one
    after the other, in order, commas dropped. *)
Theorem wellformed_arguments (ctx : CST) (st : State) :
  alternating (children ctx) ->
  argSequence createFromAST (Some ctx) st =
  sequence (map createFromAST (filter is_argument (children ctx))) st.
Proof. apply argSequence_alternating. Qed.

Lemma wellformed_arguments_witness :
  alternating (children Fixtures.args_1_x_y) /\
  argSequence createFromAST (Some Fixtures.args_1_x_y) initial_state =
  sequence (map createFromAST
              (filter is_argument (children Fixtures.args_1_x_y)))
           initial_state.
Proof.
  assert (H : alternating (children Fixtures.args_1_x_y)).
  { simpl. apply alternating_more; [reflexivity|reflexivity|].
    apply alternating_more; [reflexivity|reflexivity|].
    apply alternating_one. reflexivity. }
  split; [exact H|].
  apply (@wellformed_arguments Fixtures.args_1_x_y initial_state H).
Defined.

(** X10: argument positions are stable: whenever no argument directly
    follows another one, a raw sequence with [k] commas yields exactly
    [k + 1] arguments, missing ones being filled with [EmptyArgument]s. *)
Theorem argument_positions
    (ctx : CST) (st : State) (r : list Node) (st' : State) :
  argSequence createFromAST (Some ctx) st = Ok (r, st') ->
  separated false (children ctx) = true ->
  List.length r = S (List.length (filter is_comma (children ctx))).
Proof. apply argSequence_length. Qed.

Lemma argument_positions_witness :
  List.length (fst (Fixtures.sequenced Fixtures.args_x__y)) = 3.
Proof.
  apply (@argument_positions Fixtures.args_x__y initial_state
           (fst (Fixtures.sequenced Fixtures.args_x__y))
           (snd (Fixtures.sequenced Fixtures.args_x__y)));
    reflexivity.
Defined.

(** ** Entries of an object *)

Section ObjectEntries.

Lemma objectLoop_keys (f : CST -> M Node) ks :
  forall vs acc st r st',
    objectLoop ks (map (option_map f) vs) acc st = Ok (r, st') ->
    map fst r = map fst acc ++ kept_keys ks vs /\
    Forall (fun k => exists sy, k = Some sy) ks.
Proof.
  induction ks as [|key ks IH]; intros vs acc st r st' Hrun; simpl in Hrun.
  - run_steps. simpl. rewrite app_nil_r. auto.
  - apply bind_Ok in Hrun. destruct Hrun as (u & st1 & Htok & Hrun).
    apply push_token_Ok in Htok. destruct Htok as (t & Ht & _).
    destruct key as [k|]; [|discriminate Ht].
    assert (Hhd : hd None (map (option_map f) vs) = option_map f (hd None vs))
      by (destruct vs; reflexivity).
    assert (Htl : tl (map (option_map f) vs) = map (option_map f) (tl vs))
      by (destruct vs; reflexivity).
    rewrite Hhd, Htl in Hrun. simpl.
    destruct (hd None vs) as [v|]; simpl in Hrun.
    + apply bind_Ok in Hrun. destruct Hrun as (val & st2 & Hval & Hrun).
      apply IH in Hrun. destruct Hrun as [Hr Hk].
      rewrite Hr, map_app, <- app_assoc. simpl. eauto.
    + apply IH in Hrun. destruct Hrun as [Hr Hk]. eauto.
Qed.

End ObjectEntries.

(** X11: an [object] node whose build returns gives an [ObjectNode] whose
    entries follow the order of the keys: there is one entry for each key
    that has a value at the same index, under the text of that key, and
    none for a key without a value, which is dropped without a trace in the
    node; keys are not compared with one another, so a repeated key gives
    two entries.  Every key symbol is present, the build throws
    otherwise. *)
Theorem object_entries_follow_keys
    (ast ctx : CST) (rest : list CST) (ks : list (option Symbol))
    (vs : list (option CST)) (st : State) (n : Node) (st' : State) :
  cst_type ast = Some "object" ->
  children ast = ctx :: rest ->
  keys ctx = Some ks ->
  vals ctx = Some vs ->
  createFromAST ast st = Ok (n, st') ->
  (exists i entries,
     n = ObjectNode i (fst (_getStartStop ast)) (snd (_getStartStop ast))
           entries /\
     map fst entries = kept_keys ks vs /\
     nodes st' = nodes st ++ flat_map postorder (map snd entries) ++ [n]) /\
  Forall (fun k => exists sy, k = Some sy) ks.
Proof.
  intros Hty Hch Hks Hvs Hrun.
  destruct (createFromAST_traces ast st Hrun) as [T _].
  destruct ast as [ty tx ts sa so sy ex ch nm ar na kk vv its].
  cbn -[nth map argSequence objectLoop exprSequence case_of _getStartStop
        nth_error call finish] in Hrun.
  cbn [cst_type children] in Hty, Hch. subst ch ty.
  destruct (_getStartStop _) as [b e]. simpl fst. simpl snd.
  cbn [case_of] in Hrun. simpl in Hrun. rewrite Hks, Hvs in Hrun.
  step Hrun keys0 st1 Hkeys. apply defined_Ok in Hkeys.
  destruct Hkeys as [Hk ->]. inversion Hk. subst keys0.
  step Hrun entries st2 Hentries. step Hrun i st3 Hid.
  finished Hrun.
  apply objectLoop_keys in Hentries. destruct Hentries as [Hfst Hall].
  split; [|exact Hall].
  exists i, entries. split; [reflexivity|]. split; [exact Hfst|].
  rewrite (t_nodes T). simpl. rewrite app_nil_r, flat_map_snd. reflexivity.
Qed.

Lemma object_entries_follow_keys_witness :
  exists i entries,
    root (Fixtures.built Fixtures.cst_object_foo_bar_foo) =
      ObjectNode i (VNum 0) (VNum 23) entries /\
    map fst entries = ["foo"; "foo"].
Proof.
  destruct (@object_entries_follow_keys Fixtures.cst_object_foo_bar_foo
              (hd Fixtures.cst_object_foo_bar_foo
                  (children Fixtures.cst_object_foo_bar_foo))
              []
              [Some (Fixtures.sym 1 3 "foo"); Some (Fixtures.sym 9 11 "bar");
               Some (Fixtures.sym 15 17 "foo")]
              [Some (Fixtures.number (Fixtures.sym 6 6 "1")); None;
               Some (Fixtures.var (Fixtures.sym 20 20 "x"))]
              initial_state
              (root (Fixtures.built Fixtures.cst_object_foo_bar_foo))
              (state (Fixtures.built Fixtures.cst_object_foo_bar_foo))
              eq_refl eq_refl eq_refl eq_refl eq_refl)
    as [(i & entries & Hn & Hk & _) _].
  exists i, entries. split; [exact Hn|exact Hk].
Defined.

(** ** What the walker reaches *)

Section Reach.

Lemma Node_enum_ind (P : Node -> Prop) :
  (forall n, Forall P (enumerated_children n) -> P n) -> forall n, P n.
Proof.
  intros step n. induction n as [n IH] using Node_tree_ind.
  apply step. destruct n; simpl in *; auto.
  apply Forall_app in IH. tauto.
Qed.

Lemma hidden_eq n :
  hidden n = flat_map hidden (enumerated_children n) ++ below n.
Proof.
  destruct n; simpl; rewrite ?app_nil_r; try reflexivity.
  rewrite flat_map_snd. reflexivity.
Qed.

Lemma visited_below n :
  forall p, In p (preorder n) -> incl (below p) (hidden n).
Proof.
  induction n as [n IH] using Node_enum_ind. intros p Hp x Hx.
  rewrite preorder_eq in Hp. rewrite hidden_eq. apply in_or_app.
  destruct Hp as [<-|Hp]; [right; exact Hx|left].
  apply in_flat_map in Hp. destruct Hp as (k & Hk & Hp).
  rewrite Forall_forall in IH.
  apply in_flat_map. exists k. split; [exact Hk|].
  exact (IH k Hk p Hp x Hx).
Qed.

Lemma hidden_below n :
  forall x, In x (hidden n) -> exists p, In p (preorder n) /\ In x (below p).
Proof.
  induction n as [n IH] using Node_enum_ind. intros x Hx.
  rewrite hidden_eq in Hx. apply in_app_or in Hx.
  destruct Hx as [Hx|Hx].
  - apply in_flat_map in Hx. destruct Hx as (k & Hk & Hx).
    rewrite Forall_forall in IH.
    destruct (IH k Hk x Hx) as (p & Hp & Hb).
    exists p. split; [|exact Hb].
    rewrite preorder_eq. right. apply in_flat_map. eauto.
  - exists n. split; [|exact Hx]. rewrite preorder_eq. left. reflexivity.
Qed.

Lemma all_nodes_head n : exists l, all_nodes n = n :: l.
Proof. destruct n; simpl; eauto. Qed.

Lemma below_nonempty n : enumerates_all n = false -> below n <> [].
Proof.
  destruct n
    as [i s e nm x|i s e v|i s e v|i s e vs|i s e en|i s e v|i s e nm|i s e nm a na|i s e nm v|i s e l r|i s e m|i s e|i s e r c|i s e r1 c1 r2 c2];
    simpl; try discriminate.
  - destruct na as [|a' na]; [discriminate|]. intros _. simpl.
    destruct (all_nodes_head a') as (k & ->). discriminate.
  - intros _. destruct (all_nodes_head v) as (k & ->). discriminate.
  - intros _. destruct (all_nodes_head l) as (k & ->). discriminate.
Qed.

Lemma hidden_nonempty n :
  forallb enumerates_all (all_nodes n) = false -> hidden n <> [].
Proof.
  intros H Hnil.
  assert (Hex : exists p, In p (all_nodes n) /\ enumerates_all p = false).
  { induction (all_nodes n) as [|q l IH]; simpl in H; [discriminate|].
    apply andb_false_iff in H. destruct H as [H|H].
    - exists q. split; [left; reflexivity|exact H].
    - destruct (IH H) as (p & Hp & Hq). exists p. split; [right|]; assumption. }
  destruct Hex as (p & Hp & Hq).
  apply (Permutation_in _ (all_nodes_split n)) in Hp.
  rewrite Hnil, app_nil_r in Hp.
  pose proof (visited_below _ _ Hp) as Hb. rewrite Hnil in Hb.
  apply below_nonempty in Hq.
  destruct (below p) as [|x l]; [contradiction|].
  apply (Hb x). left. reflexivity.
Qed.

Lemma flat_map_complete kids :
  Forall (fun k => forallb enumerates_all (all_nodes k) = true ->
                   preorder k = all_nodes k) kids ->
  forallb enumerates_all (flat_map all_nodes kids) = true ->
  flat_map preorder kids = flat_map all_nodes kids.
Proof.
  induction 1 as [|k l Hk H IH]; simpl; [reflexivity|].
  rewrite forallb_app, andb_true_iff. intros [H1 H2].
  rewrite Hk, IH; auto.
Qed.

Lemma preorder_complete n :
  forallb enumerates_all (all_nodes n) = true -> preorder n = all_nodes n.
Proof.
  induction n as [n IH] using Node_tree_ind.
  destruct n
    as [i s e nm x|i s e v|i s e v|i s e vs|i s e en|i s e v|i s e nm|i s e nm a na|i s e nm v|i s e l r|i s e m|i s e|i s e r c|i s e r1 c1 r2 c2];
    simpl; try reflexivity; intros H.
  - inversion IH; subst. f_equal. auto.
  - f_equal. apply flat_map_complete; assumption.
  - f_equal. rewrite <- !flat_map_snd. apply flat_map_complete.
    + exact IH.
    + rewrite flat_map_snd. exact H.
  - destruct na as [|a' na]; [|discriminate H].
    rewrite app_nil_r in *. f_equal. apply flat_map_complete; assumption.
  - discriminate H.
  - discriminate H.
Qed.

End Reach.

(** X12: in the walk of a tree the builder returns, the nodes left out are
    exactly those that lie below a visited node without being enumerated
    by it: no node of the named arguments of a visited call, of the value
    of a visited named argument or of the operands of a visited pipe is
    ever passed to [fn], and a node of the tree that is not visited lies in
    one of these places. *)
Theorem walk_skips_named_arguments (ast : CST) (expr : Expr) (fuel : nat) :
  createNodeTree ast = Ok expr ->
  List.length (preorder (root expr)) <= fuel ->
  exists visited,
    walk fuel expr = Some (Ok (map Some visited)) /\
    (forall p x, In p visited -> In x (below p) -> ~ In x visited) /\
    (forall x, In x (all_nodes (root expr)) -> ~ In x visited ->
               exists p, In p visited /\ In x (below p)).
Proof.
  intros Hbuild Hfuel. exists (preorder (root expr)).
  split; [apply walk_visits, Hfuel|]. split.
  - intros p x Hp Hx Hvisited.
    apply (visited_below _ _ Hp) in Hx.
    eapply NoDup_app_disjoint.
    + eapply visible_hidden_distinct, Hbuild.
    + apply in_ids, Hvisited.
    + apply in_ids, Hx.
  - intros x Hx Hnot.
    apply (Permutation_in _ (all_nodes_split (root expr))) in Hx.
    apply in_app_or in Hx. destruct Hx as [Hx|Hx]; [contradiction|].
    apply hidden_below, Hx.
Qed.

Lemma walk_skips_named_arguments_witness :
  exists visited,
    walk 1 Fixtures.expr_a_pipe_b_pipe_c = Some (Ok (map Some visited)) /\
    (forall p x, In p visited -> In x (below p) -> ~ In x visited) /\
    (forall x, In x (all_nodes (root Fixtures.expr_a_pipe_b_pipe_c)) ->
               ~ In x visited ->
               exists p, In p visited /\ In x (below p)).
Proof.
  apply (@walk_skips_named_arguments Fixtures.cst_a_pipe_b_pipe_c
           Fixtures.expr_a_pipe_b_pipe_c 1).
  - reflexivity.
  - simpl. lia.
Defined.

(** X13: the walk of a tree the builder returns reaches every node of the
    tree exactly when the tree has no pipe operator, no named argument and
    no call with named arguments: then [fn] is called on all the nodes, as
    many as ids were handed out; otherwise on fewer. *)
Theorem walk_reaches_all (ast : CST) (expr : Expr) (fuel : nat) :
  createNodeTree ast = Ok expr ->
  nodeId (state expr) <= fuel ->
  exists visited,
    walk fuel expr = Some (Ok (map Some visited)) /\
    (forallb enumerates_all (all_nodes (root expr)) = true ->
     visited = all_nodes (root expr) /\
     List.length visited = nodeId (state expr)) /\
    (forallb enumerates_all (all_nodes (root expr)) = false ->
     List.length visited < nodeId (state expr)).
Proof.
  intros Hbuild Hfuel.
  pose proof (d_count (@createNodeTree_Delta _ _ Hbuild)) as Hcount.
  rewrite Nat.sub_0_r in Hcount.
  pose proof (Permutation_length (all_nodes_split (root expr))) as Hlen.
  rewrite length_app in Hlen.
  exists (preorder (root expr)).
  split; [apply walk_visits; lia|]. split.
  - intros H. rewrite (preorder_complete _ H). auto.
  - intros H. apply hidden_nonempty in H.
    destruct (hidden (root expr)); [contradiction|]. simpl in Hlen. lia.
Qed.

Lemma walk_reaches_all_witness :
  exists visited,
    walk 5 Fixtures.expr_a_pipe_b_pipe_c = Some (Ok (map Some visited)) /\
    (forallb enumerates_all (all_nodes (root Fixtures.expr_a_pipe_b_pipe_c))
       = true ->
     visited = all_nodes (root Fixtures.expr_a_pipe_b_pipe_c) /\
     List.length visited = nodeId (state Fixtures.expr_a_pipe_b_pipe_c)) /\
    (forallb enumerates_all (all_nodes (root Fixtures.expr_a_pipe_b_pipe_c))
       = false ->
     List.length visited < nodeId (state Fixtures.expr_a_pipe_b_pipe_c)).
Proof.
  apply (@walk_reaches_all Fixtures.cst_a_pipe_b_pipe_c
           Fixtures.expr_a_pipe_b_pipe_c 5).
  - reflexivity.
  - simpl. lia.
Defined.

(** ** Ids follow the order of creation *)

Section CreationOrder.

Lemma segment_refl {A} (l : list A) : segment l l.
Proof. exists [], []. rewrite app_nil_r. reflexivity. Qed.

Lemma segment_app_l {A} (l m x : list A) : segment l m -> segment l (x ++ m).
Proof.
  intros (pre & post & ->). exists (x ++ pre), post.
  rewrite app_assoc. reflexivity.
Qed.

Lemma segment_app_r {A} (l m x : list A) : segment l m -> segment l (m ++ x).
Proof.
  intros (pre & post & ->). exists pre, (post ++ x).
  rewrite <- !app_assoc. reflexivity.
Qed.

Lemma segment_cons {A} (l m : list A) x : segment l m -> segment l (x :: m).
Proof. apply (@segment_app_l A l m [x]). Qed.

Lemma segment_kids (p : Node) kids :
  Forall (fun k => In p (all_nodes k) ->
                   segment (creation_order p) (creation_order k)) kids ->
  In p (flat_map all_nodes kids) ->
  segment (creation_order p) (flat_map creation_order kids).
Proof.
  intros IH Hp. apply in_flat_map in Hp. destruct Hp as (k & Hk & Hp).
  rewrite Forall_forall in IH. specialize (IH k Hk Hp).
  apply in_split in Hk. destruct Hk as (l1 & l2 & ->).
  rewrite flat_map_app. simpl. apply segment_app_l, segment_app_r, IH.
Qed.

(** The creation order of a subtree is a run of that of the whole tree. *)
Lemma creation_order_segment p n :
  In p (all_nodes n) -> segment (creation_order p) (creation_order n).
Proof.
  induction n as [n IH] using Node_tree_ind.
  intros Hp.
  assert (Hn : all_nodes n = n :: tl (all_nodes n)) by (destruct n; reflexivity).
  rewrite Hn in Hp. destruct Hp as [<-|Hp]; [apply segment_refl|].
  destruct n
    as [i s e nm x|i s e v|i s e v|i s e vs|i s e en|i s e v|i s e nm|i s e nm a na|i s e nm v|i s e l r|i s e m|i s e|i s e r c|i s e r1 c1 r2 c2];
    simpl in Hp; try contradiction; simpl creation_order.
  - inversion IH; subst. apply segment_cons. auto.
  - apply segment_app_r, segment_kids; assumption.
  - rewrite <- flat_map_snd. apply segment_app_r, segment_kids.
    + exact IH.
    + rewrite flat_map_snd. exact Hp.
  - apply segment_app_r. rewrite <- flat_map_app.
    apply segment_kids; [exact IH|]. rewrite flat_map_app. exact Hp.
  - inversion IH; subst. apply segment_cons. auto.
  - inversion IH as [|? ? Hl Hr']; subst. inversion Hr'; subst.
    apply segment_cons. apply in_app_or in Hp. destruct Hp as [Hp|Hp].
    + apply segment_app_r. auto.
    + apply segment_app_l. auto.
Qed.

Lemma length_flat_map_eq {A B C} (f : A -> list B) (g : A -> list C) l :
  Forall (fun a => List.length (f a) = List.length (g a)) l ->
  List.length (flat_map f l) = List.length (flat_map g l).
Proof.
  induction 1 as [|a l Ha H IH]; simpl; [reflexivity|].
  rewrite !length_app, Ha, IH. reflexivity.
Qed.

Lemma creation_order_length n :
  List.length (creation_order n) = List.length (all_nodes n).
Proof.
  induction n as [n IH] using Node_tree_ind.
  destruct n
    as [i s e nm x|i s e v|i s e v|i s e vs|i s e en|i s e v|i s e nm|i s e nm a na|i s e nm v|i s e l r|i s e m|i s e|i s e r c|i s e r1 c1 r2 c2];
    simpl; try reflexivity.
  - inversion IH; subst. auto.
  - rewrite length_app. simpl. rewrite Nat.add_1_r. f_equal.
    apply length_flat_map_eq. exact IH.
  - rewrite length_app. simpl. rewrite Nat.add_1_r. f_equal.
    rewrite <- !flat_map_snd. apply length_flat_map_eq. exact IH.
  - rewrite length_app. simpl. rewrite Nat.add_1_r. f_equal.
    rewrite <- !flat_map_app. apply length_flat_map_eq. exact IH.
  - inversion IH; subst. auto.
  - inversion IH as [|? ? Hl Hr']; subst. inversion Hr'; subst.
    rewrite !length_app. auto.
Qed.

Lemma app_eq_length {A} (a : list A) :
  forall b c d,
    List.length a = List.length c -> a ++ b = c ++ d -> a = c /\ b = d.
Proof.
  induction a as [|x a IH]; intros b [|y c] d Hlen H; simpl in *;
    try discriminate Hlen; [auto|].
  inversion H; subst. destruct (IH b c d) as [-> ->]; auto.
Qed.

(** A run of a list numbered consecutively is numbered consecutively. *)
Lemma seq_segment {A} (f : A -> nat) (mid l : list A) a k :
  segment mid l -> map f l = seq a k ->
  exists lo, a <= lo /\ lo + List.length mid <= a + k /\
             map f mid = seq lo (List.length mid).
Proof.
  intros (pre & post & ->) H.
  assert (Hk : k = List.length pre + (List.length mid + List.length post)).
  { apply (f_equal (@List.length nat)) in H.
    rewrite length_map, length_seq, !length_app in H. lia. }
  subst k. exists (a + List.length pre).
  split; [lia|]. split; [lia|].
  rewrite !map_app, !seq_app in H.
  apply app_eq_length in H; [|rewrite length_map, length_seq; reflexivity].
  destruct H as [_ H].
  apply app_eq_length in H; [|rewrite length_map, length_seq; reflexivity].
  tauto.
Qed.

Lemma creation_order_ends n :
  (id_first n = true -> exists l, creation_order n = n :: l) /\
  (id_first n = false -> exists l, creation_order n = l ++ [n]).
Proof.
  destruct n; simpl; split; intros H; try discriminate H; eauto;
    exists []; reflexivity.
Qed.

End CreationOrder.

(** X14: the ids number the node objects in the order of their creation,
    without a gap, from the value the counter has when [createFromAST] is
    called: listing the returned tree with a [Definition], a
    [NamedArgument] and a [PipeOp] before their subtrees and every other
    node after its children gives the ids [nodeId, nodeId + 1, ...].  So
    every subtree holds a block of consecutive ids, in which the root has
    the least id if it is of one of these three kinds and the greatest
    otherwise. *)
Theorem ids_follow_creation_order
    (ast : CST) (st : State) (n : Node) (st' : State) :
  createFromAST ast st = Ok (n, st') ->
  ids (creation_order n) = seq (nodeId st) (nodeId st' - nodeId st) /\
  forall p, In p (all_nodes n) ->
    exists lo,
      nodeId st <= lo /\ lo + List.length (all_nodes p) <= nodeId st' /\
      ids (creation_order p) = seq lo (List.length (all_nodes p)) /\
      node_id p =
        if id_first p then lo else lo + List.length (all_nodes p) - 1.
Proof.
  intros Hrun. destruct (createFromAST_traces _ _ Hrun) as [T _].
  pose proof (t_ids T) as Hids. pose proof (t_counter T) as Hc.
  simpl in Hids, Hc. rewrite app_nil_r in Hc.
  rewrite (app_nil_r (creation_order n)), (app_nil_r (all_nodes n)) in Hids.
  split; [rewrite Hids; f_equal; lia|].
  intros p Hp. apply creation_order_segment in Hp.
  destruct (@seq_segment _ node_id _ _ _ _ Hp Hids)
    as (lo & Hlo & Hhi & Hseq).
  rewrite creation_order_length in Hseq, Hhi.
  exists lo. split; [exact Hlo|]. split; [lia|]. split; [exact Hseq|].
  destruct (creation_order_ends p) as [Hfirst Hlast].
  assert (Hpos : exists k, List.length (all_nodes p) = S k)
    by (destruct p; simpl; eauto).
  destruct Hpos as (k & Hk). rewrite Hk in *.
  destruct (id_first p).
  - destruct (Hfirst eq_refl) as (l & Hl). unfold ids in Hseq.
    rewrite Hl in Hseq. simpl in Hseq. inversion Hseq. reflexivity.
  - destruct (Hlast eq_refl) as (l & Hl). unfold ids in Hseq.
    rewrite Hl, map_app, seq_S in Hseq.
    apply app_inj_tail in Hseq. destruct Hseq as [_ Hseq]. lia.
Qed.

Lemma ids_follow_creation_order_witness :
  ids (creation_order (root Fixtures.expr_x_eq_42)) = [0; 1] /\
  exists lo,
    ids (creation_order (root Fixtures.expr_x_eq_42)) = seq lo 2 /\
    node_id (root Fixtures.expr_x_eq_42) = lo.
Proof.
  destruct (@ids_follow_creation_order Fixtures.cst_x_eq_42 initial_state
              (root Fixtures.expr_x_eq_42) (state Fixtures.expr_x_eq_42)
              eq_refl) as [Hall Hsub].
  split; [exact Hall|].
  destruct (Hsub (root Fixtures.expr_x_eq_42) (or_introl eq_refl))
    as (lo & _ & _ & Hseq & Hid).
  exists lo. split; [exact Hseq|exact Hid].
Defined.

(** ** The builder returns on well-formed trees *)

Section Returns.

Lemma returns_bind {A B} (m : M A) (k : A -> M B) :
  returns m -> (forall a, returns (k a)) -> returns (bind m k).
Proof.
  intros Hm Hk st. unfold bind.
  destruct (Hm st) as (a & st1 & ->). apply Hk.
Qed.

Lemma returns_ret {A} (a : A) : returns (ret a).
Proof. intros st. exists a, st. reflexivity. Qed.

Lemma returns_next_id : returns next_id.
Proof. intros st. unfold next_id. eauto. Qed.

Lemma returns_finish n : returns (finish n).
Proof. intros st. unfold finish, bind, push_node, ret. eauto. Qed.

Lemma returns_push_node n : returns (push_node n).
Proof. intros st. unfold push_node. eauto. Qed.

Lemma returns_push_input n : returns (push_input n).
Proof. intros st. unfold push_input. eauto. Qed.

Lemma returns_bind_defined {A B} what (o : option A) a (k : A -> M B) :
  o = Some a -> returns (k a) -> returns (bind (defined what o) k).
Proof. intros -> Hk st. unfold bind. simpl. apply Hk. Qed.

Lemma returns_token ty a z text :
  isNumber a = true -> isNumber z = true ->
  returns (push_token ty (Some (mkSymbolObj a z text))).
Proof.
  intros Ha Hz st. unfold push_token, Token. simpl.
  rewrite Ha, Hz. simpl. eauto.
Qed.

Lemma returns_push_token ty o :
  numeric o -> returns (push_token ty (option_map of_symbol o)).
Proof.
  intros (sy & -> & Ha & Hz). apply returns_token; assumption.
Qed.

Lemma returns_sequence calls :
  Forall returns calls -> returns (sequence calls).
Proof.
  induction 1 as [|c l Hc H IH]; simpl; [apply returns_ret|].
  apply returns_bind; [exact Hc|]. intros n.
  apply returns_bind; [exact IH|]. intros ns. apply returns_ret.
Qed.

Lemma returns_emptyArgument n : returns (emptyArgument n).
Proof.
  unfold emptyArgument. destruct (_getStartStop n) as [b e].
  apply returns_bind; [apply returns_next_id|]. intros i. apply returns_ret.
Qed.

Lemma returns_argLoop rec l :
  (forall n, In n l -> is_comma n = false -> returns (rec n)) ->
  forall last acc, returns (argLoop rec l last acc).
Proof.
  induction l as [|n l IH]; intros Hrec last acc; simpl;
    [apply returns_ret|].
  assert (Hl : forall m, In m l -> is_comma m = false -> returns (rec m))
    by (intros; apply Hrec; [right|]; assumption).
  destruct (getText n =? ",") eqn:Hn.
  - destruct (not_last last); [|apply IH, Hl].
    apply returns_bind; [apply returns_emptyArgument|].
    intros e. apply IH, Hl.
  - apply returns_bind; [apply Hrec; [left; reflexivity|exact Hn]|].
    intros a. apply IH, Hl.
Qed.

Lemma returns_argSequence rec args :
  (forall ctx, args = Some ctx ->
     children ctx <> [] /\
     forall n, In n (children ctx) -> is_comma n = false -> returns (rec n)) ->
  returns (argSequence rec args).
Proof.
  intros Hargs. destruct args as [ctx|]; simpl; [|apply returns_ret].
  destruct (Hargs ctx eq_refl) as [Hne Hrec].
  apply returns_bind; [apply returns_argLoop, Hrec|].
  intros [result last].
  destruct (not_last last); [|apply returns_ret].
  destruct (children ctx) as [|n l] eqn:Hch; [contradiction|].
  destruct (last_defined n l) as (x & Hx).
  eapply returns_bind_defined; [rewrite nth_error_last; exact Hx|].
  destruct (getText x =? ","); [|apply returns_ret].
  apply returns_bind; [apply returns_emptyArgument|].
  intros e. apply returns_ret.
Qed.

Lemma returns_objectLoop ks :
  Forall numeric ks ->
  forall vals acc,
    (forall b, In (Some b) (firstn (List.length ks) vals) -> returns b) ->
    returns (objectLoop ks vals acc).
Proof.
  induction 1 as [|key ks Hkey H IH]; intros vals acc Hv; simpl;
    [apply returns_ret|].
  assert (Htl : forall b, In (Some b) (firstn (List.length ks) (tl vals)) ->
                          returns b).
  { intros b Hb. apply Hv. destruct vals as [|v vals]; simpl in *.
    - rewrite firstn_nil in Hb. contradiction.
    - right. exact Hb. }
  assert (Hhd : forall b, hd None vals = Some b -> returns b).
  { intros b Hb. apply Hv. destruct vals as [|v vals]; simpl in *.
    - discriminate Hb.
    - left. exact Hb. }
  apply returns_bind; [apply returns_push_token, Hkey|]. intros _.
  destruct key as [k|]; [|apply IH, Htl].
  destruct (hd None vals) as [b|]; [|apply IH, Htl].
  apply returns_bind; [apply Hhd; reflexivity|].
  intros val. apply IH, Htl.
Qed.

Lemma returns_call rec start end_ a :
  call_ok a ->
  (forall c, argument_of a c -> returns (rec c)) ->
  returns (call (argSequence rec) start end_ a).
Proof.
  intros [Hname Hseq] Hrec. unfold call.
  assert (Hs : forall argsCtx o,
    args a = Some argsCtx -> o = args argsCtx \/ o = namedArgs argsCtx ->
    returns (argSequence rec o)).
  { intros argsCtx o Ha Ho. apply returns_argSequence. intros ctx ->.
    assert (Hof : sequence_of a ctx).
    { exists argsCtx. split; [exact Ha|]. destruct Ho as [<-|<-]; auto. }
    split; [apply Hseq, Hof|].
    intros n Hin Hn. apply Hrec. exists ctx. auto. }
  apply returns_bind.
  - destruct (args a) as [argsCtx|]; [|apply returns_ret].
    apply returns_bind; [eapply Hs; eauto|]. intros positional.
    apply returns_bind; [eapply Hs; eauto|]. intros named.
    apply returns_ret.
  - intros r. apply returns_bind.
    + destruct (name a) as [nm|]; [|apply returns_ret].
      destruct (Hname nm eq_refl) as (sy & Hsy & Ha & Hz).
      inversion Hsy; subst sy. apply returns_token; assumption.
    + intros _. apply returns_bind; [apply returns_next_id|].
      intros i. apply returns_finish.
Qed.

(** Closes a goal [returns m] for a chain of binds whose steps all
    return by one of the lemmas above or by an assumption. *)
Ltac chain :=
  repeat first
    [ apply returns_finish | apply returns_ret | apply returns_next_id
    | apply returns_push_input | apply returns_push_node
    | apply returns_push_token; assumption
    | apply returns_token; assumption
    | assumption
    | eapply returns_bind_defined; [eassumption|]
    | apply returns_bind; [|intros ?] ].

Lemma wellformed_returns ast : wellformed ast -> returns (createFromAST ast).
Proof.
  induction 1 as [ast Hloc _ IH].
  assert (Hchild : forall i c,
    is_child ast i c -> built_from ast c ->
    returns (nth i (map createFromAST (children ast))
                 (throw (TypeError "n.start")))).
  { intros i c Hc Hb st. rewrite child_nth, Hc. simpl. apply IH, Hb. }
  unfold locally_ok in Hloc. unfold built_from in IH, Hchild.
  unfold has_child, is_child in *.
  destruct ast as [ty tx ts sa so sy ex ch nm ar na ks vs its].
  intros st.
  cbn -[nth map argSequence objectLoop exprSequence case_of _getStartStop
        nth_error call finish].
  cbn [cst_type children cst_start cst_stop] in *.
  set (AST := mkCST ty tx ts sa so sy ex ch nm ar na ks vs its) in *.
  destruct (_getStartStop AST) as [b e].
  revert st. fold (returns (A := Node)).
  destruct (case_of ty) eqn:Hcase.
  - (* evaluation *)
    destruct Hloc as (c & Hc). eapply Hchild; eauto.
  - (* definition *)
    destruct Hloc as [(lhs & Hlhs & Hsym) (c & Hc)].
    pose proof (Hchild 2 c Hc Hc). chain.
  - (* simple *)
    destruct Hloc as (c & Hc). eapply Hchild; eauto.
  - (* select_id *)
    destruct Hloc as [(c0 & H0) (c2 & H2)].
    pose proof (Hchild 0 c0 H0 H0). chain.
  - (* select_expr *)
    destruct Hloc as [(c0 & H0) (c2 & H2)].
    pose proof (Hchild 0 c0 H0 (or_introl H0)).
    pose proof (Hchild 2 c2 H2 (or_intror H2)).
    apply returns_bind; [|intros ?; chain].
    apply returns_sequence. repeat (apply Forall_cons; [assumption|]).
    apply Forall_nil.
  - (* unary operators *)
    destruct Hloc as (c & Hc). pose proof (Hchild 1 c Hc Hc).
    apply returns_bind; [|intros ?; chain].
    apply returns_sequence. repeat (apply Forall_cons; [assumption|]).
    apply Forall_nil.
  - (* binary operators *)
    destruct Hloc as [(c0 & H0) (c2 & H2)].
    pose proof (Hchild 0 c0 H0 (or_introl H0)).
    pose proof (Hchild 2 c2 H2 (or_intror H2)).
    apply returns_bind; [|intros ?; chain].
    apply returns_sequence. repeat (apply Forall_cons; [assumption|]).
    apply Forall_nil.
  - (* pipe *)
    destruct Hloc as [(c0 & H0) (c2 & H2)].
    pose proof (Hchild 0 c0 H0 (or_introl H0)).
    pose proof (Hchild 2 c2 H2 (or_intror H2)). chain.
  - (* int, float, number *)
    destruct (List.length ch =? 1)%nat eqn:Hlen; simpl; [|chain].
    apply Nat.eqb_eq in Hlen.
    destruct Hloc as [Hne|(c & token & Hc & Htoken & Hsym)];
      [contradiction|].
    chain.
  - (* boolean *)
    destruct Hloc as (token & Htoken & Hsym). chain.
  - (* string *)
    destruct Hloc as (token & Htoken & Hsym). chain.
  - (* array *)
    destruct Hloc as (ctx & Hctx).
    destruct ch as [|ctx' ch']; [discriminate Hctx|].
    simpl in Hctx. inversion Hctx; subst ctx'.
    apply returns_bind; [|intros ?; chain].
    destruct (children ctx) as [|c0 [|seq rest]] eqn:Hch;
      try apply returns_ret.
    destruct (items seq) as [l|] eqn:Hitems; [|apply returns_ret].
    apply returns_sequence, Forall_map, Forall_forall.
    intros c Hin. apply IH. exists ctx, seq, l.
    rewrite Hch. simpl. auto.
  - (* object *)
    destruct Hloc as (ctx & keys0 & Hctx & Hkeys & Hnum & Hvals).
    destruct ch as [|ctx' ch']; [discriminate Hctx|].
    simpl in Hctx. inversion Hctx; subst ctx'.
    eapply returns_bind_defined; [exact Hkeys|].
    apply returns_bind; [|intros ?; chain].
    destruct (vals ctx) as [l|] eqn:Hl.
    + apply returns_objectLoop; [exact Hnum|].
      intros bld Hin. rewrite firstn_map in Hin.
      apply in_map_iff in Hin. destruct Hin as ([v|] & Hb & Hin);
        [|discriminate]. inversion Hb. subst bld.
      apply IH. exists ctx, keys0, l. auto.
    + rewrite (Hvals eq_refl). apply returns_ret.
  - (* var *)
    destruct Hloc as (s & e' & Hs & He & Ha & Hz). chain.
  - (* group *)
    destruct Hloc as (c & Hc). eapply Hchild; eauto.
  - (* _call *)
    destruct Hloc as (ast' & Hast' & Hok).
    destruct ch as [|a ch']; [discriminate Hast'|].
    simpl in Hast'. inversion Hast'; subst a.
    apply returns_call; [exact Hok|].
    intros c Hc. apply IH. exists ast'. auto.
  - (* call *)
    apply returns_call; [exact Hloc|].
    intros c Hc. apply IH. exact Hc.
  - (* named-argument *)
    destruct Hloc as [(lhs & Hlhs & Hsym) (c & Hc)].
    pose proof (Hchild 2 c Hc Hc). chain.
  - (* default *)
    destruct ex; chain.
Qed.

End Returns.

(** ** The builder throws on every other tree *)

Section Throws.















End Throws.

(** X17: the builder returns on every well-formed parser tree that has
    the [children] arrays the builder measures, in every state.  It is
    enough that each node the builder comes to has the children its arm
    reads, that the symbols turned into tokens are there with numeric
    offsets, that a [var] node has [start] and [stop], that an object
    context has its keys (and its values unless there is no key), that no
    raw argument sequence of a call is empty, and that a number node and
    the context of an array hold at least one child (the program throws on
    [ast.children.length] and on [ctx.children[1]] when there is no
    [children] array).  Nothing is asked of a node of an unrecognized
    kind, nor of the commas of an argument sequence. *)
Theorem wellformed_trees_build (ast : CST) :
  wellformed ast ->
  measured ast ->
  (forall st, exists n st', createFromAST ast st = Ok (n, st')) /\
  exists expr, createNodeTree ast = Ok expr.
Proof.
  intros Hwf _. pose proof (wellformed_returns Hwf) as Hret.
  split; [exact Hret|].
  unfold createNodeTree.
  destruct (Hret initial_state) as (n & st' & ->). eauto.
Qed.

Lemma wellformed_trees_build_witness :
  wellformed Fixtures.cst_x_eq_42 /\
  measured Fixtures.cst_x_eq_42 /\
  exists expr, createNodeTree Fixtures.cst_x_eq_42 = Ok expr.
Proof.
  assert (Hwf : wellformed Fixtures.cst_x_eq_42).
  { constructor.
    - cbv. eauto 12.
    - intros c Hc. cbv in Hc. inversion Hc; subst c. constructor.
      + cbv. right. eauto 12.
      + intros c Hc'. cbv in Hc'. contradiction. }
  assert (Hm : measured Fixtures.cst_x_eq_42).
  { constructor.
    - exact I.
    - intros c Hc. cbv in Hc. inversion Hc; subst c. constructor.
      + cbv. intros H. discriminate H.
      + intros c Hc'. cbv in Hc'. contradiction. }
  split; [exact Hwf|]. split; [exact Hm|].
  exact (proj2 (@wellformed_trees_build Fixtures.cst_x_eq_42 Hwf Hm)).
Defined.



(** ** The comparison of the tests *)

Section TestHelpers.

Lemma append_empty (s : string) : (s ++ "")%string = s.
Proof. induction s as [|c s IH]; simpl; [|rewrite IH]; reflexivity. Qed.

Lemma comma_not_free c s :
  comma_free (String c s) = true -> c <> ","%char.
Proof.
  simpl. intros H ->. rewrite Ascii.eqb_refl in H. discriminate H.
Qed.

Lemma append_comma_free a :
  forall b x y,
    comma_free a = true -> comma_free b = true ->
    continues x -> continues y ->
    (a ++ x)%string = (b ++ y)%string -> a = b /\ x = y.
Proof.
  induction a as [|c a IH]; intros [|d b] x y Ha Hb Hx Hy H; simpl in H.
  - auto.
  - apply comma_not_free in Hb. subst x.
    destruct Hx as [Hx|(x' & Hx)]; [discriminate Hx|].
    inversion Hx. congruence.
  - apply comma_not_free in Ha. subst y.
    destruct Hy as [Hy|(y' & Hy)]; [discriminate Hy|].
    inversion Hy. congruence.
  - inversion H. subst d. simpl in Ha, Hb.
    apply andb_true_iff in Ha. apply andb_true_iff in Hb.
    destruct (IH b x y) as [-> ->]; tauto.
Qed.

Lemma String_of_array_cons s l :
  String_of_array (s :: l) =
  (s ++ match l with
        | [] => ""
        | _ :: _ => String "," (String_of_array l)
        end)%string.
Proof.
  unfold String_of_array. destruct l as [|t l]; simpl.
  - rewrite append_empty. reflexivity.
  - reflexivity.
Qed.

Lemma continues_tail l :
  continues match l with
            | [] => ""%string
            | _ :: _ => String "," (String_of_array l)
            end.
Proof. destruct l; [left; reflexivity|right; eauto]. Qed.

Lemma String_of_array_inj l1 :
  forall l2,
    forallb tag_like l1 = true -> forallb tag_like l2 = true ->
    String_of_array l1 = String_of_array l2 -> l1 = l2.
Proof.
  induction l1 as [|s1 r1 IH]; intros [|s2 r2] H1 H2 H.
  - reflexivity.
  - rewrite String_of_array_cons in H. simpl in H2.
    apply andb_true_iff in H2. destruct H2 as [H2 _].
    unfold tag_like in H2. destruct s2; [discriminate H2|discriminate H].
  - rewrite String_of_array_cons in H. simpl in H1.
    apply andb_true_iff in H1. destruct H1 as [H1 _].
    unfold tag_like in H1. destruct s1; [discriminate H1|discriminate H].
  - rewrite !String_of_array_cons in H. simpl in H1, H2.
    apply andb_true_iff in H1. destruct H1 as [T1 R1].
    apply andb_true_iff in H2. destruct H2 as [T2 R2].
    unfold tag_like in T1, T2.
    apply andb_true_iff in T1. apply andb_true_iff in T2.
    apply append_comma_free in H;
      [|tauto|tauto|apply continues_tail|apply continues_tail].
    destruct H as [-> Htail]. f_equal.
    destruct r1 as [|t1 r1]; destruct r2 as [|t2 r2];
      try discriminate Htail; [reflexivity|].
    inversion Htail as [Heq]. apply IH; assumption.
Qed.

Lemma node_type_tag n : tag_like (node_type n) = true.
Proof. destruct n; reflexivity. Qed.

Lemma getNodeTypes_tags fuel expr ts :
  getNodeTypes fuel expr = Some (Ok ts) -> forallb tag_like ts = true.
Proof.
  unfold getNodeTypes.
  destruct (walk fuel expr) as [[visited|err]|]; try discriminate.
  intros H. inversion H. subst ts. clear H.
  induction visited as [|[n|] l IH]; simpl; auto.
  rewrite node_type_tag, IH. reflexivity.
Qed.

End TestHelpers.

(** X19: the comparison [_equal] of the tests, which joins both arrays
    with commas and compares the strings, is exact on what the tests hand
    it: for the list of types collected by [getNodeTypes] and an expected
    list of non-empty strings without a comma, the assertion passes if and
    only if the two lists are equal. *)
Theorem equal_compares_type_lists
    (fuel : nat) (expr : Expr) (types expected : list string) :
  getNodeTypes fuel expr = Some (Ok types) ->
  forallb tag_like expected = true ->
  (_equal types expected = true <-> types = expected).
Proof.
  intros Htypes Hexp. apply getNodeTypes_tags in Htypes.
  unfold _equal. rewrite String.eqb_eq. split.
  - apply String_of_array_inj; assumption.
  - intros ->. reflexivity.
Qed.

Lemma equal_compares_type_lists_witness :
  _equal ["definition"; "number"] ["definition"; "number"] = true <->
  ["definition"; "number"] = ["definition"; "number"].
Proof.
  apply (@equal_compares_type_lists 2 Fixtures.expr_x_eq_42); reflexivity.
Defined.

(** In general the comparison is coarser than equality of the arrays. *)
Example equal_joins_with_commas :
  _equal ["a,b"] ["a"; "b"] = true /\ _equal [] [""] = true.
Proof. split; reflexivity. Qed.

(** ** The order of the tokens of a call *)

Section CallTokens.

Lemma call_case ast st :
  cst_type ast = Some "call" ->
  createFromAST ast st =
  call (argSequence createFromAST) (fst (_getStartStop ast))
       (snd (_getStartStop ast)) ast st.
Proof.
  intros Hty.
  destruct ast as [ty tx ts sa so sy ex ch nm ar na ks vs its].
  cbn -[nth map argSequence objectLoop exprSequence case_of _getStartStop
        nth_error call finish].
  cbn [cst_type] in Hty. subst ty.
  change (case_of (Some "call")) with CCall.
  destruct (_getStartStop _) as [b e]. reflexivity.
Qed.

Lemma argSequence_tokens o st ns st' :
  argSequence createFromAST o st = Ok (ns, st') ->
  exists dt, tokens st' = tokens st ++ dt /\ Forall valid_token dt.
Proof.
  intros Hrun. apply argSequence_traces in Hrun.
  - destruct (t_tokens Hrun) as (dt & Hdt & Hvalid & _). eauto.
  - intros ctx n _ _. apply createFromAST_traces.
Qed.

End CallTokens.

(** X20: the tokens are listed in the order of their creation, which for
    a call is not the order of the source: the [function-name] token of a
    named call is pushed after every token of its positional and named
    arguments, as the last token of the call's build, and covers the name
    symbol. *)
Theorem function_name_token_last
    (ast : CST) (nm : Symbol) (st : State) (n : Node) (st' : State) :
  cst_type ast = Some "call" ->
  name ast = Some nm ->
  createFromAST ast st = Ok (n, st') ->
  exists dt t,
    tokens st' = tokens st ++ dt ++ [t] /\
    Forall valid_token dt /\
    tok_type t = "function-name" /\
    tok_span t = (sym_start nm, js_plus1 (sym_stop nm)) /\
    tok_text t = Some (sym_text nm).
Proof.
  intros Hty Hname Hrun. rewrite (@call_case ast st Hty) in Hrun.
  unfold call in Hrun. rewrite Hname in Hrun.
  step Hrun r st1 Hargs. step Hrun u st2 Htok. step Hrun i st3 Hid.
  unfold finish in Hrun. step Hrun u' st4 Hpush.
  apply ret_Ok in Hrun. destruct Hrun as [-> ->].
  apply push_node_Ok in Hpush. subst st4.
  assert (Hdt : exists dt, tokens st1 = tokens st ++ dt /\
                           Forall valid_token dt).
  { destruct (args ast) as [argsCtx|].
    - step Hargs positional sta Hpos. step Hargs named stb Hnamed.
      run_steps.
      apply argSequence_tokens in Hpos. destruct Hpos as (d1 & E1 & V1).
      apply argSequence_tokens in Hnamed. destruct Hnamed as (d2 & E2 & V2).
      exists (d1 ++ d2). rewrite E2, E1, app_assoc.
      split; [reflexivity|apply Forall_app; auto].
    - run_steps. exists []. rewrite app_nil_r. auto. }
  destruct Hdt as (dt & Hdt & Hvalid).
  apply push_token_Ok in Htok. destruct Htok as (t & Ht & ->).
  apply next_id_Ok in Hid. destruct Hid as [-> ->].
  exists dt, t. simpl. rewrite Hdt, app_assoc.
  split; [reflexivity|]. split; [exact Hvalid|].
  pose proof (@Token_built _ _ _ Ht) as (Htype & _ & _ & Hspan).
  split; [exact Htype|]. split; [apply (Hspan _ eq_refl)|].
  unfold Token in Ht. simpl in Ht.
  destruct (isNumber (sym_start nm)); simpl in Ht; [|discriminate Ht].
  destruct (isNumber (sym_stop nm)); simpl in Ht; [|discriminate Ht].
  inversion Ht. reflexivity.
Qed.

Lemma function_name_token_last_witness :
  exists dt t,
    tokens (state (Fixtures.built Fixtures.cst_sum_1_x)) = [] ++ dt ++ [t] /\
    Forall valid_token dt /\
    tok_type t = "function-name" /\
    tok_span t = (VNum 0, VNum 3) /\
    tok_text t = Some "sum".
Proof.
  apply (@function_name_token_last Fixtures.cst_sum_1_x
           (Fixtures.sym 0 2 "sum") initial_state
           (root (Fixtures.built Fixtures.cst_sum_1_x))
           (state (Fixtures.built Fixtures.cst_sum_1_x)));
    reflexivity.
Defined.
